(** * VF2 graph matching: a shallow embedding of [VF2.cpp]

    The development follows the source file top-down: the [Edge] and
    [Graph] structures with their construction methods, the search [State]
    with candidate generation, extension and the feasibility rules, and
    the recursive driver [solve] with its two entry points.

    Conventions.
    - C++ [int] values (vertex ids, edge ids, labels, counters) are [Z];
      no arithmetic other than [++]/[--] on container sizes is performed,
      so no wrap-around arises.
    - [vector<T>] is [list T]; an access [v[i]] outside [0, size) has no
      defined behaviour in C++ and is the error [OutOfBounds] here.
    - [set<VIndex>] is a strictly increasing [list Z] (iteration order of
      [std::set]).
    - A failed [assert] is the error [AssertFail].
    - Loops that follow the [next]/[prev] links of the edge arena, and the
      recursion of [solve], take fuel; [OutOfFuel] stands for a run that
      would not end.  The entry points supply the fuel themselves and the
      theorems below show that it always suffices. *)

From Stdlib Require Import ZArith List Bool Lia Sorted Permutation FinFun.
Import ListNotations.
Open Scope Z_scope.

(** ** Outcomes of partial operations *)

Inductive error : Type := OutOfBounds | AssertFail | OutOfFuel.

Inductive outcome (A : Type) : Type :=
| Ret (a : A)
| Err (e : error).
Arguments Ret {A} a.
Arguments Err {A} e.

Definition bind {A B : Type} (c : outcome A) (k : A -> outcome B) : outcome B :=
  match c with
  | Ret a => k a
  | Err e => Err e
  end.

Notation "x <- c ;; k" := (bind c (fun x => k))
  (at level 61, c at next level, right associativity).

(** ** Vectors *)

Definition vget {A : Type} (l : list A) (i : Z) : outcome A :=
  if i <? 0 then Err OutOfBounds
  else match nth_error l (Z.to_nat i) with
       | Some x => Ret x
       | None => Err OutOfBounds
       end.

Fixpoint upd {A : Type} (l : list A) (i : nat) (x : A) : list A :=
  match l, i with
  | [], _ => []
  | _ :: l', O => x :: l'
  | y :: l', S i' => y :: upd l' i' x
  end.

Definition vset {A : Type} (l : list A) (i : Z) (x : A) : outcome (list A) :=
  if (0 <=? i) && (i <? Z.of_nat (length l))
  then Ret (upd l (Z.to_nat i) x)
  else Err OutOfBounds.

(** ** Ordered sets of vertex ids *)

Fixpoint set_insert (x : Z) (s : list Z) : list Z :=
  match s with
  | [] => [x]
  | y :: s' =>
      if x <? y then x :: s
      else if x =? y then s
      else y :: set_insert x s'
  end.

(** [s.find(x) != s.end()] *)
Definition set_mem (x : Z) (s : list Z) : bool := existsb (Z.eqb x) s.

Definition set_erase (x : Z) (s : list Z) : list Z :=
  filter (fun y => negb (y =? x)) s.

(** [if (s.find(x) != s.end()) s.erase(x)] *)
Definition erase_if_present (x : Z) (s : list Z) : list Z :=
  if set_mem x s then set_erase x s else s.

(** [std::set_intersection] of two ordered ranges, collected in a set. *)
Definition set_intersection (a b : list Z) : list Z :=
  filter (fun k => set_mem k b) a.

Definition NULL_VIndex : Z := -1.
Definition NULL_EIndex : Z := -1.
Definition NULL_VERTEX_SET : list Z := [].

(** ** Edges and graphs *)

Module Edge.
Record t : Type := mk { u : Z; v : Z; label : Z; next : Z; prev : Z }.
End Edge.

Module Graph.

Record t : Type := mk {
  edge_count : Z;
  vertex_count : Z;
  vertex : list Z;
  head_edge : list Z;
  rev_head_edge : list Z;
  edge : list Edge.t;
  pred : list (list Z);
  succ : list (list Z)
}.

Definition initial : t :=
  mk 0 0 [] [] [] [] [] [].

Definition addVertex (G : t) (label : Z) : t :=
  mk (edge_count G)
     (vertex_count G + 1)
     (vertex G ++ [label])
     (head_edge G ++ [NULL_EIndex])
     (rev_head_edge G ++ [NULL_EIndex])
     (edge G)
     (pred G ++ [NULL_VERTEX_SET])
     (succ G ++ [NULL_VERTEX_SET]).

Definition addEdge (G : t) (u v label : Z) : outcome t :=
  hu <- vget (head_edge G) u ;;
  rv <- vget (rev_head_edge G) v ;;
  let edge' := edge G ++ [Edge.mk u v label hu rv] in
  head' <- vset (head_edge G) u (edge_count G) ;;
  rev' <- vset (rev_head_edge G) v (edge_count G) ;;
  pv <- vget (pred G) v ;;
  pred' <- vset (pred G) v (set_insert u pv) ;;
  su <- vget (succ G) u ;;
  succ' <- vset (succ G) u (set_insert v su) ;;
  Ret (mk (edge_count G + 1) (vertex_count G) (vertex G)
          head' rev' edge' pred' succ').

End Graph.

(** The input reader builds every graph from [initial] by [addVertex] and
    [addEdge]; a graph is [constructed] when it arises this way without an
    out-of-range access. *)
Inductive constructed : Graph.t -> Prop :=
| constructed_initial : constructed Graph.initial
| constructed_vertex G l :
    constructed G -> constructed (Graph.addVertex G l)
| constructed_edge G u v l G' :
    constructed G -> Graph.addEdge G u v l = Ret G' -> constructed G'.

(** The same construction as a function, for concrete graphs. *)
Inductive cmd : Type :=
| V (label : Z)
| E (u v label : Z).

Fixpoint build_from (G : Graph.t) (cs : list cmd) : outcome Graph.t :=
  match cs with
  | [] => Ret G
  | V l :: cs' => build_from (Graph.addVertex G l) cs'
  | E u v l :: cs' => G' <- Graph.addEdge G u v l ;; build_from G' cs'
  end.

Definition build (cs : list cmd) : outcome Graph.t :=
  build_from Graph.initial cs.

(** ** Search states *)

Module State.

Record t : Type := mk {
  vertex_count : Z;
  subisomorphism : bool;
  in_1 : list Z;
  in_2 : list Z;
  out_1 : list Z;
  out_2 : list Z;
  M1 : list Z;
  M2 : list Z;
  core_1 : list Z;
  core_2 : list Z
}.

(** The constructor [State(_count, sub)]; [_count] is the vertex count of
    a graph and so not negative. *)
Definition new (_count : Z) (sub : bool) : t :=
  mk _count sub [] [] [] [] [] []
     (repeat NULL_VIndex (Z.to_nat _count))
     (repeat NULL_VIndex (Z.to_nat _count)).

(** [for (auto vid2: s) max_vid2 = max(max_vid2, vid2)] from [-1]. *)
Definition max_vid (s : list Z) : Z := fold_left Z.max s (-1).

(** The downward scan of [core_2]; [k] positions remain below the
    current one. *)
Fixpoint scan_down (core : list Z) (k : nat) : outcome Z :=
  match k with
  | O => Ret (-1)
  | S k' =>
      x <- vget core (Z.of_nat k') ;;
      if x =? NULL_VIndex then Ret (Z.of_nat k') else scan_down core k'
  end.

(** [for (max_vid2 = vertex_count - 1;
         max_vid2 >= 0 && core_2[max_vid2] != NULL_VIndex; max_vid2--) {}] *)
Definition last_unmapped (count : Z) (core : list Z) : outcome Z :=
  if count <=? 0 then Ret (count - 1)
  else scan_down core (Z.to_nat count).

(** The upward scan of [core_1] from [vid], [k] positions to go. *)
Fixpoint unmapped_pairs (core : list Z) (m : Z) (vid : Z) (k : nat)
  : outcome (list (Z * Z)) :=
  match k with
  | O => Ret []
  | S k' =>
      x <- vget core vid ;;
      rest <- unmapped_pairs core m (vid + 1) k' ;;
      Ret (if x =? NULL_VIndex then (vid, m) :: rest else rest)
  end.

Definition genCandiPairSet (s : t) : outcome (list (Z * Z)) :=
  if negb (length (out_1 s) =? 0)%nat && negb (length (out_2 s) =? 0)%nat then
    let max_vid2 := max_vid (out_2 s) in
    Ret (map (fun vid1 => (vid1, max_vid2)) (out_1 s))
  else if negb (length (in_1 s) =? 0)%nat && negb (length (in_2 s) =? 0)%nat then
    let max_vid2 := max_vid (in_2 s) in
    Ret (map (fun vid1 => (vid1, max_vid2)) (in_1 s))
  else
    max_vid2 <- last_unmapped (vertex_count s) (core_2 s) ;;
    unmapped_pairs (core_1 s) max_vid2 0 (Z.to_nat (vertex_count s)).

(** [for (auto u: nbrs) if (core[u] == NULL_VIndex) front.insert(u)] *)
Fixpoint add_unmapped (core nbrs front : list Z) : outcome (list Z) :=
  match nbrs with
  | [] => Ret front
  | u :: nbrs' =>
      x <- vget core u ;;
      add_unmapped core nbrs'
        (if x =? NULL_VIndex then set_insert u front else front)
  end.

Definition addNewPair (s : t) (n m : Z) (pred1 pred2 succ1 succ2 : list Z)
  : outcome t :=
  let M1' := set_insert n (M1 s) in
  let M2' := set_insert m (M2 s) in
  core_1' <- vset (core_1 s) n m ;;
  core_2' <- vset (core_2 s) m n ;;
  in_1' <- add_unmapped core_1' pred1 (in_1 s) ;;
  in_2' <- add_unmapped core_2' pred2 (in_2 s) ;;
  out_1' <- add_unmapped core_1' succ1 (out_1 s) ;;
  out_2' <- add_unmapped core_2' succ2 (out_2 s) ;;
  Ret (mk (vertex_count s) (subisomorphism s)
          (erase_if_present n in_1') (erase_if_present m in_2')
          (erase_if_present n out_1') (erase_if_present m out_2')
          M1' M2' core_1' core_2').

(** The inner loop of [checkPredRule]: is there an edge from the head of
    this chain to [map_vid] with label [label]? *)
Fixpoint find_out (fuel : nat) (G2 : Graph.t) (eid2 map_vid label : Z)
  : outcome bool :=
  if eid2 =? NULL_EIndex then Ret false
  else match fuel with
       | O => Err OutOfFuel
       | S fuel' =>
           e <- vget (Graph.edge G2) eid2 ;;
           if (Edge.v e =? map_vid) && (Edge.label e =? label) then Ret true
           else find_out fuel' G2 (Edge.next e) map_vid label
       end.

(** The inner loop of [checkSuccRule], along the reverse links. *)
Fixpoint find_in (fuel : nat) (G2 : Graph.t) (eid2 map_vid label : Z)
  : outcome bool :=
  if eid2 =? NULL_EIndex then Ret false
  else match fuel with
       | O => Err OutOfFuel
       | S fuel' =>
           e <- vget (Graph.edge G2) eid2 ;;
           if (Edge.u e =? map_vid) && (Edge.label e =? label) then Ret true
           else find_in fuel' G2 (Edge.prev e) map_vid label
       end.

(** The first loop of [checkPredRule]; [Ret false] is the early
    [return false]. *)
Fixpoint out_edges_ok (fuel : nat) (s : t) (G1 G2 : Graph.t) (m eid : Z)
  : outcome bool :=
  if eid =? NULL_EIndex then Ret true
  else match fuel with
       | O => Err OutOfFuel
       | S fuel' =>
           e <- vget (Graph.edge G1) eid ;;
           map_vid <- vget (core_1 s) (Edge.v e) ;;
           if map_vid =? NULL_VIndex
           then out_edges_ok fuel' s G1 G2 m (Edge.next e)
           else
             h <- vget (Graph.head_edge G2) m ;;
             flag <- find_out (length (Graph.edge G2)) G2 h map_vid
                              (Edge.label e) ;;
             if negb flag then Ret false
             else out_edges_ok fuel' s G1 G2 m (Edge.next e)
       end.

Fixpoint in_edges_ok (fuel : nat) (s : t) (G1 G2 : Graph.t) (m eid : Z)
  : outcome bool :=
  if eid =? NULL_EIndex then Ret true
  else match fuel with
       | O => Err OutOfFuel
       | S fuel' =>
           e <- vget (Graph.edge G1) eid ;;
           map_vid <- vget (core_1 s) (Edge.u e) ;;
           if map_vid =? NULL_VIndex
           then in_edges_ok fuel' s G1 G2 m (Edge.prev e)
           else
             h <- vget (Graph.rev_head_edge G2) m ;;
             flag <- find_in (length (Graph.edge G2)) G2 h map_vid
                             (Edge.label e) ;;
             if negb flag then Ret false
             else in_edges_ok fuel' s G1 G2 m (Edge.prev e)
       end.

(** The second loop of both rules: every mapped neighbour [v2] of [m]
    must come from a neighbour of [n]; [nbrs1] is looked up afresh on
    every iteration, as [G1.pred[n]] is in the source. *)
Fixpoint mapped_back (s : t) (nbrs1 : outcome (list Z)) (new_nbrs : list Z)
  : outcome bool :=
  match new_nbrs with
  | [] => Ret true
  | v2 :: rest =>
      v1 <- vget (core_2 s) v2 ;;
      if v1 =? NULL_VIndex then Err AssertFail
      else
        ns <- nbrs1 ;;
        if negb (set_mem v1 ns) then Ret false
        else mapped_back s nbrs1 rest
  end.

Definition checkPredRule (s : t) (G1 G2 : Graph.t) (n m : Z) : outcome bool :=
  h <- vget (Graph.head_edge G1) n ;;
  ok <- out_edges_ok (length (Graph.edge G1)) s G1 G2 m h ;;
  if negb ok then Ret false
  else
    pm <- vget (Graph.pred G2) m ;;
    let new_pred := set_intersection (M2 s) pm in
    mapped_back s (vget (Graph.pred G1) n) new_pred.

Definition checkSuccRule (s : t) (G1 G2 : Graph.t) (n m : Z) : outcome bool :=
  h <- vget (Graph.rev_head_edge G1) n ;;
  ok <- in_edges_ok (length (Graph.edge G1)) s G1 G2 m h ;;
  if negb ok then Ret false
  else
    sm <- vget (Graph.succ G2) m ;;
    let new_succ := set_intersection (M2 s) sm in
    mapped_back s (vget (Graph.succ G1) n) new_succ.

Definition set_intersection_size (a b : list Z) : Z :=
  Z.of_nat (length (filter (fun k => set_mem k b) a)).

Definition checkInRule (s : t) (G1 G2 : Graph.t) (n m : Z) : outcome bool :=
  s1 <- vget (Graph.succ G1) n ;;
  let card_succ_1 := set_intersection_size (in_1 s) s1 in
  s2 <- vget (Graph.succ G2) m ;;
  let card_succ_2 := set_intersection_size (in_2 s) s2 in
  if negb (subisomorphism s) && negb (card_succ_1 =? card_succ_2) then Ret false
  else if subisomorphism s && (card_succ_1 >? card_succ_2) then Ret false
  else
    p1 <- vget (Graph.pred G1) n ;;
    let card_pred_1 := set_intersection_size (in_1 s) p1 in
    p2 <- vget (Graph.pred G2) m ;;
    let card_pred_2 := set_intersection_size (in_2 s) p2 in
    if subisomorphism s && negb (card_pred_1 =? card_pred_2) then Ret false
    else if subisomorphism s && (card_pred_1 >? card_pred_2) then Ret false
    else Ret true.

Definition checkOutRule (s : t) (G1 G2 : Graph.t) (n m : Z) : outcome bool :=
  s1 <- vget (Graph.succ G1) n ;;
  let card_succ_1 := set_intersection_size (out_1 s) s1 in
  s2 <- vget (Graph.succ G2) m ;;
  let card_succ_2 := set_intersection_size (out_2 s) s2 in
  if negb (subisomorphism s) && negb (card_succ_1 =? card_succ_2) then Ret false
  else if subisomorphism s && (card_succ_1 >? card_succ_2) then Ret false
  else
    p1 <- vget (Graph.pred G1) n ;;
    let card_pred_1 := set_intersection_size (out_1 s) p1 in
    p2 <- vget (Graph.pred G2) m ;;
    let card_pred_2 := set_intersection_size (out_2 s) p2 in
    if negb (subisomorphism s) && negb (card_pred_1 =? card_pred_2) then Ret false
    else if subisomorphism s && (card_pred_1 >? card_pred_2) then Ret false
    else Ret true.

(** The loop of [genComplementary] from [vid], [k] iterations to go;
    [core[vid]] is read on every iteration. *)
Fixpoint complementary_from (core inn out : list Z) (vid : Z) (k : nat)
  : outcome (list Z) :=
  match k with
  | O => Ret []
  | S k' =>
      x <- vget core vid ;;
      rest <- complementary_from core inn out (vid + 1) k' ;;
      Ret (if (x =? NULL_VIndex) && negb (set_mem vid inn)
              && negb (set_mem vid out)
           then vid :: rest else rest)
  end.

Definition genComplementary (count : Z) (core inn out : list Z)
  : outcome (list Z) :=
  complementary_from core inn out 0 (Z.to_nat count).

Definition checkNewRule (s : t) (G1 G2 : Graph.t) (n m : Z) : outcome bool :=
  _N1 <- genComplementary (Graph.vertex_count G1) (core_1 s) (in_1 s) (out_1 s) ;;
  _N2 <- genComplementary (Graph.vertex_count G2) (core_2 s) (in_2 s) (out_2 s) ;;
  p1 <- vget (Graph.pred G1) n ;;
  let card_pred_1 := set_intersection_size p1 _N1 in
  p2 <- vget (Graph.pred G2) m ;;
  let card_pred_2 := set_intersection_size p2 _N2 in
  if negb (subisomorphism s) && negb (card_pred_1 =? card_pred_2) then Ret false
  else if subisomorphism s && (card_pred_1 >? card_pred_2) then Ret false
  else
    s1 <- vget (Graph.succ G1) n ;;
    let card_succ_1 := set_intersection_size s1 _N1 in
    s2 <- vget (Graph.succ G2) m ;;
    let card_succ_2 := set_intersection_size s2 _N2 in
    if negb (subisomorphism s) && negb (card_succ_1 =? card_succ_2) then Ret false
    else if subisomorphism s && (card_succ_1 >? card_succ_2) then Ret false
    else Ret true.

(** [a && b] on outcomes: [b] is run only when [a] returned [true]. *)
Definition andb_then (a b : outcome bool) : outcome bool :=
  x <- a ;; if x then b else Ret false.

Definition checkSynRules (s : t) (G1 G2 : Graph.t) (n m : Z) : outcome bool :=
  andb_then (checkPredRule s G1 G2 n m)
    (andb_then (checkSuccRule s G1 G2 n m)
       (andb_then (checkInRule s G1 G2 n m)
          (andb_then (checkOutRule s G1 G2 n m)
             (checkNewRule s G1 G2 n m)))).

Definition checkSemRules (s : t) (G1 G2 : Graph.t) (n m : Z) : outcome bool :=
  l1 <- vget (Graph.vertex G1) n ;;
  l2 <- vget (Graph.vertex G2) m ;;
  if negb (l1 =? l2) then Ret false else Ret true.

End State.

(** ** The search driver *)

(** The body of the [for (auto p: P)] loop is [try_pair]; [rec] is the
    recursive call of [solve]. *)
Definition try_pair (rec : State.t -> outcome bool)
  (G1 G2 : Graph.t) (state : State.t) (p : Z * Z) : outcome bool :=
  let n := fst p in
  let m := snd p in
  ok <- State.andb_then (State.checkSemRules state G1 G2 n m)
                        (State.checkSynRules state G1 G2 n m) ;;
  if ok then
    p1 <- vget (Graph.pred G1) n ;;
    p2 <- vget (Graph.pred G2) m ;;
    s1 <- vget (Graph.succ G1) n ;;
    s2 <- vget (Graph.succ G2) m ;;
    new_state <- State.addNewPair state n m p1 p2 s1 s2 ;;
    rec new_state
  else Ret false.

Fixpoint try_pairs (rec : State.t -> outcome bool)
  (G1 G2 : Graph.t) (state : State.t) (P : list (Z * Z)) : outcome bool :=
  match P with
  | [] => Ret false
  | p :: P' =>
      r <- try_pair rec G1 G2 state p ;;
      if r then Ret true else try_pairs rec G1 G2 state P'
  end.

Fixpoint solve (fuel : nat) (G1 G2 : Graph.t) (state : State.t) : outcome bool :=
  match fuel with
  | O => Err OutOfFuel
  | S fuel' =>
      if Z.of_nat (length (State.M1 state)) =? State.vertex_count state
      then Ret true
      else
        P <- State.genCandiPairSet state ;;
        try_pairs (solve fuel' G1 G2) G1 G2 state P
  end.

(** One frame of recursion per mapped vertex, plus the frame that reports
    success. *)
Definition depth (G1 : Graph.t) : nat := S (Z.to_nat (Graph.vertex_count G1)).

Definition isomorphism (G1 G2 : Graph.t) : outcome bool :=
  if negb (Graph.vertex_count G1 =? Graph.vertex_count G2) then Ret false
  else if negb (Graph.edge_count G1 =? Graph.edge_count G2) then Ret false
  else solve (depth G1) G1 G2 (State.new (Graph.vertex_count G1) false).

Definition subisomorphism (G1 G2 : Graph.t) : outcome bool :=
  if Graph.vertex_count G1 >? Graph.vertex_count G2 then Ret false
  else if Graph.edge_count G1 >? Graph.edge_count G2 then Ret false
  else solve (depth G1) G1 G2 (State.new (Graph.vertex_count G1) true).

(** ** Concrete graphs *)

Definition get {A : Type} (d : A) (c : outcome A) : A :=
  match c with Ret a => a | Err _ => d end.

(** The graphs of the end-to-end scenarios; vertex labels A, B are 0, 1
    and the edge labels L, L1, L2 are 7, 1, 2. *)
Definition G_edge : Graph.t := get Graph.initial (build [V 0; V 1; E 0 1 7]).
Definition G_edge_swapped : Graph.t := get Graph.initial (build [V 1; V 0; E 0 1 7]).
Definition G_path : Graph.t :=
  get Graph.initial (build [V 0; V 0; V 0; E 0 1 7; E 1 2 7]).
Definition G_path_chord : Graph.t :=
  get Graph.initial (build [V 0; V 0; V 0; E 0 1 7; E 1 2 7; E 0 2 7]).
Definition G_edge_L1 : Graph.t := get Graph.initial (build [V 0; V 1; E 0 1 1]).
Definition G_edge_L2 : Graph.t := get Graph.initial (build [V 0; V 1; E 0 1 2]).
Definition G_triangle : Graph.t :=
  get Graph.initial (build [V 0; V 0; V 0; E 0 1 7; E 1 2 7; E 2 0 7]).
Definition G_square : Graph.t :=
  get Graph.initial
      (build [V 0; V 0; V 0; V 0; E 0 1 7; E 1 2 7; E 2 3 7; E 3 0 7]).

(** * Specification vocabulary *)

(** The representation invariant of [std::set]. *)
Definition ordered (s : list Z) : Prop := StronglySorted Z.lt s.


(** [(u, v, l)] is an edge of [G]. *)
Definition has_edge (G : Graph.t) (u v l : Z) : Prop :=
  exists e, In e (Graph.edge G) /\
            Edge.u e = u /\ Edge.v e = v /\ Edge.label e = l.

Definition has_edgeb (G : Graph.t) (u v l : Z) : bool :=
  existsb (fun e => (Edge.u e =? u) && (Edge.v e =? v) && (Edge.label e =? l))
          (Graph.edge G).

(** Some edge leads from [u] to [v]. *)
Definition adjacent (G : Graph.t) (u v : Z) : Prop :=
  exists e, In e (Graph.edge G) /\ Edge.u e = u /\ Edge.v e = v.

(** [u] is a vertex id of [G]. *)
Definition is_vertex (G : Graph.t) (u : Z) : Prop :=
  0 <= u < Graph.vertex_count G.

(** The linked list that starts at edge id [eid] and follows [link]
    visits exactly the edges [l]. *)
Inductive chain (link : Edge.t -> Z) (edges : list Edge.t)
  : Z -> list Edge.t -> Prop :=
| chain_end : chain link edges NULL_EIndex []
| chain_step eid e l :
    vget edges eid = Ret e ->
    chain link edges (link e) l ->
    chain link edges eid (e :: l).

(** Outgoing edges of [u] and incoming edges of [v], newest first. *)
Definition out_list (edges : list Edge.t) (u : Z) : list Edge.t :=
  rev (filter (fun e => Edge.u e =? u) edges).

Definition in_list (edges : list Edge.t) (v : Z) : list Edge.t :=
  rev (filter (fun e => Edge.v e =? v) edges).

(** What [addVertex] and [addEdge] maintain. *)
Record graph_inv (G : Graph.t) : Prop := {
  gi_vcount : Graph.vertex_count G = Z.of_nat (length (Graph.vertex G));
  gi_head : length (Graph.head_edge G) = length (Graph.vertex G);
  gi_rev : length (Graph.rev_head_edge G) = length (Graph.vertex G);
  gi_pred : length (Graph.pred G) = length (Graph.vertex G);
  gi_succ : length (Graph.succ G) = length (Graph.vertex G);
  gi_ecount : Graph.edge_count G = Z.of_nat (length (Graph.edge G));
  gi_range : forall e, In e (Graph.edge G) ->
             is_vertex G (Edge.u e) /\ is_vertex G (Edge.v e);
  gi_pred_spec : forall v ps, vget (Graph.pred G) v = Ret ps ->
                 ordered ps /\ forall u, In u ps <-> adjacent G u v;
  gi_succ_spec : forall u ss, vget (Graph.succ G) u = Ret ss ->
                 ordered ss /\ forall v, In v ss <-> adjacent G u v;
  gi_out_chain : forall u h, vget (Graph.head_edge G) u = Ret h ->
                 chain Edge.next (Graph.edge G) h (out_list (Graph.edge G) u);
  gi_in_chain : forall v h, vget (Graph.rev_head_edge G) v = Ret h ->
                chain Edge.prev (Graph.edge G) h (in_list (Graph.edge G) v)
}.

(** The test of the inner loops of [checkPredRule] and [checkSuccRule]. *)
Definition hit (key : Edge.t -> Z) (map_vid label : Z) (e : Edge.t) : bool :=
  (key e =? map_vid) && (Edge.label e =? label).

(** The first loop of [checkPredRule] and [checkSuccRule] over the list
    of edges that the chain visits. *)
Fixpoint edges_ok (key : Edge.t -> Z) (core : list Z)
  (found : Z -> Z -> outcome bool) (l : list Edge.t) : outcome bool :=
  match l with
  | [] => Ret true
  | e :: l' =>
      map_vid <- vget core (key e) ;;
      if map_vid =? NULL_VIndex then edges_ok key core found l'
      else
        flag <- found map_vid (Edge.label e) ;;
        if negb flag then Ret false else edges_ok key core found l'
  end.

(** The inner search, once the chain of [m] is known. *)
Definition found_in (heads : list Z) (m : Z) (key : Edge.t -> Z)
  (l : list Edge.t) (map_vid label : Z) : outcome bool :=
  _ <- vget heads m ;; Ret (existsb (hit key map_vid label) l).

(** A run that ends: it returns or stops at an error of the program. *)
Definition ends {A : Type} (c : outcome A) : Prop := c <> Err OutOfFuel.

(** ** State invariants *)

Definition unmapped (core : list Z) (u : Z) : Prop :=
  vget core u = Ret NULL_VIndex.

(** [core[u] = x] and [x] is a vertex id, not [NULL_VIndex]. *)
Definition mapped (core : list Z) (u x : Z) : Prop :=
  vget core u = Ret x /\ x <> NULL_VIndex.

(** The part of the invariants that does not mention the graphs: the
    sets are ordered, [M1] and [M2] are the mapped vertices, the two core
    arrays are inverse to each other, and the frontier sets hold unmapped
    vertices only. *)
Record base_inv (s : State.t) : Prop := {
  bi_len1 : Z.of_nat (length (State.core_1 s)) = State.vertex_count s;
  bi_ord_M1 : ordered (State.M1 s);
  bi_ord_M2 : ordered (State.M2 s);
  bi_ord_in1 : ordered (State.in_1 s);
  bi_ord_in2 : ordered (State.in_2 s);
  bi_ord_out1 : ordered (State.out_1 s);
  bi_ord_out2 : ordered (State.out_2 s);
  bi_M1 : forall n, In n (State.M1 s) <-> exists m, mapped (State.core_1 s) n m;
  bi_M2 : forall m, In m (State.M2 s) <-> exists n, mapped (State.core_2 s) m n;
  bi_bij : forall n m,
           mapped (State.core_1 s) n m <-> mapped (State.core_2 s) m n;
  bi_in1 : forall u, In u (State.in_1 s) -> unmapped (State.core_1 s) u;
  bi_in2 : forall u, In u (State.in_2 s) -> unmapped (State.core_2 s) u;
  bi_out1 : forall u, In u (State.out_1 s) -> unmapped (State.core_1 s) u;
  bi_out2 : forall u, In u (State.out_2 s) -> unmapped (State.core_2 s) u
}.

(** [u] is an unmapped neighbour, along [adj], of a vertex of [M]. *)
Definition frontier (adj : list (list Z)) (core M : list Z) (u : Z) : Prop :=
  unmapped core u /\
  exists v av, In v M /\ vget adj v = Ret av /\ In u av.

(** The invariants of the data model, for a state of a search of [G1] in
    [G2]: core arrays as long as the vertex counts, the graph-free part
    above, and every frontier set equal to its definition. *)
Record state_inv (G1 G2 : Graph.t) (s : State.t) : Prop := {
  si_base : base_inv s;
  si_count : State.vertex_count s = Graph.vertex_count G1;
  si_len2 : Z.of_nat (length (State.core_2 s)) = Graph.vertex_count G2;
  si_in1 : forall u, In u (State.in_1 s) <->
           frontier (Graph.pred G1) (State.core_1 s) (State.M1 s) u;
  si_in2 : forall u, In u (State.in_2 s) <->
           frontier (Graph.pred G2) (State.core_2 s) (State.M2 s) u;
  si_out1 : forall u, In u (State.out_1 s) <->
            frontier (Graph.succ G1) (State.core_1 s) (State.M1 s) u;
  si_out2 : forall u, In u (State.out_2 s) <->
            frontier (Graph.succ G2) (State.core_2 s) (State.M2 s) u
}.

(** No frontier set meets the mapped set of its side. *)
Definition frontiers_disjoint (s : State.t) : Prop :=
  (forall u, In u (State.in_1 s) -> ~ In u (State.M1 s)) /\
  (forall u, In u (State.out_1 s) -> ~ In u (State.M1 s)) /\
  (forall u, In u (State.in_2 s) -> ~ In u (State.M2 s)) /\
  (forall u, In u (State.out_2 s) -> ~ In u (State.M2 s)).

(** The vertex ids [0 .. k-1]. *)
Definition ids (k : nat) : list Z := map Z.of_nat (seq 0 k).

(** The state was built by [State(count, sub)] and extended by
    [addNewPair] only: both core arrays have [vertex_count] entries. *)
Definition sized (s : State.t) : Prop :=
  Z.of_nat (length (State.core_2 s)) = State.vertex_count s.

(** The pair [(n, m)] passes the semantic and the syntactic rules. *)
Definition accepts (G1 G2 : Graph.t) (s : State.t) (n m : Z) : Prop :=
  State.andb_then (State.checkSemRules s G1 G2 n m)
                  (State.checkSynRules s G1 G2 n m) = Ret true.

(** [s'] is the state that [solve] builds from [s] for an accepted
    candidate pair: the argument of a recursive call. *)
Definition extends (G1 G2 : Graph.t) (s s' : State.t) : Prop :=
  exists P n m p1 p2 s1 s2,
    State.genCandiPairSet s = Ret P /\ In (n, m) P /\
    accepts G1 G2 s n m /\
    vget (Graph.pred G1) n = Ret p1 /\ vget (Graph.pred G2) m = Ret p2 /\
    vget (Graph.succ G1) n = Ret s1 /\ vget (Graph.succ G2) m = Ret s2 /\
    State.addNewPair s n m p1 p2 s1 s2 = Ret s'.

(** The states of a search of [G1] in [G2]: the empty state of the entry
    point and every state reached from it by accepted extensions. *)
Inductive reachable (G1 G2 : Graph.t) (sub : bool) : State.t -> Prop :=
| reachable_new :
    reachable G1 G2 sub (State.new (Graph.vertex_count G1) sub)
| reachable_step s s' :
    reachable G1 G2 sub s -> extends G1 G2 s s' -> reachable G1 G2 sub s'.

(** The partial mapping of [s] respects vertex labels, carries every edge
    between two distinct mapped vertices of [G1] to an edge of [G2] with
    the same label, and pulls every pair of adjacent distinct mapped
    vertices of [G2] back to adjacent vertices of [G1]. *)
Record consistent (G1 G2 : Graph.t) (s : State.t) : Prop := {
  co_label : forall n m, mapped (State.core_1 s) n m ->
             exists l, vget (Graph.vertex G1) n = Ret l /\
                       vget (Graph.vertex G2) m = Ret l;
  co_fwd : forall u v l u' v',
           has_edge G1 u v l -> u <> v ->
           mapped (State.core_1 s) u u' -> mapped (State.core_1 s) v v' ->
           has_edge G2 u' v' l;
  co_bwd : forall u' v' u v,
           adjacent G2 u' v' -> u' <> v' ->
           mapped (State.core_2 s) u' u -> mapped (State.core_2 s) v' v ->
           adjacent G1 u v
}.

(** ** Mappings between graphs *)

(** The mapping that a core array stores. *)
Definition lookup (core : list Z) (u : Z) : Z :=
  match vget core u with
  | Ret x => x
  | Err _ => NULL_VIndex
  end.

Definition same_label (G1 G2 : Graph.t) (u v : Z) : Prop :=
  exists l, vget (Graph.vertex G1) u = Ret l /\ vget (Graph.vertex G2) v = Ret l.

(** [phi] is a bijection from the vertices of [G1] to those of [G2], with
    inverse [psi]. *)
Definition vertex_bijection (G1 G2 : Graph.t) (phi psi : Z -> Z) : Prop :=
  (forall u, is_vertex G1 u -> is_vertex G2 (phi u) /\ psi (phi u) = u) /\
  (forall v, is_vertex G2 v -> is_vertex G1 (psi v) /\ phi (psi v) = v).

(** [phi] maps the vertices of [G1] injectively to vertices of [G2]. *)
Definition vertex_injection (G1 G2 : Graph.t) (phi : Z -> Z) : Prop :=
  (forall u, is_vertex G1 u -> is_vertex G2 (phi u)) /\
  (forall u v, is_vertex G1 u -> is_vertex G1 v -> phi u = phi v -> u = v).

Definition label_preserving (G1 G2 : Graph.t) (phi : Z -> Z) : Prop :=
  forall u, is_vertex G1 u -> same_label G1 G2 u (phi u).

(** Every labelled edge of [G1] is carried to an edge of [G2]. *)
Definition edges_preserved (G1 G2 : Graph.t) (phi : Z -> Z) : Prop :=
  forall u v l, has_edge G1 u v l -> has_edge G2 (phi u) (phi v) l.

(** [(u, v, L)] is an edge of [G1] if and only if [(phi u, phi v, L)] is
    an edge of [G2]. *)
Definition edges_correspond (G1 G2 : Graph.t) (phi : Z -> Z) : Prop :=
  forall u v l, is_vertex G1 u -> is_vertex G1 v ->
                (has_edge G1 u v l <-> has_edge G2 (phi u) (phi v) l).

(** The same, for edges between distinct vertices only. *)
Definition edges_preserved_off_loops (G1 G2 : Graph.t) (phi : Z -> Z) : Prop :=
  forall u v l, u <> v -> has_edge G1 u v l -> has_edge G2 (phi u) (phi v) l.

(** Distinct vertices whose images are adjacent in [G2] are adjacent in
    [G1]. *)
Definition adjacency_reflected (G1 G2 : Graph.t) (phi : Z -> Z) : Prop :=
  forall u v, is_vertex G1 u -> is_vertex G1 v -> u <> v ->
              adjacent G2 (phi u) (phi v) -> adjacent G1 u v.

(** Graphs for the soundness counterexamples: one vertex with a loop,
    under two different edge labels; and two parallel edges against two
    edges of different labels. *)
Definition G_loop_1 : Graph.t := get Graph.initial (build [V 0; E 0 0 1]).
Definition G_loop_2 : Graph.t := get Graph.initial (build [V 0; E 0 0 2]).
Definition G_twin : Graph.t :=
  get Graph.initial (build [V 0; V 0; E 0 1 1; E 0 1 1]).
Definition G_mixed : Graph.t :=
  get Graph.initial (build [V 0; V 0; E 0 1 1; E 0 1 2]).

(** ** The look-ahead rules as comparisons of four cardinalities *)

(** The rule as the specification reads it: equalities in exact mode,
    [<=] in subgraph mode. *)
Definition lookahead (sub : bool) (a b c d : Z) : bool :=
  if sub then (a <=? b) && (c <=? d) else (a =? b) && (c =? d).

(** What [checkInRule] computes: its second comparison tests [c = d] in
    subgraph mode and nothing in exact mode. *)
Definition in_lookahead (sub : bool) (a b c d : Z) : bool :=
  if sub then (a <=? b) && (c =? d) else (a =? b).

(** Graphs on which the "in" rule departs from the specification: in
    both, vertex 3 has one predecessor and one successor; in [G_in_2] the
    predecessor of 3 also leads to the successor of 3. *)
Definition G_in_1 : Graph.t :=
  get Graph.initial (build [V 0; V 0; V 0; V 0; E 0 3 7; E 3 1 7; E 2 1 7]).
Definition G_in_2 : Graph.t :=
  get Graph.initial (build [V 0; V 0; V 0; V 0; E 0 3 7; E 3 1 7; E 0 1 7]).

(** The state of [isomorphism G_in_1 G_in_2] after its first accepted
    pair, [(3, 3)]. *)
Definition s_in : State.t :=
  get (State.new 0 false)
      (State.addNewPair (State.new 4 false) 3 3 [0] [0] [1] [1]).

(** A one-vertex query and a two-vertex data graph. *)
Definition G_one : Graph.t := get Graph.initial (build [V 0]).
Definition G_two : Graph.t := get Graph.initial (build [V 0; V 0]).

(** Two labelled vertices, apart and joined by an edge. *)
Definition G_apart : Graph.t := get Graph.initial (build [V 0; V 1]).
Definition G_joined : Graph.t := get Graph.initial (build [V 0; V 1; E 0 1 7]).

(** An edge and an isolated vertex, against the same with one more edge
    out of vertex 0. *)
Definition G_sub_1 : Graph.t :=
  get Graph.initial (build [V 0; V 1; V 2; E 0 1 7]).
Definition G_sub_2 : Graph.t :=
  get Graph.initial (build [V 0; V 1; V 2; E 0 1 7; E 0 2 7]).

(** The state of [subisomorphism G_sub_1 G_sub_2] after its first
    accepted pair, [(2, 2)]. *)
Definition s_sub : State.t :=
  get (State.new 0 true)
      (State.addNewPair (State.new 3 true) 2 2 [] [0] [] []).

(** [phi] preserves and reflects adjacency, loops included. *)
Definition adjacency_preserved (G1 G2 : Graph.t) (phi : Z -> Z) : Prop :=
  forall u v, is_vertex G1 u -> is_vertex G1 v ->
              (adjacent G1 u v <-> adjacent G2 (phi u) (phi v)).

(** Whatever is mapped in [s] is mapped as [phi] says. *)
Definition along (phi : Z -> Z) (s : State.t) : Prop :=
  forall n m, mapped (State.core_1 s) n m -> m = phi n.

(** [G2] has an edge from [phi u] to [phi v] only where [G1] has one from
    [u] to [v]: the image of [G1] is an induced subgraph. *)
Definition induced (G1 G2 : Graph.t) (phi : Z -> Z) : Prop :=
  forall u v, is_vertex G1 u -> is_vertex G1 v ->
              adjacent G2 (phi u) (phi v) -> adjacent G1 u v.

(** ** The driver over a store of [State] objects

    [solve] receives its state by reference and declares one local
    [State] per accepted candidate.  To speak about what a call leaves
    behind, the driver is written once more over a store that holds every
    [State] object alive, addressed by position: the caller's objects come
    first and the locals of the running frames are pushed and popped at
    the end.  The methods that only read the members of [*this] are the
    functions above, applied to the object loaded through the reference;
    [addNewPair] replaces the object it is called on.  The graphs are
    [const] references: no operation of the program writes to them, and
    they are values here. *)
Definition store : Type := list State.t.

Definition load (st : store) (a : nat) : outcome State.t :=
  match nth_error st a with
  | Some s => Ret s
  | None => Err OutOfBounds
  end.

Definition write (st : store) (a : nat) (s : State.t) : outcome store :=
  if (a <? length st)%nat then Ret (upd st a s) else Err OutOfBounds.

(** [new_state.addNewPair(n, m, ...)] on the object at address [a]. *)
Definition addNewPair_at (st : store) (a : nat) (n m : Z)
  (pred1 pred2 succ1 succ2 : list Z) : outcome store :=
  s <- load st a ;;
  s' <- State.addNewPair s n m pred1 pred2 succ1 succ2 ;;
  write st a s'.

(** One iteration of the loop of [solve] on the state at address [a]. *)
Definition try_pair_at (rec : nat -> store -> outcome (bool * store))
  (G1 G2 : Graph.t) (a : nat) (st : store) (p : Z * Z)
  : outcome (bool * store) :=
  let n := fst p in
  let m := snd p in
  state <- load st a ;;
  ok <- State.andb_then (State.checkSemRules state G1 G2 n m)
                        (State.checkSynRules state G1 G2 n m) ;;
  if ok then
    (* State new_state = state; *)
    let new_state := length st in
    let st1 := st ++ [state] in
    p1 <- vget (Graph.pred G1) n ;;
    p2 <- vget (Graph.pred G2) m ;;
    s1 <- vget (Graph.succ G1) n ;;
    s2 <- vget (Graph.succ G2) m ;;
    st2 <- addNewPair_at st1 new_state n m p1 p2 s1 s2 ;;
    r <- rec new_state st2 ;;
    (* new_state goes out of scope *)
    Ret (fst r, removelast (snd r))
  else Ret (false, st).

Fixpoint try_pairs_at (rec : nat -> store -> outcome (bool * store))
  (G1 G2 : Graph.t) (a : nat) (st : store) (P : list (Z * Z))
  : outcome (bool * store) :=
  match P with
  | [] => Ret (false, st)
  | p :: P' =>
      r <- try_pair_at rec G1 G2 a st p ;;
      if fst r then Ret (true, snd r)
      else try_pairs_at rec G1 G2 a (snd r) P'
  end.

Fixpoint solve_at (fuel : nat) (G1 G2 : Graph.t) (a : nat) (st : store)
  : outcome (bool * store) :=
  match fuel with
  | O => Err OutOfFuel
  | S fuel' =>
      state <- load st a ;;
      if Z.of_nat (length (State.M1 state)) =? State.vertex_count state
      then Ret (true, st)
      else
        P <- State.genCandiPairSet state ;;
        try_pairs_at (solve_at fuel' G1 G2) G1 G2 a st P
  end.

(** ** Vocabulary for the construction of graphs *)

(** The labels given by the [V] commands of a command list, in order. *)
Fixpoint labels_of (cs : list cmd) : list Z :=
  match cs with
  | [] => []
  | V l :: cs' => l :: labels_of cs'
  | E _ _ _ :: cs' => labels_of cs'
  end.

(** What the [addEdge] calls of a command list were given, in the order
    of the calls. *)
Fixpoint edges_of (cs : list cmd) : list (Z * Z * Z) :=
  match cs with
  | [] => []
  | V _ :: cs' => edges_of cs'
  | E u v l :: cs' => (u, v, l) :: edges_of cs'
  end.

(** The endpoints and the label of an entry of [edge]. *)
Definition edge_data (e : Edge.t) : Z * Z * Z :=
  (Edge.u e, Edge.v e, Edge.label e).

(** No edge of [G] leads from a vertex to itself. *)
Definition loop_free (G : Graph.t) : Prop :=
  forall e, In e (Graph.edge G) -> Edge.u e <> Edge.v e.

(** * Basic facts *)

(** ** Outcomes *)

Lemma bind_Ret {A B} (c : outcome A) (k : A -> outcome B) (b : B) :
  bind c k = Ret b -> exists a, c = Ret a /\ k a = Ret b.
Proof. destruct c as [a|e]; simpl; intros H; [eauto | discriminate]. Qed.

Lemma bind_Err {A B} (c : outcome A) (k : A -> outcome B) (e : error) :
  bind c k = Err e -> c = Err e \/ exists a, c = Ret a /\ k a = Err e.
Proof. destruct c as [a|e']; simpl; intros H; [eauto | left; congruence]. Qed.

(** Inversion of a chain of binds that returned. *)
Ltac inv_bind H :=
  repeat match type of H with
  | bind ?c _ = Ret _ =>
      let a := fresh "a" in
      let Ha := fresh "Ha" in
      apply bind_Ret in H; destruct H as [a [Ha H]]
  end.

(** ** Vectors *)

Lemma vget_Ret {A} (l : list A) (i : Z) (x : A) :
  vget l i = Ret x <->
  0 <= i < Z.of_nat (length l) /\ nth_error l (Z.to_nat i) = Some x.
Proof.
  unfold vget. destruct (Z.ltb_spec i 0).
  - split; [discriminate | lia].
  - destruct (nth_error l (Z.to_nat i)) eqn:E.
    + split.
      * intros [= ->]. split; [|reflexivity].
        assert (Z.to_nat i < length l)%nat by (apply nth_error_Some; congruence).
        lia.
      * intros [_ [= ->]]. reflexivity.
    + split; [discriminate | intros [_ ?]; discriminate].
Qed.

Lemma vget_range {A} (l : list A) (i : Z) (x : A) :
  vget l i = Ret x -> 0 <= i < Z.of_nat (length l).
Proof. intros H. apply vget_Ret in H. tauto. Qed.

Lemma vget_In {A} (l : list A) (i : Z) (x : A) :
  vget l i = Ret x -> In x l.
Proof. intros H. apply vget_Ret in H. eapply nth_error_In, H. Qed.

Lemma vget_total {A} (l : list A) (i : Z) :
  0 <= i < Z.of_nat (length l) -> exists x, vget l i = Ret x.
Proof.
  intros H. destruct (nth_error l (Z.to_nat i)) eqn:E.
  - exists a. apply vget_Ret. auto.
  - apply nth_error_None in E. lia.
Qed.

Lemma vget_Err {A} (l : list A) (i : Z) (e : error) :
  vget l i = Err e -> e = OutOfBounds /\ ~ 0 <= i < Z.of_nat (length l).
Proof.
  intros H. split.
  - unfold vget in H. destruct (i <? 0); [congruence|].
    destruct (nth_error l (Z.to_nat i)); congruence.
  - intros R. destruct (vget_total l i R) as [x Hx]. congruence.
Qed.

Lemma In_vget {A} (l : list A) (x : A) :
  In x l -> exists i, vget l i = Ret x.
Proof.
  intros H. apply In_nth_error in H. destruct H as [k Hk].
  exists (Z.of_nat k). apply vget_Ret. rewrite Nat2Z.id. split; [|exact Hk].
  assert (k < length l)%nat by (apply nth_error_Some; congruence). lia.
Qed.

Lemma vget_app_l {A} (l l' : list A) (i : Z) (x : A) :
  vget l i = Ret x -> vget (l ++ l') i = Ret x.
Proof.
  intros H. apply vget_Ret in H. destruct H as [R H]. apply vget_Ret.
  rewrite length_app. split; [lia|].
  rewrite nth_error_app1 by lia. exact H.
Qed.

Lemma vget_app_last {A} (l : list A) (x : A) :
  vget (l ++ [x]) (Z.of_nat (length l)) = Ret x.
Proof.
  apply vget_Ret. rewrite length_app, Nat2Z.id. simpl. split; [lia|].
  rewrite nth_error_app2 by lia. rewrite Nat.sub_diag. reflexivity.
Qed.

Lemma vget_app_inv {A} (l : list A) (x y : A) (i : Z) :
  vget (l ++ [x]) i = Ret y ->
  vget l i = Ret y \/ (i = Z.of_nat (length l) /\ y = x).
Proof.
  intros H. apply vget_Ret in H. destruct H as [R H].
  rewrite length_app in R. simpl in R.
  destruct (Z.eq_dec i (Z.of_nat (length l))) as [->|N].
  - right. split; [reflexivity|].
    rewrite Nat2Z.id, nth_error_app2, Nat.sub_diag in H by lia.
    simpl in H. congruence.
  - left. apply vget_Ret. split; [lia|].
    rewrite nth_error_app1 in H by lia. exact H.
Qed.

Lemma length_upd {A} (l : list A) (i : nat) (x : A) :
  length (upd l i x) = length l.
Proof.
  revert i. induction l as [|y l IH]; intros [|i]; simpl; auto.
Qed.

Lemma nth_error_upd_same {A} (l : list A) (i : nat) (x : A) :
  (i < length l)%nat -> nth_error (upd l i x) i = Some x.
Proof.
  revert i. induction l as [|y l IH]; intros [|i]; simpl; intros H;
    try lia; auto. apply IH. lia.
Qed.

Lemma nth_error_upd_other {A} (l : list A) (i j : nat) (x : A) :
  i <> j -> nth_error (upd l i x) j = nth_error l j.
Proof.
  revert i j. induction l as [|y l IH]; intros [|i] [|j]; simpl; intros H;
    auto; try congruence.
Qed.

Lemma vset_Ret {A} (l l' : list A) (i : Z) (x : A) :
  vset l i x = Ret l' ->
  0 <= i < Z.of_nat (length l) /\ length l' = length l /\
  vget l' i = Ret x /\ (forall j, j <> i -> vget l' j = vget l j).
Proof.
  unfold vset. destruct (Z.leb_spec 0 i); simpl; [|discriminate].
  destruct (Z.ltb_spec i (Z.of_nat (length l))); [|discriminate].
  intros [= <-]. split; [lia|]. split; [apply length_upd|]. split.
  - apply vget_Ret. rewrite length_upd. split; [lia|].
    apply nth_error_upd_same. lia.
  - intros j Hj. unfold vget. destruct (j <? 0) eqn:Ej; [reflexivity|].
    rewrite nth_error_upd_other; [reflexivity|].
    apply Z.ltb_ge in Ej. lia.
Qed.

Lemma vset_total {A} (l : list A) (i : Z) (x : A) :
  0 <= i < Z.of_nat (length l) -> exists l', vset l i x = Ret l'.
Proof.
  intros H. unfold vset.
  destruct (Z.leb_spec 0 i); [|lia].
  destruct (Z.ltb_spec i (Z.of_nat (length l))); [|lia].
  simpl. eauto.
Qed.

Lemma vset_Err {A} (l : list A) (i : Z) (x : A) (e : error) :
  vset l i x = Err e -> e = OutOfBounds.
Proof.
  unfold vset. destruct ((0 <=? i) && (i <? Z.of_nat (length l))); congruence.
Qed.

Lemma vget_repeat {A} (x y : A) (k : nat) (i : Z) :
  vget (repeat x k) i = Ret y -> y = x.
Proof. intros H. apply vget_In in H. eapply repeat_spec, H. Qed.

(** ** Ordered sets *)

Lemma set_mem_In (x : Z) (s : list Z) : set_mem x s = true <-> In x s.
Proof.
  unfold set_mem. rewrite existsb_exists. split.
  - intros [y [Hy E]]. apply Z.eqb_eq in E. subst. exact Hy.
  - intros H. exists x. split; [exact H | apply Z.eqb_refl].
Qed.

Lemma set_mem_false (x : Z) (s : list Z) : set_mem x s = false <-> ~ In x s.
Proof.
  rewrite <- set_mem_In. destruct (set_mem x s); split; congruence.
Qed.

Lemma In_set_insert (x y : Z) (s : list Z) :
  In y (set_insert x s) <-> y = x \/ In y s.
Proof.
  induction s as [|z s IH]; simpl.
  - intuition.
  - destruct (Z.ltb_spec x z); [simpl; intuition|].
    destruct (Z.eqb_spec x z); simpl.
    + subst. intuition.
    + rewrite IH. intuition.
Qed.

Lemma ordered_set_insert (x : Z) (s : list Z) :
  ordered s -> ordered (set_insert x s).
Proof.
  unfold ordered. induction s as [|z s IH]; simpl; intros H.
  - repeat constructor.
  - inversion H as [|? ? Hs Hz]; subst.
    destruct (Z.ltb_spec x z).
    + constructor; [exact H|]. constructor; [exact H0|].
      eapply Forall_impl; [|exact Hz]. simpl. intros; lia.
    + destruct (Z.eqb_spec x z); [exact H|].
      constructor; [auto|].
      apply Forall_forall. intros y Hy. apply In_set_insert in Hy.
      destruct Hy as [->|Hy]; [lia|].
      rewrite Forall_forall in Hz. auto.
Qed.

Lemma ordered_NoDup (s : list Z) : ordered s -> NoDup s.
Proof.
  unfold ordered. induction 1 as [|z s Hs IH Hz]; constructor; auto.
  intros Hin. rewrite Forall_forall in Hz. specialize (Hz _ Hin). lia.
Qed.

Lemma ordered_filter (f : Z -> bool) (s : list Z) :
  ordered s -> ordered (filter f s).
Proof.
  unfold ordered. induction 1 as [|z s Hs IH Hz]; simpl; [constructor|].
  destruct (f z); [|exact IH]. constructor; [exact IH|].
  rewrite Forall_forall in *. intros y Hy. apply filter_In in Hy. apply Hz, Hy.
Qed.

Lemma length_set_insert_new (x : Z) (s : list Z) :
  ~ In x s -> length (set_insert x s) = S (length s).
Proof.
  induction s as [|z s IH]; simpl; intros H; [reflexivity|].
  destruct (Z.ltb_spec x z); [reflexivity|].
  destruct (Z.eqb_spec x z); [subst; tauto|].
  simpl. rewrite IH; tauto.
Qed.

Lemma In_erase_if_present (x y : Z) (s : list Z) :
  In y (erase_if_present x s) <-> y <> x /\ In y s.
Proof.
  unfold erase_if_present, set_erase. destruct (set_mem x s) eqn:E.
  - rewrite filter_In. rewrite negb_true_iff, Z.eqb_neq. tauto.
  - apply set_mem_false in E. split; [|tauto].
    intros H. split; [intros ->; tauto | exact H].
Qed.

Lemma ordered_erase_if_present (x : Z) (s : list Z) :
  ordered s -> ordered (erase_if_present x s).
Proof.
  unfold erase_if_present, set_erase. intros H.
  destruct (set_mem x s); [apply ordered_filter|]; exact H.
Qed.

Lemma In_set_intersection (a b : list Z) (x : Z) :
  In x (set_intersection a b) <-> In x a /\ In x b.
Proof. unfold set_intersection. rewrite filter_In, set_mem_In. tauto. Qed.

(** * Graphs *)

Lemma has_edgeb_spec (G : Graph.t) (u v l : Z) :
  has_edgeb G u v l = true <-> has_edge G u v l.
Proof.
  unfold has_edgeb, has_edge. rewrite existsb_exists.
  split; intros [e [He H]]; exists e; (split; [exact He|]).
  - apply andb_prop in H. destruct H as [H H3].
    apply andb_prop in H. destruct H as [H1 H2].
    rewrite Z.eqb_eq in *. auto.
  - destruct H as [-> [-> ->]]. rewrite !Z.eqb_refl. reflexivity.
Qed.

Lemma has_edge_adjacent (G : Graph.t) (u v l : Z) :
  has_edge G u v l -> adjacent G u v.
Proof. intros [e [He [Hu [Hv _]]]]. exists e. auto. Qed.

Lemma chain_app (link : Edge.t -> Z) (edges : list Edge.t) (x : Edge.t) h l :
  chain link edges h l -> chain link (edges ++ [x]) h l.
Proof.
  induction 1 as [|eid e l Hget _ IH]; [constructor|].
  econstructor; [apply vget_app_l; exact Hget | exact IH].
Qed.

Lemma chain_null (link : Edge.t -> Z) (edges : list Edge.t) l :
  chain link edges NULL_EIndex l -> l = [].
Proof.
  inversion 1 as [|eid e l' Hget _]; subst; [reflexivity|].
  apply vget_range in Hget. unfold NULL_EIndex in Hget. lia.
Qed.

Lemma filter_none {A} (f : A -> bool) (l : list A) :
  (forall x, In x l -> f x = false) -> filter f l = [].
Proof.
  induction l as [|y l IH]; simpl; intros H; [reflexivity|].
  rewrite (H y) by auto. apply IH. auto.
Qed.

Section AddVertex.
Variables (G : Graph.t) (l : Z).
Hypothesis HG : graph_inv G.

Local Abbreviation N := (Z.of_nat (length (Graph.vertex G))).

Lemma no_edge_at_fresh_vertex e :
  In e (Graph.edge G) ->
  (Edge.u e =? N) = false /\ (Edge.v e =? N) = false.
Proof.
  intros He. destruct (gi_range G HG e He) as [Hu Hv].
  unfold is_vertex in *. rewrite (gi_vcount G HG) in *.
  split; apply Z.eqb_neq; lia.
Qed.

Lemma not_adjacent_fresh_l u : ~ adjacent G u N.
Proof.
  intros [e [He [_ Hv]]]. destruct (no_edge_at_fresh_vertex e He) as [_ H].
  apply Z.eqb_neq in H. auto.
Qed.

Lemma not_adjacent_fresh_r v : ~ adjacent G N v.
Proof.
  intros [e [He [Hu _]]]. destruct (no_edge_at_fresh_vertex e He) as [H _].
  apply Z.eqb_neq in H. auto.
Qed.

Lemma graph_inv_addVertex : graph_inv (Graph.addVertex G l).
Proof.
  destruct HG as [Hvc Hh Hr Hp Hs Hec Hrng Hps Hss Hoc Hic].
  constructor; unfold Graph.addVertex; simpl;
    rewrite ?length_app; simpl; try lia.
  - intros e He. destruct (Hrng e He). unfold is_vertex in *. simpl. lia.
  - intros v ps Hget. apply vget_app_inv in Hget.
    destruct Hget as [Hget | [-> ->]].
    + apply Hps in Hget. exact Hget.
    + split; [constructor|]. rewrite Hp. intros u.
      split; [intros [] | intros H; exact (not_adjacent_fresh_l u H)].
  - intros u ss Hget. apply vget_app_inv in Hget.
    destruct Hget as [Hget | [-> ->]].
    + apply Hss in Hget. exact Hget.
    + split; [constructor|]. rewrite Hs. intros v.
      split; [intros [] | intros H; exact (not_adjacent_fresh_r v H)].
  - intros u h Hget. apply vget_app_inv in Hget.
    destruct Hget as [Hget | [-> ->]]; [auto|].
    rewrite Hh. unfold out_list. rewrite filter_none.
    + constructor.
    + intros e He. apply no_edge_at_fresh_vertex, He.
  - intros v h Hget. apply vget_app_inv in Hget.
    destruct Hget as [Hget | [-> ->]]; [auto|].
    rewrite Hr. unfold in_list. rewrite filter_none.
    + constructor.
    + intros e He. apply no_edge_at_fresh_vertex, He.
Qed.
End AddVertex.

Lemma adjacent_app_edge (G G' : Graph.t) (x : Edge.t) (u v : Z) :
  Graph.edge G' = Graph.edge G ++ [x] ->
  adjacent G' u v <-> adjacent G u v \/ (Edge.u x = u /\ Edge.v x = v).
Proof.
  intros E. unfold adjacent. rewrite E. split.
  - intros [e [He H]]. apply in_app_or in He. destruct He as [He|[<-|[]]].
    + left. exists e. auto.
    + right. exact H.
  - intros [[e [He H]] | H].
    + exists e. split; [apply in_or_app; auto | exact H].
    + exists x. split; [apply in_or_app; right; left; reflexivity | exact H].
Qed.

Lemma out_list_app (edges : list Edge.t) (x : Edge.t) (u : Z) :
  out_list (edges ++ [x]) u =
  if Edge.u x =? u then x :: out_list edges u else out_list edges u.
Proof.
  unfold out_list. rewrite filter_app. simpl.
  destruct (Edge.u x =? u); [apply rev_unit | rewrite app_nil_r; reflexivity].
Qed.

Lemma in_list_app (edges : list Edge.t) (x : Edge.t) (v : Z) :
  in_list (edges ++ [x]) v =
  if Edge.v x =? v then x :: in_list edges v else in_list edges v.
Proof.
  unfold in_list. rewrite filter_app. simpl.
  destruct (Edge.v x =? v); [apply rev_unit | rewrite app_nil_r; reflexivity].
Qed.

Lemma graph_inv_addEdge (G G' : Graph.t) (u v l : Z) :
  graph_inv G -> Graph.addEdge G u v l = Ret G' -> graph_inv G'.
Proof.
  intros HG H. unfold Graph.addEdge in H. inv_bind H.
  injection H as <-.
  destruct HG as [Hvc Hh Hr Hp Hs Hec Hrng Hps Hss Hoc Hic].
  rename a into hu, a0 into rv, a1 into head', a2 into rev', a3 into pv,
    a4 into pred', a5 into su, a6 into succ'.
  destruct (vset_Ret _ _ _ _ Ha1) as [Ru [Lh [Gh Oh]]].
  destruct (vset_Ret _ _ _ _ Ha2) as [Rv [Lr [Gr Or]]].
  destruct (vset_Ret _ _ _ _ Ha4) as [_ [Lp [Gp Op]]].
  destruct (vset_Ret _ _ _ _ Ha6) as [_ [Ls [Gs Os]]].
  set (x := Edge.mk u v l hu rv).
  set (G' := Graph.mk _ _ _ _ _ _ _ _).
  assert (EE : Graph.edge G' = Graph.edge G ++ [x]) by reflexivity.
  constructor; simpl; try congruence.
  - rewrite length_app. simpl. lia.
  - intros e He. apply in_app_or in He. unfold is_vertex. simpl.
    destruct He as [He|[<-|[]]]; [apply Hrng, He|]. simpl.
    rewrite Hvc. rewrite Hh in Ru. rewrite Hr in Rv. lia.
  - intros v' ps Hget. destruct (Z.eq_dec v' v) as [->|Nv].
    + rewrite Gp in Hget. injection Hget as <-.
      destruct (Hps _ _ Ha3) as [Ho Hi]. split; [apply ordered_set_insert, Ho|].
      intros u'. rewrite In_set_insert, (adjacent_app_edge G G' x) by exact EE.
      rewrite Hi. simpl. intuition congruence.
    + rewrite Op in Hget by exact Nv. destruct (Hps _ _ Hget) as [Ho Hi].
      split; [exact Ho|]. intros u'.
      rewrite (adjacent_app_edge G G' x) by exact EE. rewrite Hi. simpl.
      intuition congruence.
  - intros u' ss Hget. destruct (Z.eq_dec u' u) as [->|Nu].
    + rewrite Gs in Hget. injection Hget as <-.
      destruct (Hss _ _ Ha5) as [Ho Hi]. split; [apply ordered_set_insert, Ho|].
      intros v'. rewrite In_set_insert, (adjacent_app_edge G G' x) by exact EE.
      rewrite Hi. simpl. intuition congruence.
    + rewrite Os in Hget by exact Nu. destruct (Hss _ _ Hget) as [Ho Hi].
      split; [exact Ho|]. intros v'.
      rewrite (adjacent_app_edge G G' x) by exact EE. rewrite Hi. simpl.
      intuition congruence.
  - intros u' h Hget. rewrite out_list_app. simpl.
    destruct (Z.eq_dec u' u) as [->|Nu].
    + rewrite Z.eqb_refl. rewrite Gh in Hget. injection Hget as <-.
      rewrite Hec. econstructor; [apply vget_app_last|]. simpl.
      apply chain_app, Hoc, Ha.
    + rewrite Oh in Hget by exact Nu.
      destruct (Z.eqb_spec u u'); [congruence|]. apply chain_app, Hoc, Hget.
  - intros v' h Hget. rewrite in_list_app. simpl.
    destruct (Z.eq_dec v' v) as [->|Nv].
    + rewrite Z.eqb_refl. rewrite Gr in Hget. injection Hget as <-.
      rewrite Hec. econstructor; [apply vget_app_last|]. simpl.
      apply chain_app, Hic, Ha0.
    + rewrite Or in Hget by exact Nv.
      destruct (Z.eqb_spec v v'); [congruence|]. apply chain_app, Hic, Hget.
Qed.

Lemma graph_inv_initial : graph_inv Graph.initial.
Proof.
  constructor; simpl; try reflexivity; try (intros ? []; fail);
    intros i x H; apply vget_range in H; simpl in H; lia.
Qed.

Lemma constructed_inv (G : Graph.t) : constructed G -> graph_inv G.
Proof.
  induction 1 as [|G l _ IH|G u v l G' _ IH H].
  - apply graph_inv_initial.
  - apply graph_inv_addVertex, IH.
  - eapply graph_inv_addEdge; eauto.
Qed.

Lemma build_from_constructed (cs : list cmd) (G G' : Graph.t) :
  constructed G -> build_from G cs = Ret G' -> constructed G'.
Proof.
  revert G. induction cs as [|[l|u v l] cs IH]; simpl; intros G HG H.
  - congruence.
  - eapply IH; [|exact H]. constructor. exact HG.
  - inv_bind H. eapply IH; [|exact H]. econstructor; eauto.
Qed.

Lemma build_constructed (cs : list cmd) (G : Graph.t) :
  build cs = Ret G -> constructed G.
Proof. apply build_from_constructed. constructor. Qed.

(** ** Walking the edge chains *)

Lemma find_out_chain (G2 : Graph.t) (h : Z) (l : list Edge.t) (mv lab : Z) :
  chain Edge.next (Graph.edge G2) h l ->
  forall fuel, (length l <= fuel)%nat ->
  State.find_out fuel G2 h mv lab = Ret (existsb (hit Edge.v mv lab) l).
Proof.
  induction 1 as [|eid e l Hget _ IH]; intros fuel Hf.
  - destruct fuel; reflexivity.
  - pose proof (vget_range _ _ _ Hget) as R.
    destruct fuel as [|fuel]; [simpl in Hf; lia|]. simpl.
    destruct (Z.eqb_spec eid NULL_EIndex) as [E|_];
      [unfold NULL_EIndex in E; lia|].
    rewrite Hget. simpl. unfold hit at 1.
    destruct ((Edge.v e =? mv) && (Edge.label e =? lab)); [reflexivity|].
    apply IH. simpl in Hf. lia.
Qed.

Lemma find_in_chain (G2 : Graph.t) (h : Z) (l : list Edge.t) (mv lab : Z) :
  chain Edge.prev (Graph.edge G2) h l ->
  forall fuel, (length l <= fuel)%nat ->
  State.find_in fuel G2 h mv lab = Ret (existsb (hit Edge.u mv lab) l).
Proof.
  induction 1 as [|eid e l Hget _ IH]; intros fuel Hf.
  - destruct fuel; reflexivity.
  - pose proof (vget_range _ _ _ Hget) as R.
    destruct fuel as [|fuel]; [simpl in Hf; lia|]. simpl.
    destruct (Z.eqb_spec eid NULL_EIndex) as [E|_];
      [unfold NULL_EIndex in E; lia|].
    rewrite Hget. simpl. unfold hit at 1.
    destruct ((Edge.u e =? mv) && (Edge.label e =? lab)); [reflexivity|].
    apply IH. simpl in Hf. lia.
Qed.

Lemma length_out_list (edges : list Edge.t) (u : Z) :
  (length (out_list edges u) <= length edges)%nat.
Proof. unfold out_list. rewrite length_rev. apply filter_length_le. Qed.

Lemma length_in_list (edges : list Edge.t) (v : Z) :
  (length (in_list edges v) <= length edges)%nat.
Proof. unfold in_list. rewrite length_rev. apply filter_length_le. Qed.

Lemma In_out_list (edges : list Edge.t) (u : Z) (e : Edge.t) :
  In e (out_list edges u) <-> In e edges /\ Edge.u e = u.
Proof.
  unfold out_list. rewrite <- in_rev, filter_In, Z.eqb_eq. tauto.
Qed.

Lemma In_in_list (edges : list Edge.t) (v : Z) (e : Edge.t) :
  In e (in_list edges v) <-> In e edges /\ Edge.v e = v.
Proof.
  unfold in_list. rewrite <- in_rev, filter_In, Z.eqb_eq. tauto.
Qed.

Lemma edges_ok_ext key core (f g : Z -> Z -> outcome bool) l :
  (forall a b, f a b = g a b) ->
  edges_ok key core f l = edges_ok key core g l.
Proof.
  intros H. induction l as [|e l IH]; simpl; [reflexivity|].
  destruct (vget core (key e)) as [mv|]; simpl; [|reflexivity].
  rewrite IH, H. reflexivity.
Qed.

Lemma out_edges_ok_chain (s : State.t) (G1 G2 : Graph.t) (m h : Z) l :
  chain Edge.next (Graph.edge G1) h l ->
  forall fuel, (length l <= fuel)%nat ->
  State.out_edges_ok fuel s G1 G2 m h =
  edges_ok Edge.v (State.core_1 s)
    (fun mv lab => h2 <- vget (Graph.head_edge G2) m ;;
                   State.find_out (length (Graph.edge G2)) G2 h2 mv lab) l.
Proof.
  induction 1 as [|eid e l Hget _ IH]; intros fuel Hf.
  - destruct fuel; reflexivity.
  - pose proof (vget_range _ _ _ Hget) as R.
    destruct fuel as [|fuel]; [simpl in Hf; lia|]. simpl.
    destruct (Z.eqb_spec eid NULL_EIndex) as [E|_];
      [unfold NULL_EIndex in E; lia|].
    rewrite Hget. simpl. rewrite IH by (simpl in Hf; lia).
    destruct (vget (State.core_1 s) (Edge.v e)) as [mv|]; simpl; [|reflexivity].
    destruct (mv =? NULL_VIndex); [reflexivity|].
    destruct (vget (Graph.head_edge G2) m); reflexivity.
Qed.

Lemma in_edges_ok_chain (s : State.t) (G1 G2 : Graph.t) (m h : Z) l :
  chain Edge.prev (Graph.edge G1) h l ->
  forall fuel, (length l <= fuel)%nat ->
  State.in_edges_ok fuel s G1 G2 m h =
  edges_ok Edge.u (State.core_1 s)
    (fun mv lab => h2 <- vget (Graph.rev_head_edge G2) m ;;
                   State.find_in (length (Graph.edge G2)) G2 h2 mv lab) l.
Proof.
  induction 1 as [|eid e l Hget _ IH]; intros fuel Hf.
  - destruct fuel; reflexivity.
  - pose proof (vget_range _ _ _ Hget) as R.
    destruct fuel as [|fuel]; [simpl in Hf; lia|]. simpl.
    destruct (Z.eqb_spec eid NULL_EIndex) as [E|_];
      [unfold NULL_EIndex in E; lia|].
    rewrite Hget. simpl. rewrite IH by (simpl in Hf; lia).
    destruct (vget (State.core_1 s) (Edge.u e)) as [mv|]; simpl; [|reflexivity].
    destruct (mv =? NULL_VIndex); [reflexivity|].
    destruct (vget (Graph.rev_head_edge G2) m); reflexivity.
Qed.

(** On constructed graphs the two rules read as loops over edge lists. *)
Lemma checkPredRule_lists (s : State.t) (G1 G2 : Graph.t) (n m : Z) :
  graph_inv G1 -> graph_inv G2 ->
  State.checkPredRule s G1 G2 n m =
  (_ <- vget (Graph.head_edge G1) n ;;
   ok <- edges_ok Edge.v (State.core_1 s)
           (found_in (Graph.head_edge G2) m Edge.v
                     (out_list (Graph.edge G2) m))
           (out_list (Graph.edge G1) n) ;;
   if negb ok then Ret false
   else
     pm <- vget (Graph.pred G2) m ;;
     State.mapped_back s (vget (Graph.pred G1) n)
                       (set_intersection (State.M2 s) pm)).
Proof.
  intros H1 H2. unfold State.checkPredRule.
  destruct (vget (Graph.head_edge G1) n) as [h|] eqn:Eh; simpl; [|reflexivity].
  rewrite (out_edges_ok_chain s G1 G2 m h (out_list (Graph.edge G1) n))
    by (auto using gi_out_chain, length_out_list).
  erewrite edges_ok_ext; [reflexivity|].
  intros mv lab. unfold found_in.
  destruct (vget (Graph.head_edge G2) m) as [h2|] eqn:Eh2; simpl; [|reflexivity].
  apply find_out_chain; auto using gi_out_chain, length_out_list.
Qed.

Lemma checkSuccRule_lists (s : State.t) (G1 G2 : Graph.t) (n m : Z) :
  graph_inv G1 -> graph_inv G2 ->
  State.checkSuccRule s G1 G2 n m =
  (_ <- vget (Graph.rev_head_edge G1) n ;;
   ok <- edges_ok Edge.u (State.core_1 s)
           (found_in (Graph.rev_head_edge G2) m Edge.u
                     (in_list (Graph.edge G2) m))
           (in_list (Graph.edge G1) n) ;;
   if negb ok then Ret false
   else
     sm <- vget (Graph.succ G2) m ;;
     State.mapped_back s (vget (Graph.succ G1) n)
                       (set_intersection (State.M2 s) sm)).
Proof.
  intros H1 H2. unfold State.checkSuccRule.
  destruct (vget (Graph.rev_head_edge G1) n) as [h|] eqn:Eh; simpl; [|reflexivity].
  rewrite (in_edges_ok_chain s G1 G2 m h (in_list (Graph.edge G1) n))
    by (auto using gi_in_chain, length_in_list).
  erewrite edges_ok_ext; [reflexivity|].
  intros mv lab. unfold found_in.
  destruct (vget (Graph.rev_head_edge G2) m) as [h2|] eqn:Eh2; simpl; [|reflexivity].
  apply find_in_chain; auto using gi_in_chain, length_in_list.
Qed.

(** * States *)

Lemma mapped_not_unmapped (core : list Z) (u x : Z) :
  mapped core u x -> unmapped core u -> False.
Proof. unfold mapped, unmapped. intros [H N] U. congruence. Qed.

Lemma vget_mapped_or_unmapped (core : list Z) (u x : Z) :
  vget core u = Ret x -> unmapped core u \/ mapped core u x.
Proof.
  intros H. unfold unmapped, mapped.
  destruct (Z.eq_dec x NULL_VIndex); [left; congruence | right; auto].
Qed.

Lemma add_unmapped_Ret (core nbrs : list Z) :
  forall front front',
  State.add_unmapped core nbrs front = Ret front' ->
  (forall x, In x front' <-> In x front \/ (In x nbrs /\ unmapped core x)) /\
  (ordered front -> ordered front').
Proof.
  induction nbrs as [|u nbrs IH]; simpl; intros front front' H.
  - injection H as <-. split; [intros x; tauto | auto].
  - apply bind_Ret in H. destruct H as [c [Hc H]].
    apply IH in H. destruct H as [Hin Hord]. split.
    + intros x. rewrite Hin. unfold unmapped.
      destruct (Z.eqb_spec c NULL_VIndex) as [->|N].
      * rewrite In_set_insert. intuition (subst; auto).
      * intuition (subst; try congruence; auto).
    + intros Ho. apply Hord.
      destruct (c =? NULL_VIndex); [apply ordered_set_insert|]; exact Ho.
Qed.

Lemma add_unmapped_total (core nbrs front : list Z) :
  (forall u, In u nbrs -> 0 <= u < Z.of_nat (length core)) ->
  exists front', State.add_unmapped core nbrs front = Ret front'.
Proof.
  revert front. induction nbrs as [|u nbrs IH]; simpl; intros front H.
  - eauto.
  - destruct (vget_total core u) as [c Hc]; [auto|]. rewrite Hc. simpl.
    apply IH. auto.
Qed.

Lemma add_unmapped_Err (core nbrs front : list Z) (e : error) :
  State.add_unmapped core nbrs front = Err e -> e = OutOfBounds.
Proof.
  revert front. induction nbrs as [|u nbrs IH]; simpl; intros front H.
  - discriminate.
  - apply bind_Err in H. destruct H as [H|[c [_ H]]].
    + apply vget_Err in H. tauto.
    + eapply IH, H.
Qed.

(** One side of [addNewPair]: the core array gets [core[n] = m], the
    mapped set gets [n], and the frontier set takes the unmapped vertices
    of [nbrs] and loses [n]. *)
Section Side.
Variables (core core' M front front' nbrs : list Z) (n m : Z).
Hypothesis Hset : vset core n m = Ret core'.
Hypothesis Hm : m <> NULL_VIndex.
Hypothesis HM : forall x, In x M <-> exists y, mapped core x y.
Hypothesis Hadd : State.add_unmapped core' nbrs front = Ret front'.

Lemma side_core_new : mapped core' n m.
Proof. destruct (vset_Ret _ _ _ _ Hset) as [_ [_ [G _]]]. split; auto. Qed.

Lemma side_core_old x : x <> n -> vget core' x = vget core x.
Proof. destruct (vset_Ret _ _ _ _ Hset) as [_ [_ [_ O]]]. apply O. Qed.

Lemma side_unmapped x : unmapped core' x <-> x <> n /\ unmapped core x.
Proof.
  unfold unmapped. split.
  - intros U. assert (x <> n).
    { intros ->. destruct side_core_new. congruence. }
    rewrite side_core_old in U by assumption. auto.
  - intros [N U]. rewrite side_core_old; assumption.
Qed.

Lemma side_mapped_set x :
  In x (set_insert n M) <-> exists y, mapped core' x y.
Proof.
  rewrite In_set_insert, HM. unfold mapped. split.
  - intros [->|[y Hy]]; [exists m; apply side_core_new|].
    destruct (Z.eq_dec x n) as [->|N]; [exists m; apply side_core_new|].
    exists y. rewrite side_core_old; assumption.
  - intros [y Hy]. destruct (Z.eq_dec x n) as [->|N]; [auto|].
    right. exists y. rewrite side_core_old in Hy; assumption.
Qed.

Lemma side_front_unmapped :
  (forall u, In u front -> unmapped core u) ->
  forall u, In u (erase_if_present n front') -> unmapped core' u.
Proof.
  intros Hf u Hu. apply In_erase_if_present in Hu. destruct Hu as [N Hu].
  apply add_unmapped_Ret in Hadd. destruct Hadd as [Hin _].
  apply Hin in Hu. destruct Hu as [Hu|[_ Hu]]; [|exact Hu].
  apply side_unmapped. auto.
Qed.

Lemma side_front_ordered :
  ordered front -> ordered (erase_if_present n front').
Proof.
  intros Ho. apply ordered_erase_if_present.
  apply add_unmapped_Ret in Hadd. tauto.
Qed.

Lemma side_length_new :
  unmapped core n -> length (set_insert n M) = S (length M).
Proof.
  intros U. apply length_set_insert_new. rewrite HM. intros [y Hy].
  eapply mapped_not_unmapped; eauto.
Qed.

(** The frontier set stays exact when [nbrs] are the neighbours of [n]. *)
Lemma side_frontier (adj : list (list Z)) :
  vget adj n = Ret nbrs ->
  (forall u, In u front <-> frontier adj core M u) ->
  forall u, In u (erase_if_present n front') <->
            frontier adj core' (set_insert n M) u.
Proof.
  intros Hadj Hf u. rewrite In_erase_if_present.
  apply add_unmapped_Ret in Hadd. destruct Hadd as [Hin _].
  rewrite Hin, Hf. unfold frontier. rewrite !side_unmapped. split.
  - intros [N [[U [v [av [Hv [Hav Hu]]]]] | [Hu [_ U]]]].
    + split; [auto|]. exists v, av. rewrite In_set_insert. auto.
    + split; [auto|]. exists n, nbrs. rewrite In_set_insert. auto.
  - intros [[N U] [v [av [Hv [Hav Hu]]]]]. split; [exact N|].
    apply In_set_insert in Hv. destruct Hv as [->|Hv].
    + right. assert (av = nbrs) by congruence. subst. auto.
    + left. split; [exact U|]. exists v, av. auto.
Qed.
End Side.

Lemma addNewPair_Ret (s s' : State.t) (n m : Z) (p1 p2 s1 s2 : list Z) :
  State.addNewPair s n m p1 p2 s1 s2 = Ret s' ->
  exists c1 c2 i1 i2 o1 o2,
    vset (State.core_1 s) n m = Ret c1 /\
    vset (State.core_2 s) m n = Ret c2 /\
    State.add_unmapped c1 p1 (State.in_1 s) = Ret i1 /\
    State.add_unmapped c2 p2 (State.in_2 s) = Ret i2 /\
    State.add_unmapped c1 s1 (State.out_1 s) = Ret o1 /\
    State.add_unmapped c2 s2 (State.out_2 s) = Ret o2 /\
    s' = State.mk (State.vertex_count s) (State.subisomorphism s)
           (erase_if_present n i1) (erase_if_present m i2)
           (erase_if_present n o1) (erase_if_present m o2)
           (set_insert n (State.M1 s)) (set_insert m (State.M2 s)) c1 c2.
Proof.
  unfold State.addNewPair. intros H. inv_bind H. injection H as <-.
  do 6 eexists. repeat (split; [eassumption|]). reflexivity.
Qed.

Lemma addNewPair_Err (s : State.t) (n m : Z) (p1 p2 s1 s2 : list Z) e :
  State.addNewPair s n m p1 p2 s1 s2 = Err e -> e = OutOfBounds.
Proof.
  unfold State.addNewPair. intros H.
  repeat (apply bind_Err in H;
          destruct H as [H|[? [_ H]]];
          [first [eapply vset_Err, H | eapply add_unmapped_Err, H]|]).
  discriminate.
Qed.

Lemma bijection_step (c1 c2 c1' c2' : list Z) (n m : Z) :
  vset c1 n m = Ret c1' -> vset c2 m n = Ret c2' ->
  unmapped c1 n -> unmapped c2 m ->
  (forall x y, mapped c1 x y <-> mapped c2 y x) ->
  forall x y, mapped c1' x y <-> mapped c2' y x.
Proof.
  intros H1 H2 U1 U2 B x y.
  destruct (vset_Ret _ _ _ _ H1) as [R1 [_ [G1 O1]]].
  destruct (vset_Ret _ _ _ _ H2) as [R2 [_ [G2 O2]]].
  assert (Nn : n <> NULL_VIndex) by (unfold NULL_VIndex; lia).
  assert (Nm : m <> NULL_VIndex) by (unfold NULL_VIndex; lia).
  unfold mapped in *. unfold unmapped in *.
  destruct (Z.eq_dec x n) as [->|Nx]; destruct (Z.eq_dec y m) as [->|Ny].
  - rewrite G1, G2. tauto.
  - rewrite G1, O2 by exact Ny. split.
    + intros [E _]. congruence.
    + intros H. apply B in H. destruct H. congruence.
  - rewrite G2, O1 by exact Nx. split.
    + intros H. apply B in H. destruct H. congruence.
    + intros [E _]. congruence.
  - rewrite O1, O2 by assumption. apply B.
Qed.

(** [addNewPair] keeps the graph-free invariants, whatever the neighbour
    sets it is given, as soon as it runs without fault on an unmapped
    pair. *)
Lemma addNewPair_base (s s' : State.t) (n m : Z) (p1 p2 s1 s2 : list Z) :
  base_inv s ->
  unmapped (State.core_1 s) n -> unmapped (State.core_2 s) m ->
  State.addNewPair s n m p1 p2 s1 s2 = Ret s' ->
  base_inv s' /\
  State.vertex_count s' = State.vertex_count s /\
  State.subisomorphism s' = State.subisomorphism s /\
  length (State.core_2 s') = length (State.core_2 s) /\
  State.M1 s' = set_insert n (State.M1 s) /\
  length (State.M1 s') = S (length (State.M1 s)).
Proof.
  intros B U1 U2 H. apply addNewPair_Ret in H.
  destruct H as (c1 & c2 & i1 & i2 & o1 & o2 & H1 & H2 & Hi1 & Hi2 & Ho1 & Ho2 & ->).
  destruct (vset_Ret _ _ _ _ H1) as [R1 [L1 _]].
  destruct (vset_Ret _ _ _ _ H2) as [R2 [L2 _]].
  assert (Nn : n <> NULL_VIndex) by (unfold NULL_VIndex; lia).
  assert (Nm : m <> NULL_VIndex) by (unfold NULL_VIndex; lia).
  destruct B. simpl.
  assert (S1 : length (set_insert n (State.M1 s)) = S (length (State.M1 s))).
  { eapply side_length_new; eauto. }
  split; [|auto].
  constructor; simpl.
  - congruence.
  - apply ordered_set_insert; assumption.
  - apply ordered_set_insert; assumption.
  - eapply side_front_ordered; eauto.
  - eapply side_front_ordered; eauto.
  - eapply side_front_ordered; eauto.
  - eapply side_front_ordered; eauto.
  - eapply side_mapped_set; eauto.
  - eapply side_mapped_set; eauto.
  - eapply bijection_step; eauto.
  - eapply side_front_unmapped; eauto.
  - eapply side_front_unmapped; eauto.
  - eapply side_front_unmapped; eauto.
  - eapply side_front_unmapped; eauto.
Qed.

Lemma new_base_inv (count : Z) (sub : bool) :
  0 <= count -> base_inv (State.new count sub).
Proof.
  intros H. constructor; simpl; try (constructor; fail); try (intros ? []; fail).
  - rewrite repeat_length. lia.
  - intros n. split; [intros [] | intros [m [G N]]].
    apply vget_repeat in G. contradiction.
  - intros n. split; [intros [] | intros [m [G N]]].
    apply vget_repeat in G. contradiction.
  - intros n m. split; intros [G N]; apply vget_repeat in G; contradiction.
Qed.

Lemma base_inv_disjoint (s : State.t) : base_inv s -> frontiers_disjoint s.
Proof.
  intros B. unfold frontiers_disjoint.
  repeat split; intros u Hu HM.
  - apply (bi_M1 s B) in HM. destruct HM as [x Hx].
    eapply mapped_not_unmapped; [exact Hx|]. apply (bi_in1 s B), Hu.
  - apply (bi_M1 s B) in HM. destruct HM as [x Hx].
    eapply mapped_not_unmapped; [exact Hx|]. apply (bi_out1 s B), Hu.
  - apply (bi_M2 s B) in HM. destruct HM as [x Hx].
    eapply mapped_not_unmapped; [exact Hx|]. apply (bi_in2 s B), Hu.
  - apply (bi_M2 s B) in HM. destruct HM as [x Hx].
    eapply mapped_not_unmapped; [exact Hx|]. apply (bi_out2 s B), Hu.
Qed.

(** Neighbour sets of a constructed graph hold vertex ids. *)
Lemma pred_in_range (G : Graph.t) (v : Z) (ps : list Z) (u : Z) :
  graph_inv G -> vget (Graph.pred G) v = Ret ps -> In u ps -> is_vertex G u.
Proof.
  intros HG Hget Hu. apply (gi_pred_spec G HG) in Hget.
  destruct Hget as [_ Hi]. apply Hi in Hu. destruct Hu as [e [He [<- _]]].
  apply (gi_range G HG), He.
Qed.

Lemma succ_in_range (G : Graph.t) (u : Z) (ss : list Z) (v : Z) :
  graph_inv G -> vget (Graph.succ G) u = Ret ss -> In v ss -> is_vertex G v.
Proof.
  intros HG Hget Hv. apply (gi_succ_spec G HG) in Hget.
  destruct Hget as [_ Hi]. apply Hi in Hv. destruct Hv as [e [He [_ <-]]].
  apply (gi_range G HG), He.
Qed.

Lemma vget_vertex_total {A} (G : Graph.t) (l : list A) (u : Z) :
  graph_inv G -> length l = length (Graph.vertex G) -> is_vertex G u ->
  exists x, vget l u = Ret x.
Proof.
  intros HG L Hu. apply vget_total. unfold is_vertex in Hu.
  rewrite (gi_vcount G HG) in Hu. lia.
Qed.

Lemma vget_is_vertex {A} (G : Graph.t) (l : list A) (u : Z) (x : A) :
  graph_inv G -> length l = length (Graph.vertex G) -> vget l u = Ret x ->
  is_vertex G u.
Proof.
  intros HG L Hu. apply vget_range in Hu. unfold is_vertex.
  rewrite (gi_vcount G HG). lia.
Qed.

(** [addNewPair] on the neighbour sets of [n] and [m] runs without fault
    and re-establishes the invariants of the data model. *)
Lemma addNewPair_state_inv (G1 G2 : Graph.t) (s : State.t) (n m : Z)
      (p1 p2 s1 s2 : list Z) :
  graph_inv G1 -> graph_inv G2 -> state_inv G1 G2 s ->
  unmapped (State.core_1 s) n -> unmapped (State.core_2 s) m ->
  vget (Graph.pred G1) n = Ret p1 -> vget (Graph.pred G2) m = Ret p2 ->
  vget (Graph.succ G1) n = Ret s1 -> vget (Graph.succ G2) m = Ret s2 ->
  exists s', State.addNewPair s n m p1 p2 s1 s2 = Ret s' /\
             state_inv G1 G2 s'.
Proof.
  intros HG1 HG2 HS U1 U2 Hp1 Hp2 Hs1 Hs2.
  pose proof (si_base _ _ _ HS) as B.
  pose proof (vget_range _ _ _ U1) as R1.
  pose proof (vget_range _ _ _ U2) as R2.
  assert (Nn : n <> NULL_VIndex) by (unfold NULL_VIndex; lia).
  assert (Nm : m <> NULL_VIndex) by (unfold NULL_VIndex; lia).
  destruct (vset_total (State.core_1 s) n m R1) as [c1 H1].
  destruct (vset_total (State.core_2 s) m n R2) as [c2 H2].
  destruct (vset_Ret _ _ _ _ H1) as [_ [L1 _]].
  destruct (vset_Ret _ _ _ _ H2) as [_ [L2 _]].
  assert (V1 : forall u, is_vertex G1 u -> 0 <= u < Z.of_nat (length c1)).
  { unfold is_vertex. rewrite L1, (bi_len1 s B), (si_count _ _ _ HS). auto. }
  assert (V2 : forall u, is_vertex G2 u -> 0 <= u < Z.of_nat (length c2)).
  { unfold is_vertex. rewrite L2, (si_len2 _ _ _ HS). auto. }
  destruct (add_unmapped_total c1 p1 (State.in_1 s)) as [i1 Hi1].
  { intros u Hu. eapply V1, pred_in_range; eauto. }
  destruct (add_unmapped_total c2 p2 (State.in_2 s)) as [i2 Hi2].
  { intros u Hu. eapply V2, pred_in_range; eauto. }
  destruct (add_unmapped_total c1 s1 (State.out_1 s)) as [o1 Ho1].
  { intros u Hu. eapply V1, succ_in_range; eauto. }
  destruct (add_unmapped_total c2 s2 (State.out_2 s)) as [o2 Ho2].
  { intros u Hu. eapply V2, succ_in_range; eauto. }
  eexists. split.
  { unfold State.addNewPair. rewrite H1, H2. simpl.
    rewrite Hi1, Hi2, Ho1, Ho2. simpl. reflexivity. }
  assert (HB : base_inv
     (State.mk (State.vertex_count s) (State.subisomorphism s)
           (erase_if_present n i1) (erase_if_present m i2)
           (erase_if_present n o1) (erase_if_present m o2)
           (set_insert n (State.M1 s)) (set_insert m (State.M2 s)) c1 c2)).
  { eapply (addNewPair_base s _ n m p1 p2 s1 s2); eauto.
    unfold State.addNewPair. rewrite H1, H2. simpl.
    rewrite Hi1, Hi2, Ho1, Ho2. simpl. reflexivity. }
  destruct HS as [_ Hc Hl2 Hin1 Hin2 Hout1 Hout2]. destruct B.
  constructor; simpl; auto.
  - congruence.
  - eapply side_frontier; eauto.
  - eapply side_frontier; eauto.
  - eapply side_frontier; eauto.
  - eapply side_frontier; eauto.
Qed.

(** ** Candidate generation *)

Lemma In_ids (k : nat) (x : Z) : In x (ids k) <-> 0 <= x < Z.of_nat k.
Proof.
  unfold ids. rewrite in_map_iff. split.
  - intros [i [<- Hi]]. apply in_seq in Hi. lia.
  - intros H. exists (Z.to_nat x). split; [lia|]. apply in_seq. lia.
Qed.

Lemma NoDup_ids (k : nat) : NoDup (ids k).
Proof.
  unfold ids. apply Finite.Injective_map_NoDup; [|apply seq_NoDup].
  intros a b. lia.
Qed.

Lemma length_ids (k : nat) : length (ids k) = k.
Proof. unfold ids. rewrite length_map, length_seq. reflexivity. Qed.

Lemma fold_max_ge (s : list Z) (a : Z) :
  a <= fold_left Z.max s a /\ forall x, In x s -> x <= fold_left Z.max s a.
Proof.
  revert a. induction s as [|y s IH]; simpl; intros a.
  - split; [lia | intros x []].
  - destruct (IH (Z.max a y)) as [H1 H2]. split; [lia|].
    intros x [<-|Hx]; [lia | auto].
Qed.

Lemma fold_max_In (s : list Z) (a : Z) :
  fold_left Z.max s a = a \/ In (fold_left Z.max s a) s.
Proof.
  revert a. induction s as [|y s IH]; simpl; intros a; [auto|].
  destruct (IH (Z.max a y)) as [H|H]; [|auto].
  rewrite H. destruct (Z.max_spec a y) as [[_ ->]|[_ ->]]; auto.
Qed.

Lemma max_vid_In (s : list Z) :
  s <> [] -> (forall x, In x s -> 0 <= x) -> In (State.max_vid s) s.
Proof.
  intros Hne Hpos. unfold State.max_vid.
  destruct (fold_max_In s (-1)) as [H|H]; [|exact H].
  destruct s as [|y s]; [congruence|].
  destruct (fold_max_ge (y :: s) (-1)) as [_ Hge].
  specialize (Hge y (or_introl eq_refl)). specialize (Hpos y (or_introl eq_refl)).
  lia.
Qed.

Lemma max_vid_ge (s : list Z) (x : Z) : In x s -> x <= State.max_vid s.
Proof. apply fold_max_ge. Qed.

Lemma scan_down_Ret (core : list Z) (k : nat) (r : Z) :
  State.scan_down core k = Ret r ->
  (forall i, r < i < Z.of_nat k -> exists x, mapped core i x) /\
  (r = -1 \/ (0 <= r < Z.of_nat k /\ unmapped core r)).
Proof.
  induction k as [|k IH]; simpl State.scan_down; intros H.
  - injection H as <-. split; [intros; lia | auto].
  - apply bind_Ret in H. destruct H as [x [Hx H]].
    destruct (Z.eqb_spec x NULL_VIndex) as [->|N].
    + injection H as <-. split; [intros; lia|]. right. split; [lia|exact Hx].
    + apply IH in H. destruct H as [Hall Hr]. split.
      * intros i Hi. destruct (Z.eq_dec i (Z.of_nat k)) as [->|Ni].
        -- exists x. split; assumption.
        -- apply Hall. lia.
      * destruct Hr as [->|[R U]]; [auto|]. right. split; [lia|exact U].
Qed.

Lemma scan_down_total (core : list Z) (k : nat) :
  (k <= length core)%nat -> exists r, State.scan_down core k = Ret r.
Proof.
  induction k as [|k IH]; simpl; intros H; [eauto|].
  destruct (vget_total core (Z.of_nat k)) as [x Hx]; [lia|].
  rewrite Hx. simpl. destruct (x =? NULL_VIndex); [eauto|]. apply IH. lia.
Qed.

Lemma unmapped_pairs_Ret (core : list Z) (m : Z) (k : nat) :
  forall vid P,
  State.unmapped_pairs core m vid k = Ret P ->
  forall a b, In (a, b) P <->
              b = m /\ vid <= a < vid + Z.of_nat k /\ unmapped core a.
Proof.
  induction k as [|k IH]; simpl State.unmapped_pairs; intros vid P H a b.
  - injection H as <-. simpl. split; [tauto | lia].
  - apply bind_Ret in H. destruct H as [x [Hx H]].
    apply bind_Ret in H. destruct H as [rest [Hrest H]].
    injection H as <-. specialize (IH _ _ Hrest a b). unfold unmapped in *.
    destruct (Z.eqb_spec x NULL_VIndex) as [->|N]; simpl; rewrite ?IH.
    + split.
      * intros [[= <- <-]|[-> [R U]]]; (split; [reflexivity|]);
          (split; [lia|assumption]).
      * intros [-> [R U]]. destruct (Z.eq_dec a vid) as [->|Na]; [auto|].
        right. split; [reflexivity|]. split; [lia|assumption].
    + split.
      * intros [-> [R U]]. split; [reflexivity|]. split; [lia|assumption].
      * intros [-> [R U]]. split; [reflexivity|]. split; [|assumption].
        destruct (Z.eq_dec a vid) as [->|Na]; [congruence | lia].
Qed.

Lemma unmapped_pairs_total (core : list Z) (m : Z) (k : nat) :
  forall vid, 0 <= vid -> vid + Z.of_nat k <= Z.of_nat (length core) ->
  exists P, State.unmapped_pairs core m vid k = Ret P.
Proof.
  induction k as [|k IH]; simpl; intros vid H0 H; [eauto|].
  destruct (vget_total core vid) as [x Hx]; [lia|]. rewrite Hx. simpl.
  destruct (IH (vid + 1)) as [P HP]; [lia|lia|]. rewrite HP. simpl. eauto.
Qed.

Lemma nonempty_length {A} (l : list A) :
  negb (length l =? 0)%nat = true -> l <> [].
Proof. destruct l; simpl; congruence. Qed.

Lemma unmapped_nonneg (core : list Z) (u : Z) : unmapped core u -> 0 <= u.
Proof. intros H. apply vget_range in H. lia. Qed.

Lemma lookup_mapped (core : list Z) (u x : Z) :
  mapped core u x -> lookup core u = x.
Proof. intros [H _]. unfold lookup. rewrite H. reflexivity. Qed.

Lemma mapped_set_le (c1 c2 M M' : list Z) :
  NoDup M ->
  (forall x, In x M <-> exists y, mapped c1 x y) ->
  (forall y, In y M' <-> exists x, mapped c2 y x) ->
  (forall x y, mapped c1 x y -> mapped c2 y x) ->
  (length M <= length M')%nat.
Proof.
  intros ND HM HM' Hb. rewrite <- (length_map (lookup c1) M).
  apply NoDup_incl_length.
  - apply NoDup_map_NoDup_ForallPairs; [|exact ND].
    intros x y Hx Hy E. apply HM in Hx, Hy.
    destruct Hx as [x' Hx]. destruct Hy as [y' Hy].
    rewrite (lookup_mapped _ _ _ Hx), (lookup_mapped _ _ _ Hy) in E. subst y'.
    apply Hb in Hx, Hy. destruct Hx as [Hx _]. destruct Hy as [Hy _]. congruence.
  - intros y Hy. apply in_map_iff in Hy. destruct Hy as [x [<- Hx]].
    apply HM in Hx. destruct Hx as [x' Hx].
    rewrite (lookup_mapped _ _ _ Hx). apply HM'. exists x. apply Hb, Hx.
Qed.

(** The two mapped sets have the same size. *)
Lemma bi_size (s : State.t) :
  base_inv s -> length (State.M1 s) = length (State.M2 s).
Proof.
  intros B. apply Nat.le_antisymm.
  - apply (mapped_set_le (State.core_1 s) (State.core_2 s));
      [apply ordered_NoDup, (bi_ord_M1 s B) | apply (bi_M1 s B)
      | apply (bi_M2 s B) | intros x y; apply (bi_bij s B)].
  - apply (mapped_set_le (State.core_2 s) (State.core_1 s));
      [apply ordered_NoDup, (bi_ord_M2 s B) | apply (bi_M2 s B)
      | apply (bi_M1 s B) | intros x y; apply (bi_bij s B)].
Qed.

(** With every slot of [core_2] below [vertex_count] mapped, [M1] cannot
    leave a vertex of [G1] unmapped. *)
Lemma full_core_2 (s : State.t) (n : Z) :
  base_inv s -> sized s ->
  unmapped (State.core_1 s) n ->
  (forall i, 0 <= i < State.vertex_count s ->
             exists x, mapped (State.core_2 s) i x) ->
  False.
Proof.
  intros B Hs U Hall.
  set (N := Z.to_nat (State.vertex_count s)).
  assert (HN : Z.of_nat N = State.vertex_count s).
  { subst N. pose proof (bi_len1 s B). lia. }
  assert (L2 : (N <= length (State.M2 s))%nat).
  { rewrite <- (length_ids N). apply NoDup_incl_length; [apply NoDup_ids|].
    intros i Hi. apply In_ids in Hi. apply (bi_M2 s B). apply Hall. lia. }
  assert (L1 : (length (n :: State.M1 s) <= N)%nat).
  { rewrite <- (length_ids N). apply NoDup_incl_length.
    - constructor; [|apply ordered_NoDup, (bi_ord_M1 s B)].
      intros Hin. apply (bi_M1 s B) in Hin. destruct Hin as [x Hx].
      eapply mapped_not_unmapped; eauto.
    - intros i [<-|Hi]; apply In_ids.
      + apply vget_range in U. rewrite (bi_len1 s B) in U. lia.
      + apply (bi_M1 s B) in Hi. destruct Hi as [x [Hx _]].
        apply vget_range in Hx. rewrite (bi_len1 s B) in Hx. lia. }
  simpl in L1. rewrite (bi_size s B) in L1. lia.
Qed.

(** Every candidate pair joins an unmapped vertex of [G1] to an unmapped
    slot of [core_2]. *)
Lemma candidates_fresh (s : State.t) (P : list (Z * Z)) (n m : Z) :
  base_inv s -> sized s ->
  State.genCandiPairSet s = Ret P -> In (n, m) P ->
  unmapped (State.core_1 s) n /\ unmapped (State.core_2 s) m.
Proof.
  intros B Hs H Hin. unfold State.genCandiPairSet in H.
  destruct (negb (length (State.out_1 s) =? 0)%nat &&
            negb (length (State.out_2 s) =? 0)%nat) eqn:E1.
  - apply andb_prop in E1. destruct E1 as [_ E2].
    injection H as <-. apply in_map_iff in Hin.
    destruct Hin as [x [[= <- <-] Hx]]. split; [apply (bi_out1 s B), Hx|].
    apply (bi_out2 s B), max_vid_In; [apply nonempty_length, E2|].
    intros y Hy. eapply unmapped_nonneg, (bi_out2 s B), Hy.
  - destruct (negb (length (State.in_1 s) =? 0)%nat &&
              negb (length (State.in_2 s) =? 0)%nat) eqn:E2.
    + apply andb_prop in E2. destruct E2 as [_ E3].
      injection H as <-. apply in_map_iff in Hin.
      destruct Hin as [x [[= <- <-] Hx]]. split; [apply (bi_in1 s B), Hx|].
      apply (bi_in2 s B), max_vid_In; [apply nonempty_length, E3|].
      intros y Hy. eapply unmapped_nonneg, (bi_in2 s B), Hy.
    + apply bind_Ret in H. destruct H as [r [Hr H]].
      apply (unmapped_pairs_Ret _ _ _ _ _ H) in Hin.
      destruct Hin as [-> [R U]]. split; [exact U|].
      unfold State.last_unmapped in Hr.
      destruct (Z.leb_spec (State.vertex_count s) 0); [lia|].
      apply scan_down_Ret in Hr. destruct Hr as [Hall [->|[_ Hr]]]; [|exact Hr].
      exfalso. apply (full_core_2 s n B Hs U).
      intros i Hi. apply Hall. lia.
Qed.

Lemma genCandiPairSet_total (s : State.t) :
  base_inv s -> sized s -> exists P, State.genCandiPairSet s = Ret P.
Proof.
  intros B Hs. unfold State.genCandiPairSet.
  destruct (_ && _); [eauto|]. destruct (_ && _); [eauto|].
  assert (exists r, State.last_unmapped (State.vertex_count s) (State.core_2 s)
                    = Ret r) as [r Hr].
  { unfold State.last_unmapped. destruct (_ <=? _); [eauto|].
    apply scan_down_total. unfold sized in Hs. lia. }
  rewrite Hr. simpl. apply unmapped_pairs_total; [lia|].
  pose proof (bi_len1 s B). lia.
Qed.

Lemma genCandiPairSet_Err (s : State.t) (e : error) :
  State.genCandiPairSet s = Err e -> e = OutOfBounds.
Proof.
  unfold State.genCandiPairSet.
  destruct (_ && _); [discriminate|]. destruct (_ && _); [discriminate|].
  assert (Hscan : forall core k e, State.scan_down core k = Err e -> e = OutOfBounds).
  { intros core k. induction k as [|k IH]; simpl; intros e0 H; [discriminate|].
    apply bind_Err in H. destruct H as [H|[x [_ H]]].
    - apply vget_Err in H. tauto.
    - destruct (x =? NULL_VIndex); [discriminate | auto]. }
  assert (Hup : forall core m k vid e,
             State.unmapped_pairs core m vid k = Err e -> e = OutOfBounds).
  { intros core m k. induction k as [|k IH]; simpl; intros vid e0 H; [discriminate|].
    apply bind_Err in H. destruct H as [H|[x [_ H]]].
    - apply vget_Err in H. tauto.
    - apply bind_Err in H. destruct H as [H|[x0 [_ H]]]; [eauto | discriminate]. }
  intros H. apply bind_Err in H. destruct H as [H|[r [_ H]]]; [|eauto].
  unfold State.last_unmapped in H. destruct (_ <=? _); [discriminate | eauto].
Qed.

(** ** Runs that end *)

Lemma ends_Ret {A} (a : A) : ends (Ret a).
Proof. discriminate. Qed.

Lemma ends_vget {A} (l : list A) (i : Z) : ends (vget l i).
Proof.
  unfold ends. intros H. apply vget_Err in H. destruct H. discriminate.
Qed.

Lemma ends_bind {A B} (c : outcome A) (k : A -> outcome B) :
  ends c -> (forall a, c = Ret a -> ends (k a)) -> ends (bind c k).
Proof.
  unfold ends. intros Hc Hk. destruct c as [a|e]; simpl.
  - apply Hk. reflexivity.
  - intros [= ->]. apply Hc. reflexivity.
Qed.

Lemma ends_if {A} (b : bool) (c d : outcome A) :
  ends c -> ends d -> ends (if b then c else d).
Proof. destruct b; auto. Qed.

Lemma ends_andb_then (a b : outcome bool) :
  ends a -> ends b -> ends (State.andb_then a b).
Proof.
  intros Ha Hb. unfold State.andb_then. apply ends_bind; [exact Ha|].
  intros x _. apply ends_if; [exact Hb | apply ends_Ret].
Qed.

Lemma andb_then_true (a b : outcome bool) :
  State.andb_then a b = Ret true <-> a = Ret true /\ b = Ret true.
Proof.
  unfold State.andb_then. destruct a as [[|]|e]; simpl; split;
    try tauto; try (intros [? ?]; congruence); try discriminate.
Qed.

Lemma andb_then_total (a b : outcome bool) :
  (exists x, a = Ret x) -> (exists y, b = Ret y) ->
  exists z, State.andb_then a b = Ret z.
Proof.
  intros [x ->] [y ->]. unfold State.andb_then. simpl.
  destruct x; eauto.
Qed.

(** ** The edge rules *)

Lemma ends_mapped_back (s : State.t) (nb : outcome (list Z)) (new : list Z) :
  ends nb -> ends (State.mapped_back s nb new).
Proof.
  intros Hnb. induction new as [|v2 new IH]; simpl; [apply ends_Ret|].
  apply ends_bind; [apply ends_vget|]. intros v1 _.
  destruct (v1 =? NULL_VIndex); [discriminate|].
  apply ends_bind; [exact Hnb|]. intros ns _.
  apply ends_if; [apply ends_Ret | exact IH].
Qed.

Lemma mapped_back_true (s : State.t) (nb : outcome (list Z)) (new : list Z) :
  State.mapped_back s nb new = Ret true ->
  forall v2, In v2 new ->
  exists v1 ns, mapped (State.core_2 s) v2 v1 /\ nb = Ret ns /\ In v1 ns.
Proof.
  induction new as [|x new IH]; simpl; intros H v2 Hin; [contradiction|].
  apply bind_Ret in H. destruct H as [v1 [Hv1 H]].
  destruct (Z.eqb_spec v1 NULL_VIndex) as [|N]; [discriminate|].
  apply bind_Ret in H. destruct H as [ns [Hns H]].
  destruct (set_mem v1 ns) eqn:E; simpl in H; [|discriminate].
  destruct Hin as [<-|Hin]; [|auto].
  exists v1, ns. apply set_mem_In in E. repeat split; assumption.
Qed.

Lemma mapped_back_total (s : State.t) (ns new : list Z) :
  (forall v2, In v2 new -> exists v1, mapped (State.core_2 s) v2 v1) ->
  exists b, State.mapped_back s (Ret ns) new = Ret b.
Proof.
  induction new as [|x new IH]; simpl; intros H; [eauto|].
  destruct (H x (or_introl eq_refl)) as [v1 [Hv1 N]]. rewrite Hv1. simpl.
  destruct (Z.eqb_spec v1 NULL_VIndex); [contradiction|].
  destruct (set_mem v1 ns); simpl; [apply IH; auto | eauto].
Qed.

Lemma mapped_back_complete (s : State.t) (ns new : list Z) :
  (forall v2, In v2 new ->
              exists v1, mapped (State.core_2 s) v2 v1 /\ In v1 ns) ->
  State.mapped_back s (Ret ns) new = Ret true.
Proof.
  induction new as [|x new IH]; simpl; intros H; [reflexivity|].
  destruct (H x (or_introl eq_refl)) as [v1 [[Hv1 N] Hin]]. rewrite Hv1. simpl.
  destruct (Z.eqb_spec v1 NULL_VIndex); [contradiction|].
  apply set_mem_In in Hin. rewrite Hin. simpl. apply IH. auto.
Qed.

Lemma ends_edges_ok key core found l :
  (forall a b, ends (found a b)) -> ends (edges_ok key core found l).
Proof.
  intros Hf. induction l as [|e l IH]; simpl; [apply ends_Ret|].
  apply ends_bind; [apply ends_vget|]. intros mv _.
  apply ends_if; [exact IH|].
  apply ends_bind; [apply Hf|]. intros flag _.
  apply ends_if; [apply ends_Ret | exact IH].
Qed.

Lemma edges_ok_true key core found l :
  edges_ok key core found l = Ret true ->
  forall e mv, In e l -> mapped core (key e) mv ->
               found mv (Edge.label e) = Ret true.
Proof.
  induction l as [|x l IH]; simpl; intros H e mv Hin Hm; [contradiction|].
  apply bind_Ret in H. destruct H as [c [Hc H]].
  destruct Hin as [<-|Hin].
  - destruct Hm as [Hm N]. assert (c = mv) by congruence. subst c.
    destruct (Z.eqb_spec mv NULL_VIndex); [contradiction|].
    apply bind_Ret in H. destruct H as [[|] [Hflag H]]; [exact Hflag|].
    discriminate.
  - destruct (c =? NULL_VIndex); [eapply IH; eauto|].
    apply bind_Ret in H. destruct H as [[|] [Hflag H]]; [|discriminate].
    eapply IH; eauto.
Qed.

Lemma edges_ok_total key core found l :
  (forall e, In e l -> exists x, vget core (key e) = Ret x) ->
  (forall a b, exists r, found a b = Ret r) ->
  exists b, edges_ok key core found l = Ret b.
Proof.
  intros Hc Hf. induction l as [|x l IH]; simpl; [eauto|].
  destruct (Hc x (or_introl eq_refl)) as [c Hx]. rewrite Hx. simpl.
  assert (IH' : exists b, edges_ok key core found l = Ret b)
    by (apply IH; intros; apply Hc; right; assumption).
  destruct (c =? NULL_VIndex); [exact IH'|].
  destruct (Hf c (Edge.label x)) as [r ->]. simpl.
  destruct r; simpl; [exact IH' | eauto].
Qed.

Lemma edges_ok_complete key core found l :
  (forall e, In e l ->
     unmapped core (key e) \/
     exists mv, mapped core (key e) mv /\ found mv (Edge.label e) = Ret true) ->
  edges_ok key core found l = Ret true.
Proof.
  intros H. induction l as [|x l IH]; simpl; [reflexivity|].
  assert (IH' : edges_ok key core found l = Ret true)
    by (apply IH; intros; apply H; right; assumption).
  destruct (H x (or_introl eq_refl)) as [U|[mv [[Hm N] Hf]]].
  - rewrite U. simpl. exact IH'.
  - rewrite Hm. simpl. destruct (Z.eqb_spec mv NULL_VIndex); [contradiction|].
    rewrite Hf. simpl. exact IH'.
Qed.

Lemma found_in_true heads m key l mv lab :
  found_in heads m key l mv lab = Ret true <->
  (exists h, vget heads m = Ret h) /\
  exists e, In e l /\ key e = mv /\ Edge.label e = lab.
Proof.
  unfold found_in. destruct (vget heads m) as [h|]; simpl.
  - split.
    + intros [= H]. split; [eauto|]. apply existsb_exists in H.
      destruct H as [e [He H]]. unfold hit in H. apply andb_prop in H.
      rewrite !Z.eqb_eq in H. exists e. tauto.
    + intros [_ [e [He [H1 H2]]]]. f_equal. apply existsb_exists.
      exists e. split; [exact He|]. unfold hit. rewrite H1, H2, !Z.eqb_refl.
      reflexivity.
  - split; [discriminate | intros [[h H] _]; discriminate].
Qed.

Lemma ends_found_in heads m key l mv lab : ends (found_in heads m key l mv lab).
Proof.
  unfold found_in. apply ends_bind; [apply ends_vget|]. intros; apply ends_Ret.
Qed.

Lemma ends_checkPredRule (s : State.t) (G1 G2 : Graph.t) (n m : Z) :
  graph_inv G1 -> graph_inv G2 -> ends (State.checkPredRule s G1 G2 n m).
Proof.
  intros H1 H2. rewrite checkPredRule_lists by assumption.
  apply ends_bind; [apply ends_vget|]. intros _ _.
  apply ends_bind; [apply ends_edges_ok; intros; apply ends_found_in|].
  intros ok _. apply ends_if; [apply ends_Ret|].
  apply ends_bind; [apply ends_vget|]. intros pm _.
  apply ends_mapped_back, ends_vget.
Qed.

Lemma ends_checkSuccRule (s : State.t) (G1 G2 : Graph.t) (n m : Z) :
  graph_inv G1 -> graph_inv G2 -> ends (State.checkSuccRule s G1 G2 n m).
Proof.
  intros H1 H2. rewrite checkSuccRule_lists by assumption.
  apply ends_bind; [apply ends_vget|]. intros _ _.
  apply ends_bind; [apply ends_edges_ok; intros; apply ends_found_in|].
  intros ok _. apply ends_if; [apply ends_Ret|].
  apply ends_bind; [apply ends_vget|]. intros pm _.
  apply ends_mapped_back, ends_vget.
Qed.

(** What an accepted pair has passed in [checkPredRule]. *)
Lemma checkPredRule_true (s : State.t) (G1 G2 : Graph.t) (n m : Z) :
  graph_inv G1 -> graph_inv G2 ->
  State.checkPredRule s G1 G2 n m = Ret true ->
  (forall v l mv, has_edge G1 n v l -> mapped (State.core_1 s) v mv ->
                  has_edge G2 m mv l) /\
  (forall v2 v1, In v2 (State.M2 s) -> adjacent G2 v2 m ->
                 mapped (State.core_2 s) v2 v1 -> adjacent G1 v1 n).
Proof.
  intros H1 H2 H. rewrite checkPredRule_lists in H by assumption.
  apply bind_Ret in H. destruct H as [h [Hh H]].
  apply bind_Ret in H. destruct H as [ok [Hok H]].
  destruct ok; simpl in H; [|discriminate].
  apply bind_Ret in H. destruct H as [pm [Hpm H]]. split.
  - intros v l mv [e [He [Eu [Ev El]]]] Hm.
    assert (Hin : In e (out_list (Graph.edge G1) n)) by (apply In_out_list; auto).
    pose proof (edges_ok_true _ _ _ _ Hok e mv Hin) as F.
    rewrite Ev in F. specialize (F Hm). apply found_in_true in F.
    destruct F as [_ [e2 [He2 [Hv2 Hl2]]]]. apply In_out_list in He2.
    exists e2. intuition congruence.
  - intros v2 v1 HM Hadj Hm.
    destruct (gi_pred_spec G2 H2 _ _ Hpm) as [_ Hp].
    assert (Hin : In v2 (set_intersection (State.M2 s) pm)).
    { apply In_set_intersection. split; [exact HM | apply Hp, Hadj]. }
    destruct (mapped_back_true _ _ _ H v2 Hin) as [v1' [ns [Hm' [Hns Hv1]]]].
    destruct Hm as [Hm _]. destruct Hm' as [Hm' _].
    assert (v1' = v1) by congruence. subst v1'.
    apply (gi_pred_spec G1 H1 _ _ Hns), Hv1.
Qed.

Lemma checkSuccRule_true (s : State.t) (G1 G2 : Graph.t) (n m : Z) :
  graph_inv G1 -> graph_inv G2 ->
  State.checkSuccRule s G1 G2 n m = Ret true ->
  (forall u l mu, has_edge G1 u n l -> mapped (State.core_1 s) u mu ->
                  has_edge G2 mu m l) /\
  (forall v2 v1, In v2 (State.M2 s) -> adjacent G2 m v2 ->
                 mapped (State.core_2 s) v2 v1 -> adjacent G1 n v1).
Proof.
  intros H1 H2 H. rewrite checkSuccRule_lists in H by assumption.
  apply bind_Ret in H. destruct H as [h [Hh H]].
  apply bind_Ret in H. destruct H as [ok [Hok H]].
  destruct ok; simpl in H; [|discriminate].
  apply bind_Ret in H. destruct H as [sm [Hsm H]]. split.
  - intros u l mu [e [He [Eu [Ev El]]]] Hm.
    assert (Hin : In e (in_list (Graph.edge G1) n)) by (apply In_in_list; auto).
    pose proof (edges_ok_true _ _ _ _ Hok e mu Hin) as F.
    rewrite Eu in F. specialize (F Hm). apply found_in_true in F.
    destruct F as [_ [e2 [He2 [Hu2 Hl2]]]]. apply In_in_list in He2.
    exists e2. intuition congruence.
  - intros v2 v1 HM Hadj Hm.
    destruct (gi_succ_spec G2 H2 _ _ Hsm) as [_ Hp].
    assert (Hin : In v2 (set_intersection (State.M2 s) sm)).
    { apply In_set_intersection. split; [exact HM | apply Hp, Hadj]. }
    destruct (mapped_back_true _ _ _ H v2 Hin) as [v1' [ns [Hm' [Hns Hv1]]]].
    destruct Hm as [Hm _]. destruct Hm' as [Hm' _].
    assert (v1' = v1) by congruence. subst v1'.
    apply (gi_succ_spec G1 H1 _ _ Hns), Hv1.
Qed.

(** ** The look-ahead rules and the rule set *)

Lemma ends_checkInRule (s : State.t) (G1 G2 : Graph.t) (n m : Z) :
  ends (State.checkInRule s G1 G2 n m).
Proof.
  unfold State.checkInRule.
  repeat (first [ apply ends_Ret | apply ends_if
                | apply ends_bind; [apply ends_vget | intros ? _] ]).
Qed.

Lemma ends_checkOutRule (s : State.t) (G1 G2 : Graph.t) (n m : Z) :
  ends (State.checkOutRule s G1 G2 n m).
Proof.
  unfold State.checkOutRule.
  repeat (first [ apply ends_Ret | apply ends_if
                | apply ends_bind; [apply ends_vget | intros ? _] ]).
Qed.

Lemma ends_complementary_from (core inn out : list Z) (k : nat) :
  forall vid, ends (State.complementary_from core inn out vid k).
Proof.
  induction k as [|k IH]; simpl; intros vid; [apply ends_Ret|].
  apply ends_bind; [apply ends_vget | intros ? _].
  apply ends_bind; [apply IH | intros ? _]. apply ends_Ret.
Qed.

Lemma ends_checkNewRule (s : State.t) (G1 G2 : Graph.t) (n m : Z) :
  ends (State.checkNewRule s G1 G2 n m).
Proof.
  unfold State.checkNewRule, State.genComplementary.
  apply ends_bind; [apply ends_complementary_from | intros ? _].
  apply ends_bind; [apply ends_complementary_from | intros ? _].
  repeat (first [ apply ends_Ret | apply ends_if
                | apply ends_bind; [apply ends_vget | intros ? _] ]).
Qed.

Lemma ends_checkSemRules (s : State.t) (G1 G2 : Graph.t) (n m : Z) :
  ends (State.checkSemRules s G1 G2 n m).
Proof.
  unfold State.checkSemRules.
  repeat (first [ apply ends_Ret | apply ends_if
                | apply ends_bind; [apply ends_vget | intros ? _] ]).
Qed.

Lemma ends_checkSynRules (s : State.t) (G1 G2 : Graph.t) (n m : Z) :
  graph_inv G1 -> graph_inv G2 -> ends (State.checkSynRules s G1 G2 n m).
Proof.
  intros H1 H2. unfold State.checkSynRules.
  repeat apply ends_andb_then;
    auto using ends_checkPredRule, ends_checkSuccRule, ends_checkInRule,
               ends_checkOutRule, ends_checkNewRule.
Qed.

Lemma complementary_from_Ret (core inn out : list Z) (k : nat) :
  forall vid r,
  State.complementary_from core inn out vid k = Ret r ->
  0 <= vid ->
  ((0 < k)%nat -> vid + Z.of_nat k <= Z.of_nat (length core)) /\
  forall x, In x r <->
            vid <= x < vid + Z.of_nat k /\ unmapped core x /\
            ~ In x inn /\ ~ In x out.
Proof.
  induction k as [|k IH]; simpl State.complementary_from; intros vid r H Hv.
  - injection H as <-. simpl. split; [lia|]. intros x. split; [tauto|lia].
  - apply bind_Ret in H. destruct H as [c [Hc H]].
    apply bind_Ret in H. destruct H as [rest [Hrest H]].
    injection H as <-. apply IH in Hrest; [|lia].
    destruct Hrest as [Hlen Hin]. pose proof (vget_range _ _ _ Hc) as R.
    split; [destruct k; lia|]. intros x. unfold unmapped in *.
    destruct (Z.eqb_spec c NULL_VIndex) as [->|N]; simpl.
    + destruct (set_mem vid inn) eqn:E1; simpl.
      * apply set_mem_In in E1. rewrite Hin. split.
        -- intros [R' H']. split; [lia|exact H'].
        -- intros [R' [U [N1 N2]]]. split; [|tauto].
           destruct (Z.eq_dec x vid) as [->|]; [contradiction|lia].
      * apply set_mem_false in E1. destruct (set_mem vid out) eqn:E2; simpl.
        -- apply set_mem_In in E2. rewrite Hin. split.
           ++ intros [R' H']. split; [lia|exact H'].
           ++ intros [R' [U [N1 N2]]]. split; [|tauto].
              destruct (Z.eq_dec x vid) as [->|]; [contradiction|lia].
        -- apply set_mem_false in E2. rewrite Hin. split.
           ++ intros [<-|[R' H']]; [|split; [lia|exact H']].
              split; [lia|]. auto.
           ++ intros [R' H']. destruct (Z.eq_dec x vid) as [->|]; [auto|].
              right. split; [lia|exact H'].
    + rewrite Hin. split.
      * intros [R' H']. split; [lia|exact H'].
      * intros [R' [U H']]. split; [|tauto].
        destruct (Z.eq_dec x vid) as [->|]; [congruence|lia].
Qed.

Lemma complementary_from_total (core inn out : list Z) (k : nat) :
  forall vid, 0 <= vid -> vid + Z.of_nat k <= Z.of_nat (length core) ->
  exists r, State.complementary_from core inn out vid k = Ret r.
Proof.
  induction k as [|k IH]; simpl; intros vid H0 H; [eauto|].
  destruct (vget_total core vid) as [x Hx]; [lia|]. rewrite Hx. simpl.
  destruct (IH (vid + 1)) as [r Hr]; [lia|lia|]. rewrite Hr. simpl. eauto.
Qed.

(** [checkNewRule] walks [core_2] over all of [G2]: with a shorter
    [core_2] it cannot return. *)
Lemma checkNewRule_short_core_2 (s : State.t) (G1 G2 : Graph.t) (n m : Z) b :
  Z.of_nat (length (State.core_2 s)) < Graph.vertex_count G2 ->
  State.checkNewRule s G1 G2 n m <> Ret b.
Proof.
  intros Hlt H. unfold State.checkNewRule, State.genComplementary in H.
  apply bind_Ret in H. destruct H as [N1 [_ H]].
  apply bind_Ret in H. destruct H as [N2 [H2 _]].
  apply complementary_from_Ret in H2; [|lia]. lia.
Qed.

Lemma checkSemRules_true (s : State.t) (G1 G2 : Graph.t) (n m : Z) :
  State.checkSemRules s G1 G2 n m = Ret true <->
  exists l, vget (Graph.vertex G1) n = Ret l /\ vget (Graph.vertex G2) m = Ret l.
Proof.
  unfold State.checkSemRules.
  destruct (vget (Graph.vertex G1) n) as [l1|]; simpl.
  - destruct (vget (Graph.vertex G2) m) as [l2|]; simpl.
    + destruct (Z.eqb_spec l1 l2) as [->|N]; simpl.
      * split; [eauto | reflexivity].
      * split; [discriminate | intros [l [[= ->] [= ->]]]; contradiction].
    + split; [discriminate | intros [l [_ ?]]; discriminate].
  - split; [discriminate | intros [l [? _]]; discriminate].
Qed.

(** ** The driver, one level at a time *)

Lemma try_pairs_true rec G1 G2 s P :
  try_pairs rec G1 G2 s P = Ret true ->
  exists p, In p P /\ try_pair rec G1 G2 s p = Ret true.
Proof.
  induction P as [|p P IH]; simpl; intros H; [discriminate|].
  apply bind_Ret in H. destruct H as [r [Hr H]]. destruct r.
  - exists p. auto.
  - destruct (IH H) as [q [Hq Hq']]. exists q. auto.
Qed.

Lemma try_pair_Ret rec G1 G2 s n m b :
  try_pair rec G1 G2 s (n, m) = Ret b ->
  (b = false /\ ~ accepts G1 G2 s n m) \/
  (accepts G1 G2 s n m /\
   exists p1 p2 s1 s2 s',
     vget (Graph.pred G1) n = Ret p1 /\ vget (Graph.pred G2) m = Ret p2 /\
     vget (Graph.succ G1) n = Ret s1 /\ vget (Graph.succ G2) m = Ret s2 /\
     State.addNewPair s n m p1 p2 s1 s2 = Ret s' /\ rec s' = Ret b).
Proof.
  unfold try_pair, accepts. simpl. intros H.
  apply bind_Ret in H. destruct H as [ok [Hok H]]. rewrite Hok.
  destruct ok.
  - right. split; [reflexivity|]. inv_bind H.
    do 5 eexists. repeat (split; [eassumption|]). exact H.
  - left. injection H as <-. split; [reflexivity | discriminate].
Qed.

Lemma try_pair_extends rec G1 G2 s P n m :
  State.genCandiPairSet s = Ret P -> In (n, m) P ->
  try_pair rec G1 G2 s (n, m) = Ret true ->
  exists s', extends G1 G2 s s' /\ rec s' = Ret true.
Proof.
  intros HP Hin H. apply try_pair_Ret in H.
  destruct H as [[? _]|[Hacc (p1 & p2 & s1 & s2 & s' & H1 & H2 & H3 & H4 & H5 & H6)]];
    [discriminate|].
  exists s'. split; [|exact H6]. unfold extends.
  exists P, n, m, p1, p2, s1, s2. auto 10.
Qed.


(** ** Accepted extensions keep the invariants *)

Lemma mapped_vset (core core' : list Z) (n m x y : Z) :
  vset core n m = Ret core' -> mapped core' x y ->
  (x = n /\ y = m) \/ (x <> n /\ mapped core x y).
Proof.
  intros H [G N]. destruct (vset_Ret _ _ _ _ H) as [_ [_ [Gn O]]].
  destruct (Z.eq_dec x n) as [->|Nx].
  - left. split; congruence.
  - right. split; [exact Nx|]. rewrite O in G by exact Nx. split; assumption.
Qed.

Lemma state_inv_sized (G1 G2 : Graph.t) (s : State.t) :
  Graph.vertex_count G1 = Graph.vertex_count G2 ->
  state_inv G1 G2 s -> sized s.
Proof.
  intros E HS. unfold sized.
  rewrite (si_len2 _ _ _ HS), (si_count _ _ _ HS). auto.
Qed.

Lemma extends_state_inv (G1 G2 : Graph.t) (s s' : State.t) :
  graph_inv G1 -> graph_inv G2 ->
  Graph.vertex_count G1 = Graph.vertex_count G2 ->
  state_inv G1 G2 s -> extends G1 G2 s s' -> state_inv G1 G2 s'.
Proof.
  intros H1 H2 E HS (P & n & m & p1 & p2 & s1 & s2 & HP & Hin & _ & Hp1 & Hp2
                     & Hs1 & Hs2 & Hadd).
  destruct (candidates_fresh s P n m) as [U1 U2];
    eauto using si_base, state_inv_sized.
  destruct (addNewPair_state_inv G1 G2 s n m p1 p2 s1 s2) as [s'' [Hadd' HS']];
    auto.
  congruence.
Qed.

Lemma extends_consistent (G1 G2 : Graph.t) (s s' : State.t) :
  graph_inv G1 -> graph_inv G2 ->
  base_inv s -> sized s -> consistent G1 G2 s ->
  extends G1 G2 s s' -> consistent G1 G2 s'.
Proof.
  intros H1 H2 B Hsz HC (P & n & m & p1 & p2 & s1 & s2 & HP & Hin & Hacc & _ & _
                         & _ & _ & Hadd).
  destruct (candidates_fresh s P n m B Hsz HP Hin) as [U1 U2].
  apply addNewPair_Ret in Hadd.
  destruct Hadd as (c1 & c2 & i1 & i2 & o1 & o2 & Hc1 & Hc2 & _ & _ & _ & _ & ->).
  unfold accepts in Hacc. apply andb_then_true in Hacc.
  destruct Hacc as [Hsem Hsyn]. unfold State.checkSynRules in Hsyn.
  apply andb_then_true in Hsyn. destruct Hsyn as [Hpred Hsyn].
  apply andb_then_true in Hsyn. destruct Hsyn as [Hsucc _].
  apply checkSemRules_true in Hsem.
  destruct (checkPredRule_true s G1 G2 n m H1 H2 Hpred) as [Pf Pb].
  destruct (checkSuccRule_true s G1 G2 n m H1 H2 Hsucc) as [Sf Sb].
  destruct HC as [Cl Cf Cb].
  constructor; simpl.
  - intros x y Hm. destruct (mapped_vset _ _ _ _ _ _ Hc1 Hm) as [[-> ->]|[_ Hm']];
      auto.
  - intros u v l u' v' He Nuv Hu Hv.
    destruct (mapped_vset _ _ _ _ _ _ Hc1 Hu) as [[-> ->]|[Nu Hu']];
      destruct (mapped_vset _ _ _ _ _ _ Hc1 Hv) as [[-> ->]|[Nv Hv']].
    + contradiction.
    + eapply Pf; eauto.
    + eapply Sf; eauto.
    + eapply Cf; eauto.
  - intros u' v' u v Ha Nuv Hu Hv.
    destruct (mapped_vset _ _ _ _ _ _ Hc2 Hu) as [[-> ->]|[Nu Hu']];
      destruct (mapped_vset _ _ _ _ _ _ Hc2 Hv) as [[-> ->]|[Nv Hv']].
    + contradiction.
    + eapply Sb; eauto. apply (bi_M2 s B). eauto.
    + eapply Pb; eauto. apply (bi_M2 s B). eauto.
    + eapply Cb; eauto.
Qed.

Lemma new_state_inv (G1 G2 : Graph.t) (sub : bool) :
  graph_inv G1 ->
  Graph.vertex_count G1 = Graph.vertex_count G2 ->
  state_inv G1 G2 (State.new (Graph.vertex_count G1) sub).
Proof.
  intros H1 E. pose proof (gi_vcount G1 H1) as Hv.
  constructor; simpl.
  - apply new_base_inv. lia.
  - reflexivity.
  - rewrite repeat_length. lia.
  - intros u. split; [intros [] | intros [_ (v & av & [] & _)]].
  - intros u. split; [intros [] | intros [_ (v & av & [] & _)]].
  - intros u. split; [intros [] | intros [_ (v & av & [] & _)]].
  - intros u. split; [intros [] | intros [_ (v & av & [] & _)]].
Qed.

Lemma new_consistent (G1 G2 : Graph.t) (count : Z) (sub : bool) :
  consistent G1 G2 (State.new count sub).
Proof.
  constructor; simpl.
  - intros n m [G N]. apply vget_repeat in G. contradiction.
  - intros u v l u' v' _ _ [G N]. apply vget_repeat in G. contradiction.
  - intros u' v' u v _ _ [G N]. apply vget_repeat in G. contradiction.
Qed.

(** ** Soundness of the search *)

(** A search that returns [true] has reached a state that maps every
    vertex of [G1] and satisfies all invariants. *)
Lemma solve_true_final (G1 G2 : Graph.t) :
  graph_inv G1 -> graph_inv G2 ->
  Graph.vertex_count G1 = Graph.vertex_count G2 ->
  forall fuel s,
  state_inv G1 G2 s -> consistent G1 G2 s ->
  solve fuel G1 G2 s = Ret true ->
  exists sf, state_inv G1 G2 sf /\ consistent G1 G2 sf /\
             Z.of_nat (length (State.M1 sf)) = Graph.vertex_count G1.
Proof.
  intros H1 H2 E. induction fuel as [|fuel IH]; simpl; intros s HS HC H;
    [discriminate|].
  destruct (Z.eqb_spec (Z.of_nat (length (State.M1 s))) (State.vertex_count s))
    as [Efull|_].
  - exists s. rewrite <- (si_count _ _ _ HS). auto.
  - apply bind_Ret in H. destruct H as [P [HP H]].
    apply try_pairs_true in H. destruct H as [[n m] [Hin H]].
    destruct (try_pair_extends _ _ _ _ _ _ _ HP Hin H) as [s' [Hext Hrec]].
    apply (IH s'); [| |exact Hrec].
    + eapply extends_state_inv; eauto.
    + eapply extends_consistent; eauto using si_base, state_inv_sized.
Qed.

(** A state whose [M1] has [vertex_count] elements maps every vertex. *)
Lemma full_M1 (s : State.t) :
  base_inv s ->
  Z.of_nat (length (State.M1 s)) = State.vertex_count s ->
  forall u, 0 <= u < State.vertex_count s ->
            exists x, mapped (State.core_1 s) u x.
Proof.
  intros B Hfull u Hu. apply (bi_M1 s B).
  set (N := Z.to_nat (State.vertex_count s)).
  assert (Hincl : incl (ids N) (State.M1 s)).
  { apply NoDup_length_incl.
    - apply ordered_NoDup, (bi_ord_M1 s B).
    - rewrite length_ids. subst N. lia.
    - intros i Hi. apply (bi_M1 s B) in Hi. destruct Hi as [x [Hx _]].
      apply vget_range in Hx. rewrite (bi_len1 s B) in Hx.
      apply In_ids. subst N. lia. }
  apply Hincl, In_ids. subst N. lia.
Qed.

Lemma full_M2 (s : State.t) :
  base_inv s -> sized s ->
  Z.of_nat (length (State.M1 s)) = State.vertex_count s ->
  forall v, 0 <= v < State.vertex_count s ->
            exists x, mapped (State.core_2 s) v x.
Proof.
  intros B Hsz Hfull v Hv. apply (bi_M2 s B).
  set (N := Z.to_nat (State.vertex_count s)).
  assert (Hincl : incl (ids N) (State.M2 s)).
  { apply NoDup_length_incl.
    - apply ordered_NoDup, (bi_ord_M2 s B).
    - rewrite length_ids, <- (bi_size s B). subst N. lia.
    - intros i Hi. apply (bi_M2 s B) in Hi. destruct Hi as [x [Hx _]].
      apply vget_range in Hx. unfold sized in Hsz. rewrite Hsz in Hx.
      apply In_ids. subst N. lia. }
  apply Hincl, In_ids. subst N. lia.
Qed.

(** The mapping stored in a full consistent state. *)
Lemma final_mapping (G1 G2 : Graph.t) (sf : State.t) :
  graph_inv G1 -> graph_inv G2 ->
  Graph.vertex_count G1 = Graph.vertex_count G2 ->
  state_inv G1 G2 sf -> consistent G1 G2 sf ->
  Z.of_nat (length (State.M1 sf)) = Graph.vertex_count G1 ->
  let phi := lookup (State.core_1 sf) in
  let psi := lookup (State.core_2 sf) in
  vertex_bijection G1 G2 phi psi /\
  label_preserving G1 G2 phi /\
  edges_preserved_off_loops G1 G2 phi /\
  adjacency_reflected G1 G2 phi.
Proof.
  intros H1 H2 E HS HC Hfull phi psi.
  pose proof (si_base _ _ _ HS) as B.
  pose proof (state_inv_sized _ _ _ E HS) as Hsz.
  pose proof (si_count _ _ _ HS) as Hc.
  assert (F1 : forall u, is_vertex G1 u -> mapped (State.core_1 sf) u (phi u)).
  { intros u Hu. destruct (full_M1 sf B) with (u := u) as [x Hx];
      [congruence | unfold is_vertex in Hu; lia |].
    subst phi. simpl. rewrite (lookup_mapped _ _ _ Hx). exact Hx. }
  assert (F2 : forall v, is_vertex G2 v -> mapped (State.core_2 sf) v (psi v)).
  { intros v Hv. destruct (full_M2 sf B Hsz) with (v := v) as [x Hx];
      [congruence | unfold is_vertex in Hv; lia |].
    subst psi. simpl. rewrite (lookup_mapped _ _ _ Hx). exact Hx. }
  assert (R1 : forall u x, mapped (State.core_1 sf) u x -> is_vertex G1 u).
  { intros u x [Hx _]. apply vget_range in Hx. unfold is_vertex.
    rewrite (bi_len1 sf B) in Hx. lia. }
  assert (R2 : forall v x, mapped (State.core_2 sf) v x -> is_vertex G2 v).
  { intros v x [Hx _]. apply vget_range in Hx. unfold is_vertex.
    rewrite (si_len2 _ _ _ HS) in Hx. lia. }
  split; [split; intros x Hx; split|split; [|split]].
  - apply (R2 _ x), (bi_bij sf B), F1, Hx.
  - apply lookup_mapped, (bi_bij sf B), F1, Hx.
  - apply (R1 _ x), (bi_bij sf B), F2, Hx.
  - apply lookup_mapped, (bi_bij sf B), F2, Hx.
  - intros u Hu. apply (co_label _ _ _ HC), F1, Hu.
  - intros u v l Nuv He.
    assert (Hu : is_vertex G1 u /\ is_vertex G1 v).
    { destruct He as [e [He [<- [<- _]]]]. apply (gi_range G1 H1), He. }
    eapply (co_fwd _ _ _ HC); eauto; apply F1; tauto.
  - intros u v Hu Hv Nuv Ha.
    eapply (co_bwd _ _ _ HC); [exact Ha| | |].
    + intros Eq. apply Nuv.
      pose proof (proj1 (bi_bij sf B _ _) (F1 u Hu)) as [A _].
      pose proof (proj1 (bi_bij sf B _ _) (F1 v Hv)) as [A' _].
      congruence.
    + apply (bi_bij sf B), F1, Hu.
    + apply (bi_bij sf B), F1, Hv.
Qed.

(** With [core_2] shorter than [G2], no candidate is ever accepted. *)
Lemma not_accepts_short_core_2 (G1 G2 : Graph.t) (s : State.t) (n m : Z) :
  Z.of_nat (length (State.core_2 s)) < Graph.vertex_count G2 ->
  ~ accepts G1 G2 s n m.
Proof.
  intros Hlt Hacc. unfold accepts, State.checkSynRules in Hacc.
  repeat (apply andb_then_true in Hacc; destruct Hacc as [_ Hacc]).
  eapply checkNewRule_short_core_2; eauto.
Qed.

Lemma solve_short_core_2 (G1 G2 : Graph.t) (s : State.t) (fuel : nat) :
  Z.of_nat (length (State.core_2 s)) < Graph.vertex_count G2 ->
  solve fuel G1 G2 s = Ret true ->
  Z.of_nat (length (State.M1 s)) = State.vertex_count s.
Proof.
  intros Hlt H. destruct fuel as [|fuel]; simpl in H; [discriminate|].
  destruct (Z.eqb_spec (Z.of_nat (length (State.M1 s))) (State.vertex_count s))
    as [Efull|_]; [exact Efull|].
  apply bind_Ret in H. destruct H as [P [HP H]].
  apply try_pairs_true in H. destruct H as [[n m] [Hin H]].
  apply try_pair_Ret in H. destruct H as [[? _]|[Hacc _]]; [discriminate|].
  exfalso. eapply not_accepts_short_core_2; eauto.
Qed.

Lemma bijection_injection (G1 G2 : Graph.t) (phi psi : Z -> Z) :
  vertex_bijection G1 G2 phi psi -> vertex_injection G1 G2 phi.
Proof.
  intros [Hf _]. split.
  - intros u Hu. apply Hf, Hu.
  - intros u v Hu Hv E. destruct (Hf u Hu) as [_ <-].
    destruct (Hf v Hv) as [_ <-]. rewrite E. reflexivity.
Qed.

Lemma solve_sound (G1 G2 : Graph.t) (sub : bool) :
  graph_inv G1 -> graph_inv G2 ->
  Graph.vertex_count G1 = Graph.vertex_count G2 ->
  solve (depth G1) G1 G2 (State.new (Graph.vertex_count G1) sub) = Ret true ->
  exists phi psi,
    vertex_bijection G1 G2 phi psi /\ label_preserving G1 G2 phi /\
    edges_preserved_off_loops G1 G2 phi /\ adjacency_reflected G1 G2 phi.
Proof.
  intros H1 H2 E H.
  destruct (solve_true_final G1 G2 H1 H2 E _ _
              (new_state_inv G1 G2 sub H1 E) (new_consistent G1 G2 _ sub) H)
    as [sf [HS [HC Hfull]]].
  exists (lookup (State.core_1 sf)), (lookup (State.core_2 sf)).
  apply final_mapping; assumption.
Qed.

Lemma G_edge_constructed : constructed G_edge.
Proof. apply (build_constructed [V 0; V 1; E 0 1 7]). reflexivity. Qed.

Lemma G_path_constructed : constructed G_path.
Proof.
  apply (build_constructed [V 0; V 0; V 0; E 0 1 7; E 1 2 7]). reflexivity.
Qed.

Lemma G_path_chord_constructed : constructed G_path_chord.
Proof.
  apply (build_constructed [V 0; V 0; V 0; E 0 1 7; E 1 2 7; E 0 2 7]).
  reflexivity.
Qed.

Lemma G_loop_1_constructed : constructed G_loop_1.
Proof. apply (build_constructed [V 0; E 0 0 1]). reflexivity. Qed.

Lemma G_loop_2_constructed : constructed G_loop_2.
Proof. apply (build_constructed [V 0; E 0 0 2]). reflexivity. Qed.

Lemma G_twin_constructed : constructed G_twin.
Proof. apply (build_constructed [V 0; V 0; E 0 1 1; E 0 1 1]). reflexivity. Qed.

Lemma G_mixed_constructed : constructed G_mixed.
Proof. apply (build_constructed [V 0; V 0; E 0 1 1; E 0 1 2]). reflexivity. Qed.

(** * The end-to-end scenarios of the specification

    Scenarios 1, 2, 3 and 5 run as expected.  Scenario 4 expects true and
    the search returns false: the chord of [G_path_chord] joins the
    images of two vertices that are not adjacent in [G_path] (see C5).
    Scenario 6 runs into the short [core_2] (see C4). *)

Example scenario_1 : isomorphism G_edge G_edge = Ret true.
Proof. reflexivity. Qed.

Example scenario_2 : isomorphism G_edge G_edge_swapped = Ret false.
Proof. reflexivity. Qed.

Example scenario_3 : isomorphism G_path G_path_chord = Ret false.
Proof. reflexivity. Qed.

Example scenario_4 : subisomorphism G_path G_path_chord = Ret false.
Proof. reflexivity. Qed.

Example scenario_5 : subisomorphism G_edge_L1 G_edge_L2 = Ret false.
Proof. reflexivity. Qed.

Example scenario_6 : subisomorphism G_triangle G_square = Err OutOfBounds.
Proof. reflexivity. Qed.

Example empty_query :
  isomorphism Graph.initial Graph.initial = Ret true /\
  subisomorphism Graph.initial G_two = Ret true.
Proof. split; reflexivity. Qed.

(** * The claims *)

(** ** C1: soundness *)



(** C1 as stated fails: [isomorphism] accepts two one-vertex graphs whose
    loops carry different labels, and no vertex bijection makes their
    labelled edges correspond. *)
Lemma soundness_fails_on_loops :
  constructed G_loop_1 /\ constructed G_loop_2 /\
  isomorphism G_loop_1 G_loop_2 = Ret true /\
  ~ exists phi psi,
      vertex_bijection G_loop_1 G_loop_2 phi psi /\
      label_preserving G_loop_1 G_loop_2 phi /\
      edges_correspond G_loop_1 G_loop_2 phi.
Proof.
  split; [apply G_loop_1_constructed|]. split; [apply G_loop_2_constructed|].
  split; [vm_compute; reflexivity|].
  intros (phi & psi & [Hf _] & _ & He).
  assert (V0 : is_vertex G_loop_1 0) by (vm_compute; split; congruence).
  destruct (Hf 0 V0) as [[Hlo Hhi] _].
  change (Graph.vertex_count G_loop_2) with 1 in Hhi.
  assert (E0 : phi 0 = 0) by lia.
  assert (H1 : has_edge G_loop_1 0 0 1) by (apply has_edgeb_spec; reflexivity).
  apply (He 0 0 1 V0 V0) in H1. rewrite E0 in H1.
  apply has_edgeb_spec in H1. vm_compute in H1. discriminate.
Qed.

(** The same for [subisomorphism], with an injective map. *)
Lemma soundness_fails_on_loops_sub :
  subisomorphism G_loop_1 G_loop_2 = Ret true /\
  ~ exists phi,
      vertex_injection G_loop_1 G_loop_2 phi /\
      label_preserving G_loop_1 G_loop_2 phi /\
      edges_preserved G_loop_1 G_loop_2 phi.
Proof.
  split; [vm_compute; reflexivity|].
  intros (phi & [Hf _] & _ & He).
  assert (V0 : is_vertex G_loop_1 0) by (vm_compute; split; congruence).
  destruct (Hf 0 V0) as [Hlo Hhi].
  change (Graph.vertex_count G_loop_2) with 1 in Hhi.
  assert (E0 : phi 0 = 0) by lia.
  assert (H1 : has_edge G_loop_1 0 0 1) by (apply has_edgeb_spec; reflexivity).
  apply He in H1. rewrite E0 in H1.
  apply has_edgeb_spec in H1. vm_compute in H1. discriminate.
Qed.


(** ** C7: the invariants are preserved by extension *)

(** C7.  In a state that satisfies the invariants of the data model,
    [addNewPair] on an unmapped pair [(n, m)] and the neighbour sets of
    [n] and [m] returns a state that satisfies them again: the core
    arrays are inverse to each other, [M1] and [M2] are the mapped
    vertices, every frontier set equals its definition and none meets the
    mapped set of its side. *)
Theorem addNewPair_preserves_invariants
        (G1 G2 : Graph.t) (s : State.t) (n m : Z) (p1 p2 s1 s2 : list Z) :
  constructed G1 -> constructed G2 -> state_inv G1 G2 s ->
  unmapped (State.core_1 s) n -> unmapped (State.core_2 s) m ->
  vget (Graph.pred G1) n = Ret p1 -> vget (Graph.pred G2) m = Ret p2 ->
  vget (Graph.succ G1) n = Ret s1 -> vget (Graph.succ G2) m = Ret s2 ->
  exists s', State.addNewPair s n m p1 p2 s1 s2 = Ret s' /\
             state_inv G1 G2 s' /\ frontiers_disjoint s'.
Proof.
  intros C1 C2 HS U1 U2 Hp1 Hp2 Hs1 Hs2.
  destruct (addNewPair_state_inv G1 G2 s n m p1 p2 s1 s2) as [s' [Hadd HS']];
    auto using constructed_inv.
  exists s'. split; [exact Hadd|]. split; [exact HS'|].
  apply base_inv_disjoint, (si_base _ _ _ HS').
Qed.

Lemma addNewPair_preserves_invariants_witness :
  exists s', State.addNewPair (State.new 2 false) 1 1 [0] [0] [] [] = Ret s' /\
             state_inv G_edge G_edge s' /\ frontiers_disjoint s'.
Proof.
  apply (addNewPair_preserves_invariants G_edge G_edge (State.new 2 false) 1 1
           [0] [0] [] [] G_edge_constructed G_edge_constructed).
  - apply (new_state_inv G_edge G_edge false).
    + apply constructed_inv, G_edge_constructed.
    + reflexivity.
  - reflexivity.
  - reflexivity.
  - reflexivity.
  - reflexivity.
  - reflexivity.
  - reflexivity.
Defined.

(** ** Reachable states *)

Lemma M1_bound (s : State.t) :
  base_inv s -> (length (State.M1 s) <= Z.to_nat (State.vertex_count s))%nat.
Proof.
  intros B. rewrite <- (length_ids (Z.to_nat (State.vertex_count s))).
  apply NoDup_incl_length; [apply ordered_NoDup, (bi_ord_M1 s B)|].
  intros i Hi. apply (bi_M1 s B) in Hi. destruct Hi as [x [Hx _]].
  apply vget_range in Hx. rewrite (bi_len1 s B) in Hx. apply In_ids. lia.
Qed.

Lemma extends_good (G1 G2 : Graph.t) (s s' : State.t) :
  base_inv s -> sized s -> extends G1 G2 s s' ->
  base_inv s' /\ sized s' /\
  State.vertex_count s' = State.vertex_count s /\
  State.subisomorphism s' = State.subisomorphism s /\
  length (State.M1 s') = S (length (State.M1 s)).
Proof.
  intros B Hsz (P & n & m & p1 & p2 & s1 & s2 & HP & Hin & _ & _ & _ & _ & _
                & Hadd).
  destruct (candidates_fresh s P n m B Hsz HP Hin) as [U1 U2].
  destruct (addNewPair_base s s' n m p1 p2 s1 s2 B U1 U2 Hadd)
    as (B' & Hvc & Hsub & Hl2 & _ & HM).
  split; [exact B'|]. split; [|auto].
  unfold sized in *. rewrite Hl2, Hvc. exact Hsz.
Qed.

Lemma reachable_good (G1 G2 : Graph.t) (sub : bool) (s : State.t) :
  graph_inv G1 -> reachable G1 G2 sub s ->
  base_inv s /\ sized s /\
  State.vertex_count s = Graph.vertex_count G1 /\
  State.subisomorphism s = sub.
Proof.
  intros H1. induction 1 as [|s s' _ IH Hext].
  - pose proof (gi_vcount G1 H1) as Hv. split; [|split; [|split]].
    + apply new_base_inv. lia.
    + unfold sized. simpl. rewrite repeat_length. lia.
    + reflexivity.
    + reflexivity.
  - destruct IH as (B & Hsz & Hvc & Hsub).
    destruct (extends_good G1 G2 s s' B Hsz Hext) as (B' & Hsz' & Hvc' & Hsub' & _).
    split; [exact B'|]. split; [exact Hsz'|]. split; congruence.
Qed.

(** The state [s_in] is a state of the search of [G_in_1] in [G_in_2]:
    from the empty state the pair [(3, 3)] is offered and accepted. *)
Lemma G_in_1_constructed : constructed G_in_1.
Proof.
  apply (build_constructed [V 0; V 0; V 0; V 0; E 0 3 7; E 3 1 7; E 2 1 7]).
  reflexivity.
Qed.

Lemma G_in_2_constructed : constructed G_in_2.
Proof.
  apply (build_constructed [V 0; V 0; V 0; V 0; E 0 3 7; E 3 1 7; E 0 1 7]).
  reflexivity.
Qed.

Lemma s_in_reachable : reachable G_in_1 G_in_2 false s_in.
Proof.
  apply (reachable_step _ _ _ (State.new 4 false)).
  - apply (reachable_new G_in_1 G_in_2 false).
  - exists [(0, 3); (1, 3); (2, 3); (3, 3)], 3, 3, [0], [0], [1], [1].
    repeat split; try reflexivity. simpl. auto.
Qed.

Lemma s_in_state_inv : state_inv G_in_1 G_in_2 s_in.
Proof.
  pose proof (constructed_inv G_in_1 G_in_1_constructed) as H1.
  pose proof (constructed_inv G_in_2 G_in_2_constructed) as H2.
  apply (extends_state_inv G_in_1 G_in_2 (State.new 4 false) s_in H1 H2).
  - reflexivity.
  - apply (new_state_inv G_in_1 G_in_2 false H1). reflexivity.
  - exists [(0, 3); (1, 3); (2, 3); (3, 3)], 3, 3, [0], [0], [1], [1].
    repeat split; try reflexivity. simpl. auto.
Qed.

(** ** C10: candidate pairs are fresh *)

(** C10.  In every state reached from the empty state by accepted
    extensions, every pair [(n, m)] that [genCandiPairSet] emits has [n]
    unmapped and outside [M1], and [m] unmapped and outside [M2]. *)
Theorem candidates_are_fresh
        (G1 G2 : Graph.t) (sub : bool) (s : State.t) (P : list (Z * Z)) (n m : Z) :
  constructed G1 -> reachable G1 G2 sub s ->
  State.genCandiPairSet s = Ret P -> In (n, m) P ->
  (unmapped (State.core_1 s) n /\ ~ In n (State.M1 s)) /\
  (unmapped (State.core_2 s) m /\ ~ In m (State.M2 s)).
Proof.
  intros C1 Hr HP Hin.
  destruct (reachable_good G1 G2 sub s (constructed_inv G1 C1) Hr)
    as (B & Hsz & _ & _).
  destruct (candidates_fresh s P n m B Hsz HP Hin) as [U1 U2].
  split; (split; [assumption|]).
  - intros HM. apply (bi_M1 s B) in HM. destruct HM as [x Hx].
    eapply mapped_not_unmapped; eauto.
  - intros HM. apply (bi_M2 s B) in HM. destruct HM as [x Hx].
    eapply mapped_not_unmapped; eauto.
Qed.

Lemma candidates_are_fresh_witness :
  (unmapped (State.core_1 s_in) 1 /\ ~ In 1 (State.M1 s_in)) /\
  (unmapped (State.core_2 s_in) 1 /\ ~ In 1 (State.M2 s_in)).
Proof.
  apply (candidates_are_fresh G_in_1 G_in_2 false s_in [(1, 1)] 1 1
           G_in_1_constructed).
  - apply s_in_reachable.
  - reflexivity.
  - simpl. left. reflexivity.
Defined.

(** ** C8: termination *)

Lemma ends_try_pairs rec (G1 G2 : Graph.t) (s : State.t) (P : list (Z * Z)) :
  graph_inv G1 -> graph_inv G2 ->
  State.genCandiPairSet s = Ret P ->
  (forall s', extends G1 G2 s s' -> ends (rec s')) ->
  ends (try_pairs rec G1 G2 s P).
Proof.
  intros H1 H2 HP Hrec.
  assert (H : forall Q, incl Q P -> ends (try_pairs rec G1 G2 s Q)).
  { induction Q as [|[n m] Q IH]; simpl; intros Hincl; [apply ends_Ret|].
    apply ends_bind.
    - unfold try_pair. simpl. apply ends_bind.
      + apply ends_andb_then;
          auto using ends_checkSemRules, ends_checkSynRules.
      + intros [|] Hacc; [|apply ends_Ret].
        apply ends_bind; [apply ends_vget | intros p1 Hp1].
        apply ends_bind; [apply ends_vget | intros p2 Hp2].
        apply ends_bind; [apply ends_vget | intros s1 Hs1].
        apply ends_bind; [apply ends_vget | intros s2 Hs2].
        apply ends_bind.
        * intros Herr. apply addNewPair_Err in Herr. discriminate.
        * intros s' Hadd. apply Hrec. exists P, n, m, p1, p2, s1, s2.
          repeat (split; [first [assumption | apply Hincl; left; reflexivity]|]).
          assumption.
    - intros r _. apply ends_if; [apply ends_Ret|]. apply IH.
      intros q Hq. apply Hincl. right. exact Hq. }
  apply H, incl_refl.
Qed.

Lemma solve_ends (G1 G2 : Graph.t) :
  graph_inv G1 -> graph_inv G2 ->
  forall fuel s,
  base_inv s -> sized s ->
  (Z.to_nat (State.vertex_count s) - length (State.M1 s) < fuel)%nat ->
  ends (solve fuel G1 G2 s).
Proof.
  intros H1 H2. induction fuel as [|fuel IH]; intros s B Hsz Hf; [lia|].
  simpl. pose proof (M1_bound s B) as Hb. pose proof (bi_len1 s B) as Hl.
  destruct (Z.eqb_spec (Z.of_nat (length (State.M1 s))) (State.vertex_count s))
    as [|Nfull]; [apply ends_Ret|].
  apply ends_bind.
  - intros Herr. apply genCandiPairSet_Err in Herr. discriminate.
  - intros P HP. apply ends_try_pairs; auto.
    intros s' Hext.
    destruct (extends_good G1 G2 s s' B Hsz Hext) as (B' & Hsz' & Hvc & _ & HM).
    apply IH; auto. rewrite Hvc, HM. lia.
Qed.



(** Both entry points end on constructed graphs. *)
Lemma entry_points_end (G1 G2 : Graph.t) :
  constructed G1 -> constructed G2 ->
  ends (isomorphism G1 G2) /\ ends (subisomorphism G1 G2).
Proof.
  intros C1 C2.
  pose proof (constructed_inv G1 C1) as H1.
  pose proof (constructed_inv G2 C2) as H2.
  assert (E : forall sub,
             ends (solve (depth G1) G1 G2 (State.new (Graph.vertex_count G1) sub))).
  { intros sub.
    destruct (reachable_good G1 G2 sub _ H1 (reachable_new G1 G2 sub))
      as (B & Hsz & _ & _).
    apply solve_ends; auto. unfold depth. simpl. lia. }
  split.
  - unfold isomorphism.
    apply ends_if; [apply ends_Ret | apply ends_if; [apply ends_Ret | apply E]].
  - unfold subisomorphism.
    apply ends_if; [apply ends_Ret | apply ends_if; [apply ends_Ret | apply E]].
Qed.

(** ** The look-ahead rules, evaluated *)

Lemma gtb_leb (a b : Z) : (a >? b) = negb (a <=? b).
Proof. rewrite Z.gtb_ltb, Z.ltb_antisym. reflexivity. Qed.

Lemma checkInRule_value (s : State.t) (G1 G2 : Graph.t) (n m : Z) s1 s2 p1 p2 :
  vget (Graph.succ G1) n = Ret s1 -> vget (Graph.succ G2) m = Ret s2 ->
  vget (Graph.pred G1) n = Ret p1 -> vget (Graph.pred G2) m = Ret p2 ->
  State.checkInRule s G1 G2 n m =
  Ret (in_lookahead (State.subisomorphism s)
         (State.set_intersection_size (State.in_1 s) s1)
         (State.set_intersection_size (State.in_2 s) s2)
         (State.set_intersection_size (State.in_1 s) p1)
         (State.set_intersection_size (State.in_2 s) p2)).
Proof.
  intros Hs1 Hs2 Hp1 Hp2. unfold State.checkInRule, in_lookahead.
  rewrite Hs1, Hs2, Hp1, Hp2. simpl. rewrite !gtb_leb.
  destruct (State.subisomorphism s); simpl.
  - destruct (_ <=? _); simpl; [|reflexivity].
    destruct (_ =? _) eqn:E; simpl; [|reflexivity].
    apply Z.eqb_eq in E. rewrite E, Z.leb_refl. reflexivity.
  - destruct (_ =? _); reflexivity.
Qed.

Lemma checkOutRule_value (s : State.t) (G1 G2 : Graph.t) (n m : Z) s1 s2 p1 p2 :
  vget (Graph.succ G1) n = Ret s1 -> vget (Graph.succ G2) m = Ret s2 ->
  vget (Graph.pred G1) n = Ret p1 -> vget (Graph.pred G2) m = Ret p2 ->
  State.checkOutRule s G1 G2 n m =
  Ret (lookahead (State.subisomorphism s)
         (State.set_intersection_size (State.out_1 s) s1)
         (State.set_intersection_size (State.out_2 s) s2)
         (State.set_intersection_size (State.out_1 s) p1)
         (State.set_intersection_size (State.out_2 s) p2)).
Proof.
  intros Hs1 Hs2 Hp1 Hp2. unfold State.checkOutRule, lookahead.
  rewrite Hs1, Hs2, Hp1, Hp2. simpl. rewrite !gtb_leb.
  destruct (State.subisomorphism s); simpl.
  - destruct (_ <=? _); simpl; [|reflexivity].
    destruct (_ <=? _); reflexivity.
  - destruct (_ =? _); simpl; [|reflexivity].
    destruct (_ =? _); reflexivity.
Qed.

Lemma checkNewRule_value (s : State.t) (G1 G2 : Graph.t) (n m : Z)
      N1 N2 s1 s2 p1 p2 :
  State.genComplementary (Graph.vertex_count G1) (State.core_1 s)
                         (State.in_1 s) (State.out_1 s) = Ret N1 ->
  State.genComplementary (Graph.vertex_count G2) (State.core_2 s)
                         (State.in_2 s) (State.out_2 s) = Ret N2 ->
  vget (Graph.succ G1) n = Ret s1 -> vget (Graph.succ G2) m = Ret s2 ->
  vget (Graph.pred G1) n = Ret p1 -> vget (Graph.pred G2) m = Ret p2 ->
  State.checkNewRule s G1 G2 n m =
  Ret (lookahead (State.subisomorphism s)
         (State.set_intersection_size p1 N1)
         (State.set_intersection_size p2 N2)
         (State.set_intersection_size s1 N1)
         (State.set_intersection_size s2 N2)).
Proof.
  intros HN1 HN2 Hs1 Hs2 Hp1 Hp2. unfold State.checkNewRule, lookahead.
  rewrite HN1, HN2, Hs1, Hs2, Hp1, Hp2. simpl. rewrite !gtb_leb.
  destruct (State.subisomorphism s); simpl.
  - destruct (_ <=? _); simpl; [|reflexivity].
    destruct (_ <=? _); reflexivity.
  - destruct (_ =? _); simpl; [|reflexivity].
    destruct (_ =? _); reflexivity.
Qed.

(** ** The rules run without fault on states of the data model *)

Lemma vertex_data (G : Graph.t) (u : Z) :
  graph_inv G -> is_vertex G u ->
  exists l h rh p s,
    vget (Graph.vertex G) u = Ret l /\
    vget (Graph.head_edge G) u = Ret h /\
    vget (Graph.rev_head_edge G) u = Ret rh /\
    vget (Graph.pred G) u = Ret p /\
    vget (Graph.succ G) u = Ret s.
Proof.
  intros HG Hu.
  destruct (vget_vertex_total G (Graph.vertex G) u HG eq_refl Hu) as [l Hl].
  destruct (vget_vertex_total G _ u HG (gi_head G HG) Hu) as [h Hh].
  destruct (vget_vertex_total G _ u HG (gi_rev G HG) Hu) as [rh Hrh].
  destruct (vget_vertex_total G _ u HG (gi_pred G HG) Hu) as [p Hp].
  destruct (vget_vertex_total G _ u HG (gi_succ G HG) Hu) as [s Hs].
  exists l, h, rh, p, s. auto.
Qed.

Lemma unmapped_vertex_1 (G1 G2 : Graph.t) (s : State.t) (n : Z) :
  state_inv G1 G2 s -> unmapped (State.core_1 s) n -> is_vertex G1 n.
Proof.
  intros HS U. apply vget_range in U. unfold is_vertex.
  rewrite (bi_len1 s (si_base _ _ _ HS)), (si_count _ _ _ HS) in U. exact U.
Qed.

Lemma unmapped_vertex_2 (G1 G2 : Graph.t) (s : State.t) (m : Z) :
  state_inv G1 G2 s -> unmapped (State.core_2 s) m -> is_vertex G2 m.
Proof.
  intros HS U. apply vget_range in U. unfold is_vertex.
  rewrite (si_len2 _ _ _ HS) in U. exact U.
Qed.

Lemma core_1_total (G1 G2 : Graph.t) (s : State.t) (u : Z) :
  state_inv G1 G2 s -> is_vertex G1 u ->
  exists x, vget (State.core_1 s) u = Ret x.
Proof.
  intros HS Hu. apply vget_total. unfold is_vertex in Hu.
  rewrite (bi_len1 s (si_base _ _ _ HS)), (si_count _ _ _ HS). exact Hu.
Qed.

Lemma core_2_total (G1 G2 : Graph.t) (s : State.t) (v : Z) :
  state_inv G1 G2 s -> is_vertex G2 v ->
  exists x, vget (State.core_2 s) v = Ret x.
Proof.
  intros HS Hv. apply vget_total. unfold is_vertex in Hv.
  rewrite (si_len2 _ _ _ HS). exact Hv.
Qed.

Lemma genComplementary_total_1 (G1 G2 : Graph.t) (s : State.t) :
  graph_inv G1 -> state_inv G1 G2 s ->
  exists N1, State.genComplementary (Graph.vertex_count G1) (State.core_1 s)
               (State.in_1 s) (State.out_1 s) = Ret N1.
Proof.
  intros H1 HS. apply complementary_from_total; [lia|].
  rewrite (bi_len1 s (si_base _ _ _ HS)), (si_count _ _ _ HS).
  pose proof (gi_vcount G1 H1). lia.
Qed.

Lemma genComplementary_total_2 (G1 G2 : Graph.t) (s : State.t) :
  graph_inv G2 -> state_inv G1 G2 s ->
  exists N2, State.genComplementary (Graph.vertex_count G2) (State.core_2 s)
               (State.in_2 s) (State.out_2 s) = Ret N2.
Proof.
  intros H2 HS. apply complementary_from_total; [lia|].
  rewrite (si_len2 _ _ _ HS). pose proof (gi_vcount G2 H2). lia.
Qed.

Section RulesTotal.
Variables (G1 G2 : Graph.t) (s : State.t) (n m : Z).
Hypothesis H1 : graph_inv G1.
Hypothesis H2 : graph_inv G2.
Hypothesis HS : state_inv G1 G2 s.
Hypothesis Vn : is_vertex G1 n.
Hypothesis Vm : is_vertex G2 m.

Lemma checkSemRules_total : exists b, State.checkSemRules s G1 G2 n m = Ret b.
Proof.
  destruct (vertex_data G1 n H1 Vn) as (l1 & _ & _ & _ & _ & Hl1 & _).
  destruct (vertex_data G2 m H2 Vm) as (l2 & _ & _ & _ & _ & Hl2 & _).
  unfold State.checkSemRules. rewrite Hl1, Hl2. simpl.
  destruct (negb _); eauto.
Qed.

Lemma mapped_back_total_M2 (ns a : list Z) :
  exists b, State.mapped_back s (Ret ns) (set_intersection (State.M2 s) a) = Ret b.
Proof.
  apply mapped_back_total. intros v2 Hv2. apply In_set_intersection in Hv2.
  apply (bi_M2 s (si_base _ _ _ HS)), Hv2.
Qed.

Lemma checkPredRule_total : exists b, State.checkPredRule s G1 G2 n m = Ret b.
Proof.
  destruct (vertex_data G1 n H1 Vn) as (_ & h1 & _ & p1 & _ & _ & Hh1 & _ & Hp1 & _).
  destruct (vertex_data G2 m H2 Vm) as (_ & h2 & _ & p2 & _ & _ & Hh2 & _ & Hp2 & _).
  rewrite checkPredRule_lists by assumption. rewrite Hh1. simpl.
  destruct (edges_ok_total Edge.v (State.core_1 s)
              (found_in (Graph.head_edge G2) m Edge.v (out_list (Graph.edge G2) m))
              (out_list (Graph.edge G1) n)) as [ok Hok].
  - intros e He. apply In_out_list in He. eapply core_1_total; eauto.
    apply (gi_range G1 H1), He.
  - intros a b. unfold found_in. rewrite Hh2. simpl. eauto.
  - rewrite Hok. simpl. destruct ok; simpl; [|eauto].
    rewrite Hp2, Hp1. simpl. apply mapped_back_total_M2.
Qed.

Lemma checkSuccRule_total : exists b, State.checkSuccRule s G1 G2 n m = Ret b.
Proof.
  destruct (vertex_data G1 n H1 Vn) as (_ & _ & h1 & _ & s1 & _ & _ & Hh1 & _ & Hs1).
  destruct (vertex_data G2 m H2 Vm) as (_ & _ & h2 & _ & s2 & _ & _ & Hh2 & _ & Hs2).
  rewrite checkSuccRule_lists by assumption. rewrite Hh1. simpl.
  destruct (edges_ok_total Edge.u (State.core_1 s)
              (found_in (Graph.rev_head_edge G2) m Edge.u (in_list (Graph.edge G2) m))
              (in_list (Graph.edge G1) n)) as [ok Hok].
  - intros e He. apply In_in_list in He. eapply core_1_total; eauto.
    apply (gi_range G1 H1), He.
  - intros a b. unfold found_in. rewrite Hh2. simpl. eauto.
  - rewrite Hok. simpl. destruct ok; simpl; [|eauto].
    rewrite Hs2, Hs1. simpl. apply mapped_back_total_M2.
Qed.

Lemma checkSynRules_total : exists b, State.checkSynRules s G1 G2 n m = Ret b.
Proof.
  destruct (vertex_data G1 n H1 Vn) as (_ & _ & _ & p1 & s1 & _ & _ & _ & Hp1 & Hs1).
  destruct (vertex_data G2 m H2 Vm) as (_ & _ & _ & p2 & s2 & _ & _ & _ & Hp2 & Hs2).
  destruct (genComplementary_total_1 G1 G2 s H1 HS) as [N1 HN1].
  destruct (genComplementary_total_2 G1 G2 s H2 HS) as [N2 HN2].
  unfold State.checkSynRules.
  apply andb_then_total; [apply checkPredRule_total|].
  apply andb_then_total; [apply checkSuccRule_total|].
  apply andb_then_total;
    [rewrite (checkInRule_value s G1 G2 n m s1 s2 p1 p2) by assumption; eauto|].
  apply andb_then_total;
    [rewrite (checkOutRule_value s G1 G2 n m s1 s2 p1 p2) by assumption; eauto|].
  rewrite (checkNewRule_value s G1 G2 n m N1 N2 s1 s2 p1 p2) by assumption.
  eauto.
Qed.
End RulesTotal.

Lemma try_pair_total rec (G1 G2 : Graph.t) (s : State.t) (P : list (Z * Z)) n m :
  graph_inv G1 -> graph_inv G2 ->
  Graph.vertex_count G1 = Graph.vertex_count G2 ->
  state_inv G1 G2 s ->
  State.genCandiPairSet s = Ret P -> In (n, m) P ->
  (forall s', extends G1 G2 s s' -> exists b, rec s' = Ret b) ->
  exists b, try_pair rec G1 G2 s (n, m) = Ret b.
Proof.
  intros H1 H2 E HS HP Hin Hrec.
  destruct (candidates_fresh s P n m) as [U1 U2];
    eauto using si_base, state_inv_sized.
  pose proof (unmapped_vertex_1 _ _ _ _ HS U1) as Vn.
  pose proof (unmapped_vertex_2 _ _ _ _ HS U2) as Vm.
  destruct (vertex_data G1 n H1 Vn) as (_ & _ & _ & p1 & s1 & _ & _ & _ & Hp1 & Hs1).
  destruct (vertex_data G2 m H2 Vm) as (_ & _ & _ & p2 & s2 & _ & _ & _ & Hp2 & Hs2).
  destruct (andb_then_total (State.checkSemRules s G1 G2 n m)
                            (State.checkSynRules s G1 G2 n m)) as [ok Hok];
    [apply checkSemRules_total; assumption
    |apply checkSynRules_total; assumption|].
  unfold try_pair. simpl. rewrite Hok. simpl. destruct ok; [|eauto].
  rewrite Hp1, Hp2, Hs1, Hs2. simpl.
  destruct (addNewPair_state_inv G1 G2 s n m p1 p2 s1 s2) as [s' [Hadd _]]; auto.
  rewrite Hadd. simpl. apply Hrec.
  exists P, n, m, p1, p2, s1, s2. auto 10.
Qed.

Lemma try_pairs_total rec (G1 G2 : Graph.t) (s : State.t) (P : list (Z * Z)) :
  graph_inv G1 -> graph_inv G2 ->
  Graph.vertex_count G1 = Graph.vertex_count G2 ->
  state_inv G1 G2 s ->
  State.genCandiPairSet s = Ret P ->
  (forall s', extends G1 G2 s s' -> exists b, rec s' = Ret b) ->
  forall Q, incl Q P -> exists b, try_pairs rec G1 G2 s Q = Ret b.
Proof.
  intros H1 H2 E HS HP Hrec.
  induction Q as [|[n m] Q IH]; simpl; intros Hincl; [eauto|].
  destruct (try_pair_total rec G1 G2 s P n m) as [r Hr]; auto.
  { apply Hincl. left. reflexivity. }
  rewrite Hr. simpl. destruct r; [eauto|].
  apply IH. intros q Hq. apply Hincl. right. exact Hq.
Qed.

(** On graphs of equal size the search returns an answer from every state
    of the data model. *)
Lemma solve_total (G1 G2 : Graph.t) :
  graph_inv G1 -> graph_inv G2 ->
  Graph.vertex_count G1 = Graph.vertex_count G2 ->
  forall fuel s,
  state_inv G1 G2 s ->
  (Z.to_nat (Graph.vertex_count G1) - length (State.M1 s) < fuel)%nat ->
  exists b, solve fuel G1 G2 s = Ret b.
Proof.
  intros H1 H2 E. induction fuel as [|fuel IH]; intros s HS Hf; [lia|].
  pose proof (si_base _ _ _ HS) as B.
  pose proof (state_inv_sized _ _ _ E HS) as Hsz.
  pose proof (M1_bound s B) as Hb. pose proof (si_count _ _ _ HS) as Hc.
  simpl.
  destruct (Z.eqb_spec (Z.of_nat (length (State.M1 s))) (State.vertex_count s))
    as [|Nfull]; [eauto|].
  destruct (genCandiPairSet_total s B Hsz) as [P HP]. rewrite HP. simpl.
  apply (try_pairs_total _ G1 G2 s P); auto using incl_refl.
  intros s' Hext. apply IH.
  - eapply extends_state_inv; eauto.
  - destruct (extends_good G1 G2 s s' B Hsz Hext) as (_ & _ & _ & _ & HM).
    rewrite HM. pose proof (bi_len1 s B). lia.
Qed.

Lemma G_one_constructed : constructed G_one.
Proof. apply (build_constructed [V 0]). reflexivity. Qed.

Lemma G_two_constructed : constructed G_two.
Proof. apply (build_constructed [V 0; V 0]). reflexivity. Qed.

Lemma G_apart_constructed : constructed G_apart.
Proof. apply (build_constructed [V 0; V 1]). reflexivity. Qed.

Lemma G_joined_constructed : constructed G_joined.
Proof. apply (build_constructed [V 0; V 1; E 0 1 7]). reflexivity. Qed.

Lemma G_sub_1_constructed : constructed G_sub_1.
Proof. apply (build_constructed [V 0; V 1; V 2; E 0 1 7]). reflexivity. Qed.

Lemma G_sub_2_constructed : constructed G_sub_2.
Proof.
  apply (build_constructed [V 0; V 1; V 2; E 0 1 7; E 0 2 7]). reflexivity.
Qed.

Lemma s_sub_reachable : reachable G_sub_1 G_sub_2 true s_sub.
Proof.
  apply (reachable_step _ _ _ (State.new 3 true)).
  - apply (reachable_new G_sub_1 G_sub_2 true).
  - exists [(0, 2); (1, 2); (2, 2)], 2, 2, [], [0], [], [].
    repeat split; try reflexivity. simpl. auto.
Qed.

(** ** C2: the "in" look-ahead rule *)

(** C2 fails on the code.  [isomorphism G_in_1 G_in_2] reaches the state
    [s_in] in exact mode and proposes the pair [(1, 1)] there.  The four
    cardinalities are [a = b = 0], [c = 0] and [d = 1], so the rule of the
    specification rejects the pair; [checkInRule] returns true, and so
    does not compare [c] with [d] in exact mode.  [checkOutRule], of the
    same shape, computes the rule of the specification. *)
Theorem checkInRule_exact_mode_skips_pred :
  reachable G_in_1 G_in_2 false s_in /\
  State.subisomorphism s_in = false /\
  State.genCandiPairSet s_in = Ret [(1, 1)] /\
  vget (Graph.succ G_in_1) 1 = Ret [] /\
  vget (Graph.succ G_in_2) 1 = Ret [] /\
  vget (Graph.pred G_in_1) 1 = Ret [2; 3] /\
  vget (Graph.pred G_in_2) 1 = Ret [0; 3] /\
  State.set_intersection_size (State.in_1 s_in) [] = 0 /\
  State.set_intersection_size (State.in_2 s_in) [] = 0 /\
  State.set_intersection_size (State.in_1 s_in) [2; 3] = 0 /\
  State.set_intersection_size (State.in_2 s_in) [0; 3] = 1 /\
  lookahead false 0 0 0 1 = false /\
  State.checkInRule s_in G_in_1 G_in_2 1 1 = Ret true.
Proof.
  split; [apply s_in_reachable|]. repeat split.
Qed.

(** In subgraph mode the second comparison of [checkInRule] is an
    equality: at the state [s_sub] of [subisomorphism G_sub_1 G_sub_2] and
    the pair [(1, 1)], [a <= b] and [c <= d] hold and the rule returns
    false. *)
Lemma checkInRule_subgraph_mode_wants_equality :
  reachable G_sub_1 G_sub_2 true s_sub /\
  State.subisomorphism s_sub = true /\
  In (1, 1) (get [] (State.genCandiPairSet s_sub)) /\
  vget (Graph.succ G_sub_1) 1 = Ret [] /\
  vget (Graph.succ G_sub_2) 1 = Ret [] /\
  vget (Graph.pred G_sub_1) 1 = Ret [0] /\
  vget (Graph.pred G_sub_2) 1 = Ret [0] /\
  State.set_intersection_size (State.in_1 s_sub) [0] = 0 /\
  State.set_intersection_size (State.in_2 s_sub) [0] = 1 /\
  lookahead true 0 0 0 1 = true /\
  State.checkInRule s_sub G_sub_1 G_sub_2 1 1 = Ret false.
Proof.
  split; [apply s_sub_reachable|]. repeat split. simpl. auto.
Qed.

(** The sibling rule computes the comparison of the specification. *)
Lemma checkOutRule_is_lookahead (s : State.t) (G1 G2 : Graph.t) (n m : Z)
      s1 s2 p1 p2 :
  vget (Graph.succ G1) n = Ret s1 -> vget (Graph.succ G2) m = Ret s2 ->
  vget (Graph.pred G1) n = Ret p1 -> vget (Graph.pred G2) m = Ret p2 ->
  (State.checkOutRule s G1 G2 n m = Ret true <->
   lookahead (State.subisomorphism s)
     (State.set_intersection_size (State.out_1 s) s1)
     (State.set_intersection_size (State.out_2 s) s2)
     (State.set_intersection_size (State.out_1 s) p1)
     (State.set_intersection_size (State.out_2 s) p2) = true).
Proof.
  intros Hs1 Hs2 Hp1 Hp2.
  rewrite (checkOutRule_value s G1 G2 n m s1 s2 p1 p2) by assumption.
  split; congruence.
Qed.

(** ** C3 and C4: the length of [core_2] *)

(** C3 fails on the code.  In the empty state of
    [subisomorphism G_one G_two] all frontier sets are empty and
    [genCandiPairSet] emits [(0, 0)] only, although vertex 1 of [G_two] is
    larger and not mapped: [core_2] has one slot per vertex of the query,
    and the scan runs over these slots. *)
Theorem genCandiPairSet_scans_query_count :
  let s0 := State.new (Graph.vertex_count G_one) true in
  reachable G_one G_two true s0 /\
  State.out_1 s0 = [] /\ State.in_1 s0 = [] /\
  State.genCandiPairSet s0 = Ret [(0, 0)] /\
  is_vertex G_two 1 /\ ~ In 1 (State.M2 s0) /\
  vget (State.core_2 s0) 1 = Err OutOfBounds.
Proof.
  split; [apply (reachable_new G_one G_two true)|].
  repeat split; try reflexivity; vm_compute; congruence.
Qed.

(** Where [core_2] does cover the scanned range, the third case of
    [genCandiPairSet] is as specified: the partner is the last unmapped
    slot below [vertex_count], and it is paired with every unmapped vertex
    of [G1]. *)
Lemma genCandiPairSet_disconnected (s : State.t) (P : list (Z * Z)) :
  State.out_1 s = [] \/ State.out_2 s = [] ->
  State.in_1 s = [] \/ State.in_2 s = [] ->
  0 < State.vertex_count s ->
  State.genCandiPairSet s = Ret P ->
  exists mstar,
    (forall n m, In (n, m) P <->
                 m = mstar /\ 0 <= n < State.vertex_count s /\
                 unmapped (State.core_1 s) n) /\
    (forall i, mstar < i < State.vertex_count s ->
               exists x, mapped (State.core_2 s) i x) /\
    (mstar = -1 \/
     (0 <= mstar < State.vertex_count s /\ unmapped (State.core_2 s) mstar)).
Proof.
  intros Hout Hin Hpos H. unfold State.genCandiPairSet in H.
  assert (E1 : negb (length (State.out_1 s) =? 0)%nat &&
               negb (length (State.out_2 s) =? 0)%nat = false).
  { destruct Hout as [-> | ->]; simpl; [reflexivity | apply andb_false_r]. }
  assert (E2 : negb (length (State.in_1 s) =? 0)%nat &&
               negb (length (State.in_2 s) =? 0)%nat = false).
  { destruct Hin as [-> | ->]; simpl; [reflexivity | apply andb_false_r]. }
  rewrite E1, E2 in H. apply bind_Ret in H. destruct H as [r [Hr H]].
  unfold State.last_unmapped in Hr.
  destruct (Z.leb_spec (State.vertex_count s) 0); [lia|].
  apply scan_down_Ret in Hr. destruct Hr as [Hall Hr].
  exists r. split; [|split].
  - intros n m. rewrite (unmapped_pairs_Ret _ _ _ _ _ H). split.
    + intros [-> [R U]]. split; [reflexivity|]. split; [lia|exact U].
    + intros [-> [R U]]. split; [reflexivity|]. split; [lia|exact U].
  - intros i Hi. apply Hall. lia.
  - destruct Hr as [->|[R U]]; [auto|]. right. split; [lia|exact U].
Qed.

(** C4 fails on the code.  [subisomorphism G_one G_two] builds a state
    whose [core_2] has one slot, for a data graph of two vertices; the
    pair [(0, 0)] passes the rules up to [checkOutRule], and
    [checkNewRule] then reads [core_2[1]]. *)
Theorem core_2_read_out_of_bounds :
  let s0 := State.new (Graph.vertex_count G_one) true in
  Z.of_nat (length (State.core_2 s0)) = 1 /\
  Graph.vertex_count G_two = 2 /\
  State.genCandiPairSet s0 = Ret [(0, 0)] /\
  State.checkSemRules s0 G_one G_two 0 0 = Ret true /\
  State.checkPredRule s0 G_one G_two 0 0 = Ret true /\
  State.checkSuccRule s0 G_one G_two 0 0 = Ret true /\
  State.checkInRule s0 G_one G_two 0 0 = Ret true /\
  State.checkOutRule s0 G_one G_two 0 0 = Ret true /\
  vget (State.core_2 s0) 1 = Err OutOfBounds /\
  State.genComplementary (Graph.vertex_count G_two) (State.core_2 s0)
    (State.in_2 s0) (State.out_2 s0) = Err OutOfBounds /\
  State.checkNewRule s0 G_one G_two 0 0 = Err OutOfBounds /\
  subisomorphism G_one G_two = Err OutOfBounds.
Proof. repeat split. Qed.

(** The same on all inputs: with more data vertices than query vertices,
    no pair is ever accepted, and [subisomorphism] returns true for the
    empty query only. *)
Lemma subisomorphism_larger_data_graph (G1 G2 : Graph.t) :
  constructed G1 ->
  0 < Graph.vertex_count G1 < Graph.vertex_count G2 ->
  subisomorphism G1 G2 <> Ret true.
Proof.
  intros C1 Hlt H. pose proof (gi_vcount G1 (constructed_inv G1 C1)) as Hv.
  unfold subisomorphism in H.
  destruct (_ >? _) in H; [discriminate|].
  destruct (_ >? _) in H; [discriminate|].
  apply solve_short_core_2 in H.
  - simpl in H. lia.
  - simpl. rewrite repeat_length. lia.
Qed.

(** * Completeness along a given mapping *)

(** Two intersections that correspond under an injective map have the
    same size. *)
Lemma card_transport (phi : Z -> Z) (A A' B B' : list Z) :
  NoDup A -> NoDup A' ->
  (forall x y, In x A -> In y A -> phi x = phi y -> x = y) ->
  (forall y, In y A' /\ In y B' <-> exists x, In x A /\ In x B /\ y = phi x) ->
  State.set_intersection_size A B = State.set_intersection_size A' B'.
Proof.
  intros NA NA' Hinj Hcorr. unfold State.set_intersection_size. f_equal.
  rewrite <- (length_map phi (filter (fun k => set_mem k B) A)).
  apply Permutation_length, NoDup_Permutation.
  - apply NoDup_map_NoDup_ForallPairs; [|apply NoDup_filter, NA].
    intros x y Hx Hy. apply filter_In in Hx, Hy. apply Hinj; tauto.
  - apply NoDup_filter, NA'.
  - intros y. rewrite in_map_iff, filter_In, set_mem_In, Hcorr. split.
    + intros [x [<- Hx]]. apply filter_In in Hx. rewrite set_mem_In in Hx.
      exists x. tauto.
    + intros [x [Hx [Hb ->]]]. exists x. split; [reflexivity|].
      apply filter_In. rewrite set_mem_In. tauto.
Qed.

Lemma try_pairs_finds rec (G1 G2 : Graph.t) (s : State.t) (P : list (Z * Z)) p :
  (forall q, In q P -> exists b, try_pair rec G1 G2 s q = Ret b) ->
  In p P -> try_pair rec G1 G2 s p = Ret true ->
  try_pairs rec G1 G2 s P = Ret true.
Proof.
  induction P as [|q P IH]; simpl; intros Htot Hin Hp; [contradiction|].
  destruct (Htot q (or_introl eq_refl)) as [b Hb]. rewrite Hb. simpl.
  destruct b; [reflexivity|].
  destruct Hin as [->|Hin]; [congruence|]. apply IH; auto.
Qed.

(** With each frontier set nonempty or full, the scan of [core_2] finds
    an unmapped slot. *)
Lemma last_unmapped_found (s : State.t) (r : Z) :
  base_inv s -> sized s ->
  Z.of_nat (length (State.M1 s)) <> State.vertex_count s ->
  State.last_unmapped (State.vertex_count s) (State.core_2 s) = Ret r ->
  unmapped (State.core_2 s) r.
Proof.
  intros B Hsz Nfull Hr. pose proof (M1_bound s B) as Hb.
  pose proof (bi_len1 s B) as Hl. unfold State.last_unmapped in Hr.
  destruct (Z.leb_spec (State.vertex_count s) 0); [lia|].
  apply scan_down_Ret in Hr. destruct Hr as [Hall [->|[_ U]]]; [|exact U].
  exfalso.
  assert (L2 : (Z.to_nat (State.vertex_count s) <= length (State.M2 s))%nat).
  { rewrite <- (length_ids (Z.to_nat (State.vertex_count s))).
    apply NoDup_incl_length; [apply NoDup_ids|].
    intros i Hi. apply In_ids in Hi. apply (bi_M2 s B), Hall. lia. }
  rewrite <- (bi_size s B) in L2. lia.
Qed.

Section Complete.
Variables (G1 G2 : Graph.t) (phi psi : Z -> Z).
Hypothesis H1 : graph_inv G1.
Hypothesis H2 : graph_inv G2.
Hypothesis EN : Graph.vertex_count G1 = Graph.vertex_count G2.
Hypothesis Hbij : vertex_bijection G1 G2 phi psi.
Hypothesis Hlab : label_preserving G1 G2 phi.
Hypothesis Hfwd : edges_preserved_off_loops G1 G2 phi.
Hypothesis Hadj : adjacency_preserved G1 G2 phi.

Lemma phi_vertex u : is_vertex G1 u -> is_vertex G2 (phi u).
Proof. intros Hu. apply Hbij, Hu. Qed.

Lemma phi_injective u v :
  is_vertex G1 u -> is_vertex G1 v -> phi u = phi v -> u = v.
Proof. apply (bijection_injection G1 G2 phi psi Hbij). Qed.

Lemma psi_vertex v : is_vertex G2 v -> is_vertex G1 (psi v) /\ phi (psi v) = v.
Proof. intros Hv. apply Hbij, Hv. Qed.

Section AtState.
Variable s : State.t.
Hypothesis HS : state_inv G1 G2 s.
Hypothesis HA : along phi s.

Local Abbreviation B := (si_base G1 G2 s HS).

Lemma mapped_1_vertex n m : mapped (State.core_1 s) n m -> is_vertex G1 n.
Proof.
  intros [Hm _]. apply vget_range in Hm. unfold is_vertex.
  rewrite (bi_len1 s B), (si_count _ _ _ HS) in Hm. exact Hm.
Qed.

Lemma mapped_2_along m n :
  mapped (State.core_2 s) m n -> is_vertex G1 n /\ m = phi n.
Proof.
  intros Hm. apply (bi_bij s B) in Hm. split.
  - eapply mapped_1_vertex, Hm.
  - apply HA, Hm.
Qed.

Lemma unmapped_transport u :
  is_vertex G1 u ->
  (unmapped (State.core_1 s) u <-> unmapped (State.core_2 s) (phi u)).
Proof.
  intros Hu.
  destruct (core_1_total G1 G2 s u HS Hu) as [x Hx].
  destruct (core_2_total G1 G2 s (phi u) HS (phi_vertex u Hu)) as [y Hy].
  split; intros U.
  - destruct (vget_mapped_or_unmapped _ _ _ Hy) as [|My]; [assumption|].
    exfalso. destruct (mapped_2_along _ _ My) as [Vy Ey].
    apply phi_injective in Ey; [|assumption|assumption]. subst y.
    apply (bi_bij s B) in My. eapply mapped_not_unmapped; eauto.
  - destruct (vget_mapped_or_unmapped _ _ _ Hx) as [|Mx]; [assumption|].
    exfalso. pose proof (HA _ _ Mx) as ->.
    apply (bi_bij s B) in Mx. eapply mapped_not_unmapped; eauto.
Qed.

Lemma M_transport u :
  is_vertex G1 u -> (In u (State.M1 s) <-> In (phi u) (State.M2 s)).
Proof.
  intros Hu. rewrite (bi_M1 s B), (bi_M2 s B). split.
  - intros [x Hx]. pose proof (HA _ _ Hx) as ->. exists u.
    apply (bi_bij s B), Hx.
  - intros [y Hy]. destruct (mapped_2_along _ _ Hy) as [Vy Ey].
    apply phi_injective in Ey; [|assumption|assumption]. subst y.
    exists (phi u). apply (bi_bij s B), Hy.
Qed.

Lemma M2_preimage v :
  In v (State.M2 s) -> exists u, is_vertex G1 u /\ In u (State.M1 s) /\ v = phi u.
Proof.
  intros Hv. apply (bi_M2 s B) in Hv. destruct Hv as [u Hu].
  destruct (mapped_2_along _ _ Hu) as [Vu ->]. exists u.
  split; [exact Vu|]. split; [|reflexivity].
  apply (bi_M1 s B). exists (phi u). apply (bi_bij s B), Hu.
Qed.

Lemma M1_vertex u : In u (State.M1 s) -> is_vertex G1 u.
Proof.
  intros Hu. apply (bi_M1 s B) in Hu. destruct Hu as [x Hx].
  eapply mapped_1_vertex, Hx.
Qed.

Lemma frontier_pred (G : Graph.t) (core M : list Z) u :
  graph_inv G ->
  (frontier (Graph.pred G) core M u <->
   unmapped core u /\ exists v, In v M /\ adjacent G u v).
Proof.
  intros HG. unfold frontier. split; intros [U H]; (split; [exact U|]).
  - destruct H as (v & av & Hv & Hav & Hu). exists v. split; [exact Hv|].
    apply (gi_pred_spec G HG _ _ Hav), Hu.
  - destruct H as (v & Hv & Ha).
    assert (Vv : is_vertex G v).
    { destruct Ha as [e [He [_ <-]]]. apply (gi_range G HG), He. }
    destruct (vertex_data G v HG Vv) as (_ & _ & _ & p & _ & _ & _ & _ & Hp & _).
    exists v, p. split; [exact Hv|]. split; [exact Hp|].
    apply (gi_pred_spec G HG _ _ Hp), Ha.
Qed.

Lemma frontier_succ (G : Graph.t) (core M : list Z) u :
  graph_inv G ->
  (frontier (Graph.succ G) core M u <->
   unmapped core u /\ exists v, In v M /\ adjacent G v u).
Proof.
  intros HG. unfold frontier. split; intros [U H]; (split; [exact U|]).
  - destruct H as (v & av & Hv & Hav & Hu). exists v. split; [exact Hv|].
    apply (gi_succ_spec G HG _ _ Hav), Hu.
  - destruct H as (v & Hv & Ha).
    assert (Vv : is_vertex G v).
    { destruct Ha as [e [He [<- _]]]. apply (gi_range G HG), He. }
    destruct (vertex_data G v HG Vv) as (_ & _ & _ & _ & sv & _ & _ & _ & _ & Hsv).
    exists v, sv. split; [exact Hv|]. split; [exact Hsv|].
    apply (gi_succ_spec G HG _ _ Hsv), Ha.
Qed.

Lemma in_transport u :
  is_vertex G1 u -> (In u (State.in_1 s) <-> In (phi u) (State.in_2 s)).
Proof.
  intros Hu. rewrite (si_in1 _ _ _ HS), (si_in2 _ _ _ HS).
  rewrite !frontier_pred by assumption.
  rewrite <- (unmapped_transport u Hu). split; intros [U (v & Hv & Ha)];
    (split; [exact U|]).
  - exists (phi v). pose proof (M1_vertex v Hv) as Vv.
    split; [apply M_transport; assumption | apply Hadj; assumption].
  - destruct (M2_preimage v Hv) as (w & Vw & Hw & ->). exists w.
    split; [exact Hw | apply Hadj; assumption].
Qed.

Lemma out_transport u :
  is_vertex G1 u -> (In u (State.out_1 s) <-> In (phi u) (State.out_2 s)).
Proof.
  intros Hu. rewrite (si_out1 _ _ _ HS), (si_out2 _ _ _ HS).
  rewrite !frontier_succ by assumption.
  rewrite <- (unmapped_transport u Hu). split; intros [U (v & Hv & Ha)];
    (split; [exact U|]).
  - exists (phi v). pose proof (M1_vertex v Hv) as Vv.
    split; [apply M_transport; assumption | apply Hadj; assumption].
  - destruct (M2_preimage v Hv) as (w & Vw & Hw & ->). exists w.
    split; [exact Hw | apply Hadj; assumption].
Qed.
Lemma card_along (X X' Y Y' : list Z) :
  ordered X -> ordered X' ->
  (forall x, In x X -> is_vertex G1 x) ->
  (forall y, In y X' -> is_vertex G2 y) ->
  (forall u, is_vertex G1 u -> (In u X <-> In (phi u) X')) ->
  (forall u, is_vertex G1 u -> (In u Y <-> In (phi u) Y')) ->
  State.set_intersection_size X Y = State.set_intersection_size X' Y'.
Proof.
  intros OX OX' VX VX' HXX HYY. apply (card_transport phi).
  - apply ordered_NoDup, OX.
  - apply ordered_NoDup, OX'.
  - intros x y Hx Hy. apply phi_injective; auto.
  - intros y. split.
    + intros [Hy Hy']. destruct (psi_vertex y (VX' y Hy)) as [Vx Ex].
      exists (psi y). rewrite <- Ex in Hy, Hy'.
      split; [apply HXX; assumption|]. split; [apply HYY; assumption|].
      symmetry. exact Ex.
    + intros [x [Hx [Hb ->]]]. pose proof (VX x Hx) as Vx.
      split; [apply HXX | apply HYY]; assumption.
Qed.

Lemma succ_transport n s1 s2 u :
  vget (Graph.succ G1) n = Ret s1 -> vget (Graph.succ G2) (phi n) = Ret s2 ->
  is_vertex G1 u -> (In u s1 <-> In (phi u) s2).
Proof.
  intros Hs1 Hs2 Hu.
  rewrite (proj2 (gi_succ_spec G1 H1 _ _ Hs1)), (proj2 (gi_succ_spec G2 H2 _ _ Hs2)).
  apply Hadj; [|exact Hu]. eapply vget_is_vertex; [exact H1| |exact Hs1].
  apply (gi_succ G1 H1).
Qed.

Lemma pred_transport n p1 p2 u :
  vget (Graph.pred G1) n = Ret p1 -> vget (Graph.pred G2) (phi n) = Ret p2 ->
  is_vertex G1 u -> (In u p1 <-> In (phi u) p2).
Proof.
  intros Hp1 Hp2 Hu.
  rewrite (proj2 (gi_pred_spec G1 H1 _ _ Hp1)), (proj2 (gi_pred_spec G2 H2 _ _ Hp2)).
  apply Hadj; [exact Hu|]. eapply vget_is_vertex; [exact H1| |exact Hp1].
  apply (gi_pred G1 H1).
Qed.

Lemma N_transport N1 N2 u :
  State.genComplementary (Graph.vertex_count G1) (State.core_1 s)
                         (State.in_1 s) (State.out_1 s) = Ret N1 ->
  State.genComplementary (Graph.vertex_count G2) (State.core_2 s)
                         (State.in_2 s) (State.out_2 s) = Ret N2 ->
  is_vertex G1 u -> (In u N1 <-> In (phi u) N2).
Proof.
  unfold State.genComplementary. intros HN1 HN2 Hu.
  apply complementary_from_Ret in HN1; [|lia].
  apply complementary_from_Ret in HN2; [|lia].
  destruct HN1 as [_ HN1]. destruct HN2 as [_ HN2].
  rewrite HN1, HN2. pose proof (phi_vertex u Hu) as Hv.
  pose proof (gi_vcount G1 H1). pose proof (gi_vcount G2 H2).
  unfold is_vertex in Hu, Hv.
  rewrite (unmapped_transport u Hu), (in_transport u Hu), (out_transport u Hu).
  split; intros [_ H']; (split; [lia | exact H']).
Qed.

Lemma in_1_vertex u : In u (State.in_1 s) -> is_vertex G1 u.
Proof. intros Hu. eapply unmapped_vertex_1, (bi_in1 s B), Hu. exact HS. Qed.

Lemma in_2_vertex u : In u (State.in_2 s) -> is_vertex G2 u.
Proof. intros Hu. eapply unmapped_vertex_2, (bi_in2 s B), Hu. exact HS. Qed.

Lemma out_1_vertex u : In u (State.out_1 s) -> is_vertex G1 u.
Proof. intros Hu. eapply unmapped_vertex_1, (bi_out1 s B), Hu. exact HS. Qed.

Lemma out_2_vertex u : In u (State.out_2 s) -> is_vertex G2 u.
Proof. intros Hu. eapply unmapped_vertex_2, (bi_out2 s B), Hu. exact HS. Qed.

(** The pair [(n, phi n)] passes every rule. *)
Lemma accepts_along n :
  unmapped (State.core_1 s) n -> accepts G1 G2 s n (phi n).
Proof.
  intros U. pose proof (unmapped_vertex_1 _ _ _ _ HS U) as Vn.
  pose proof (phi_vertex n Vn) as Vm.
  destruct (vertex_data G1 n H1 Vn)
    as (l1 & h1 & rh1 & p1 & s1 & Hl1 & Hh1 & Hrh1 & Hp1 & Hs1).
  destruct (vertex_data G2 (phi n) H2 Vm)
    as (l2 & h2 & rh2 & p2 & s2 & Hl2 & Hh2 & Hrh2 & Hp2 & Hs2).
  destruct (genComplementary_total_1 G1 G2 s H1 HS) as [N1 HN1].
  destruct (genComplementary_total_2 G1 G2 s H2 HS) as [N2 HN2].
  assert (Hmapped : forall v x, mapped (State.core_1 s) v x ->
                                v <> n /\ x = phi v).
  { intros v x Hm. split; [|apply HA, Hm].
    intros ->. eapply mapped_not_unmapped; eauto. }
  unfold accepts. apply andb_then_true. split.
  { apply checkSemRules_true. apply Hlab, Vn. }
  unfold State.checkSynRules.
  apply andb_then_true. split.
  { rewrite checkPredRule_lists by assumption. rewrite Hh1. simpl.
    rewrite edges_ok_complete.
    - simpl. rewrite Hp2, Hp1. simpl. apply mapped_back_complete.
      intros v2 Hv2. apply In_set_intersection in Hv2. destruct Hv2 as [HM Hp].
      apply (bi_M2 s B) in HM. destruct HM as [v1 Hv1]. exists v1.
      split; [exact Hv1|]. destruct (mapped_2_along _ _ Hv1) as [Vv1 ->].
      eapply pred_transport; eauto.
    - intros e He. apply In_out_list in He. destruct He as [He Eu].
      destruct (gi_range G1 H1 e He) as [_ Vv].
      destruct (core_1_total G1 G2 s _ HS Vv) as [x Hx].
      destruct (vget_mapped_or_unmapped _ _ _ Hx) as [|Mx]; [auto|].
      right. exists x. split; [exact Mx|].
      destruct (Hmapped _ _ Mx) as [Nv ->]. apply found_in_true.
      split; [eauto|].
      destruct (Hfwd n (Edge.v e) (Edge.label e)) as [e2 [He2 [Eu2 [Ev2 El2]]]].
      + congruence.
      + exists e. auto.
      + exists e2. rewrite In_out_list. auto. }
  apply andb_then_true. split.
  { rewrite checkSuccRule_lists by assumption. rewrite Hrh1. simpl.
    rewrite edges_ok_complete.
    - simpl. rewrite Hs2, Hs1. simpl. apply mapped_back_complete.
      intros v2 Hv2. apply In_set_intersection in Hv2. destruct Hv2 as [HM Hp].
      apply (bi_M2 s B) in HM. destruct HM as [v1 Hv1]. exists v1.
      split; [exact Hv1|]. destruct (mapped_2_along _ _ Hv1) as [Vv1 ->].
      eapply succ_transport; eauto.
    - intros e He. apply In_in_list in He. destruct He as [He Ev].
      destruct (gi_range G1 H1 e He) as [Vu _].
      destruct (core_1_total G1 G2 s _ HS Vu) as [x Hx].
      destruct (vget_mapped_or_unmapped _ _ _ Hx) as [|Mx]; [auto|].
      right. exists x. split; [exact Mx|].
      destruct (Hmapped _ _ Mx) as [Nu ->]. apply found_in_true.
      split; [eauto|].
      destruct (Hfwd (Edge.u e) n (Edge.label e)) as [e2 [He2 [Eu2 [Ev2 El2]]]].
      + congruence.
      + exists e. auto.
      + exists e2. rewrite In_in_list. auto. }
  assert (Os1 : ordered s1) by apply (gi_succ_spec G1 H1 _ _ Hs1).
  assert (Os2 : ordered s2) by apply (gi_succ_spec G2 H2 _ _ Hs2).
  assert (Op1 : ordered p1) by apply (gi_pred_spec G1 H1 _ _ Hp1).
  assert (Op2 : ordered p2) by apply (gi_pred_spec G2 H2 _ _ Hp2).
  pose proof (bi_ord_in1 s B) as Oi1. pose proof (bi_ord_in2 s B) as Oi2.
  pose proof (bi_ord_out1 s B) as Oo1. pose proof (bi_ord_out2 s B) as Oo2.
  assert (Ts : forall u, is_vertex G1 u -> (In u s1 <-> In (phi u) s2))
    by (intros; eapply succ_transport; eauto).
  assert (Tp : forall u, is_vertex G1 u -> (In u p1 <-> In (phi u) p2))
    by (intros; eapply pred_transport; eauto).
  assert (TN : forall u, is_vertex G1 u -> (In u N1 <-> In (phi u) N2))
    by (intros; eapply N_transport; eauto).
  apply andb_then_true. split.
  { rewrite (checkInRule_value s G1 G2 n (phi n) s1 s2 p1 p2) by assumption.
    rewrite (card_along (State.in_1 s) (State.in_2 s) s1 s2);
      auto using in_1_vertex, in_2_vertex, in_transport.
    rewrite (card_along (State.in_1 s) (State.in_2 s) p1 p2);
      auto using in_1_vertex, in_2_vertex, in_transport.
    unfold in_lookahead. rewrite Z.leb_refl, !Z.eqb_refl.
    destruct (State.subisomorphism s); reflexivity. }
  apply andb_then_true. split.
  { rewrite (checkOutRule_value s G1 G2 n (phi n) s1 s2 p1 p2) by assumption.
    rewrite (card_along (State.out_1 s) (State.out_2 s) s1 s2);
      auto using out_1_vertex, out_2_vertex, out_transport.
    rewrite (card_along (State.out_1 s) (State.out_2 s) p1 p2);
      auto using out_1_vertex, out_2_vertex, out_transport.
    unfold lookahead. rewrite !Z.leb_refl, !Z.eqb_refl.
    destruct (State.subisomorphism s); reflexivity. }
  rewrite (checkNewRule_value s G1 G2 n (phi n) N1 N2 s1 s2 p1 p2) by assumption.
  rewrite (card_along p1 p2 N1 N2); auto;
    [|intros; eapply pred_in_range; eauto|intros; eapply pred_in_range; eauto].
  rewrite (card_along s1 s2 N1 N2); auto;
    [|intros; eapply succ_in_range; eauto|intros; eapply succ_in_range; eauto].
  unfold lookahead. rewrite !Z.leb_refl, !Z.eqb_refl.
  destruct (State.subisomorphism s); reflexivity.
Qed.
(** Some candidate pair lies on [phi]. *)
Lemma candidate_along :
  Z.of_nat (length (State.M1 s)) <> State.vertex_count s ->
  exists P n, State.genCandiPairSet s = Ret P /\ In (n, phi n) P /\
              unmapped (State.core_1 s) n.
Proof.
  intros Nfull. pose proof (state_inv_sized _ _ _ EN HS) as Hsz.
  destruct (genCandiPairSet_total s B Hsz) as [P HP]. exists P.
  pose proof HP as HP'. unfold State.genCandiPairSet in HP'.
  destruct (negb (length (State.out_1 s) =? 0)%nat &&
            negb (length (State.out_2 s) =? 0)%nat) eqn:E1.
  - apply andb_prop in E1. destruct E1 as [_ E2]. injection HP' as <-.
    assert (Hm : In (State.max_vid (State.out_2 s)) (State.out_2 s)).
    { apply max_vid_In; [apply nonempty_length, E2|].
      intros y Hy. eapply unmapped_nonneg, (bi_out2 s B), Hy. }
    destruct (psi_vertex _ (out_2_vertex _ Hm)) as [Vn En].
    exists (psi (State.max_vid (State.out_2 s))).
    assert (Hn : In (psi (State.max_vid (State.out_2 s))) (State.out_1 s)).
    { apply out_transport; [exact Vn|]. rewrite En. exact Hm. }
    split; [exact HP|]. split; [|apply (bi_out1 s B), Hn].
    apply in_map_iff. eexists. split; [|exact Hn]. rewrite En. reflexivity.
  - destruct (negb (length (State.in_1 s) =? 0)%nat &&
              negb (length (State.in_2 s) =? 0)%nat) eqn:E2.
    + apply andb_prop in E2. destruct E2 as [_ E3]. injection HP' as <-.
      assert (Hm : In (State.max_vid (State.in_2 s)) (State.in_2 s)).
      { apply max_vid_In; [apply nonempty_length, E3|].
        intros y Hy. eapply unmapped_nonneg, (bi_in2 s B), Hy. }
      destruct (psi_vertex _ (in_2_vertex _ Hm)) as [Vn En].
      exists (psi (State.max_vid (State.in_2 s))).
      assert (Hn : In (psi (State.max_vid (State.in_2 s))) (State.in_1 s)).
      { apply in_transport; [exact Vn|]. rewrite En. exact Hm. }
      split; [exact HP|]. split; [|apply (bi_in1 s B), Hn].
      apply in_map_iff. eexists. split; [|exact Hn]. rewrite En. reflexivity.
    + apply bind_Ret in HP'. destruct HP' as [r [Hr HP']].
      pose proof (last_unmapped_found s r B Hsz Nfull Hr) as Ur.
      destruct (psi_vertex r (unmapped_vertex_2 _ _ _ _ HS Ur)) as [Vn En].
      exists (psi r).
      assert (Un : unmapped (State.core_1 s) (psi r)).
      { apply unmapped_transport; [exact Vn|]. rewrite En. exact Ur. }
      split; [exact HP|]. split; [|exact Un].
      apply (unmapped_pairs_Ret _ _ _ _ _ HP'). split; [exact En|].
      split; [|exact Un]. unfold is_vertex in Vn.
      rewrite <- (si_count _ _ _ HS) in Vn. pose proof (bi_len1 s B). lia.
Qed.

Lemma along_step (s' : State.t) n p1 p2 s1 s2 :
  State.addNewPair s n (phi n) p1 p2 s1 s2 = Ret s' -> along phi s'.
Proof.
  intros Hadd. apply addNewPair_Ret in Hadd.
  destruct Hadd as (c1 & c2 & i1 & i2 & o1 & o2 & Hc1 & _ & _ & _ & _ & _ & ->).
  intros x y Hm. simpl in Hm.
  destruct (mapped_vset _ _ _ _ _ _ Hc1 Hm) as [[-> ->]|[_ Hm']];
    [reflexivity | apply HA, Hm'].
Qed.
End AtState.

(** From a state that follows [phi] the search returns true. *)
Lemma solve_complete :
  forall fuel s,
  state_inv G1 G2 s -> along phi s ->
  (Z.to_nat (Graph.vertex_count G1) - length (State.M1 s) < fuel)%nat ->
  solve fuel G1 G2 s = Ret true.
Proof.
  induction fuel as [|fuel IH]; intros s HS HA Hf; [lia|].
  pose proof (si_base _ _ _ HS) as B.
  pose proof (state_inv_sized _ _ _ EN HS) as Hsz.
  pose proof (M1_bound s B) as Hb. pose proof (si_count _ _ _ HS) as Hc.
  pose proof (bi_len1 s B) as Hl.
  simpl.
  destruct (Z.eqb_spec (Z.of_nat (length (State.M1 s))) (State.vertex_count s))
    as [|Nfull]; [reflexivity|].
  destruct (candidate_along s HS HA Nfull) as (P & n & HP & Hin & U).
  rewrite HP. simpl.
  assert (Htot : forall s', extends G1 G2 s s' ->
                            exists b, solve fuel G1 G2 s' = Ret b).
  { intros s' Hext. apply solve_total; auto.
    - eapply extends_state_inv; eauto.
    - destruct (extends_good G1 G2 s s' B Hsz Hext) as (_ & _ & _ & _ & HM).
      rewrite HM. lia. }
  apply (try_pairs_finds _ G1 G2 s P (n, phi n)); [|exact Hin|].
  - intros [a b] Hq. eapply try_pair_total; eauto.
  - pose proof (unmapped_vertex_1 _ _ _ _ HS U) as Vn.
    pose proof (phi_vertex n Vn) as Vm.
    assert (Um : unmapped (State.core_2 s) (phi n))
      by (apply (unmapped_transport s HS HA n Vn), U).
    destruct (vertex_data G1 n H1 Vn) as (_ & _ & _ & p1 & s1 & _ & _ & _ & Hp1 & Hs1).
    destruct (vertex_data G2 (phi n) H2 Vm)
      as (_ & _ & _ & p2 & s2 & _ & _ & _ & Hp2 & Hs2).
    destruct (addNewPair_state_inv G1 G2 s n (phi n) p1 p2 s1 s2)
      as [s' [Hadd HS']]; auto.
    unfold try_pair. simpl.
    pose proof (accepts_along s HS HA n U) as Hacc. unfold accepts in Hacc.
    rewrite Hacc. simpl. rewrite Hp1, Hp2, Hs1, Hs2. simpl.
    rewrite Hadd. simpl. apply IH.
    + exact HS'.
    + eapply along_step; eauto.
    + destruct (addNewPair_base s s' n (phi n) p1 p2 s1 s2 B U Um Hadd)
        as (_ & _ & _ & _ & _ & HM).
      rewrite HM. lia.
Qed.
End Complete.

Lemma along_new (phi : Z -> Z) (count : Z) (sub : bool) :
  along phi (State.new count sub).
Proof. intros n m [G N]. apply vget_repeat in G. contradiction. Qed.

Lemma edges_preserved_adjacent (G1 G2 : Graph.t) (phi : Z -> Z) u v :
  edges_preserved G1 G2 phi -> adjacent G1 u v -> adjacent G2 (phi u) (phi v).
Proof.
  intros Hp [e [He [Eu Ev]]].
  eapply has_edge_adjacent, Hp. exists e. eauto.
Qed.

(** The search from the empty state finds every mapping that preserves
    labelled edges and reflects adjacency, in either mode. *)
Lemma solve_finds (G1 G2 : Graph.t) (phi psi : Z -> Z) (sub : bool) :
  graph_inv G1 -> graph_inv G2 ->
  Graph.vertex_count G1 = Graph.vertex_count G2 ->
  vertex_bijection G1 G2 phi psi -> label_preserving G1 G2 phi ->
  edges_preserved G1 G2 phi -> induced G1 G2 phi ->
  solve (depth G1) G1 G2 (State.new (Graph.vertex_count G1) sub) = Ret true.
Proof.
  intros H1 H2 EN Hbij Hlab Hp Hind.
  apply (solve_complete G1 G2 phi psi); auto.
  - intros u v l _. apply Hp.
  - intros u v Hu Hv. split; [apply edges_preserved_adjacent, Hp | auto].
  - apply new_state_inv; assumption.
  - apply along_new.
  - unfold depth. simpl. lia.
Qed.

(** ** C5: monotonicity of subisomorphism *)

(** C5, as amended.  For constructed graphs with the same number of
    vertices, [G1] having at most as many edges as [G2]: if a
    label-preserving bijection of the vertices carries every labelled
    edge of [G1] to an edge of [G2] with the same label, and [G2] has no
    edge between the images of two vertices that are not adjacent in
    [G1], then [subisomorphism G1 G2] returns true. *)
Theorem subisomorphism_of_induced_image
        (G1 G2 : Graph.t) (phi psi : Z -> Z) :
  constructed G1 -> constructed G2 ->
  Graph.vertex_count G1 = Graph.vertex_count G2 ->
  Graph.edge_count G1 <= Graph.edge_count G2 ->
  vertex_bijection G1 G2 phi psi -> label_preserving G1 G2 phi ->
  edges_preserved G1 G2 phi -> induced G1 G2 phi ->
  subisomorphism G1 G2 = Ret true.
Proof.
  intros C1 C2 EN EE Hbij Hlab Hp Hind. unfold subisomorphism.
  destruct (Z.gtb_spec (Graph.vertex_count G1) (Graph.vertex_count G2)); [lia|].
  destruct (Z.gtb_spec (Graph.edge_count G1) (Graph.edge_count G2)); [lia|].
  apply (solve_finds G1 G2 phi psi); auto using constructed_inv.
Qed.

Lemma subisomorphism_of_induced_image_witness :
  subisomorphism G_twin G_mixed = Ret true.
Proof.
  apply (subisomorphism_of_induced_image G_twin G_mixed (fun u => u) (fun u => u)
           G_twin_constructed G_mixed_constructed).
  - reflexivity.
  - vm_compute. congruence.
  - split; intros u Hu; (split; [exact Hu | reflexivity]).
  - intros u [Hlo Hhi]. change (Graph.vertex_count G_twin) with 2 in Hhi.
    assert (Hu : u = 0 \/ u = 1) by lia.
    destruct Hu as [-> | ->]; exists 0; split; reflexivity.
  - intros u v l [e [He [<- [<- <-]]]]. vm_compute in He.
    destruct He as [<-|[<-|[]]]; apply has_edgeb_spec; reflexivity.
  - intros u v _ _ [e [He [<- <-]]]. vm_compute in He.
    destruct He as [<-|[<-|[]]]; simpl.
    + exists (Edge.mk 0 1 1 (-1) (-1)). split; [|split; reflexivity].
      vm_compute. auto.
    + exists (Edge.mk 0 1 1 (-1) (-1)). split; [|split; reflexivity].
      vm_compute. auto.
Defined.

(** C5 as stated fails: [G_apart] embeds in [G_joined] by the identity,
    with matching labels and no edge to preserve, and
    [subisomorphism G_apart G_joined] returns false, because the edge of
    [G_joined] joins the images of two vertices that are not adjacent in
    [G_apart]. *)
Lemma subisomorphism_rejects_subgraph :
  constructed G_apart /\ constructed G_joined /\
  (exists phi,
     vertex_injection G_apart G_joined phi /\
     label_preserving G_apart G_joined phi /\
     edges_preserved G_apart G_joined phi) /\
  subisomorphism G_apart G_joined = Ret false.
Proof.
  split; [apply G_apart_constructed|]. split; [apply G_joined_constructed|].
  split; [|vm_compute; reflexivity].
  exists (fun u => u). split; [|split].
  - split; [intros u Hu; exact Hu | intros u v _ _ E; exact E].
  - intros u [Hlo Hhi]. change (Graph.vertex_count G_apart) with 2 in Hhi.
    assert (Hu : u = 0 \/ u = 1) by lia.
    destruct Hu as [-> | ->]; eexists; split; reflexivity.
  - intros u v l [e [[] _]].
Qed.

(** The other two ways in which [subisomorphism] misses a subgraph:
    the equality that [checkInRule] demands in subgraph mode, on graphs
    of equal size, and the short [core_2] on a larger data graph. *)
Lemma subisomorphism_rejects_subgraph_in_rule :
  edges_preserved G_sub_1 G_sub_2 (fun u => u) /\
  subisomorphism G_sub_1 G_sub_2 = Ret false.
Proof.
  split; [|vm_compute; reflexivity].
  intros u v l [e [He [<- [<- <-]]]]. vm_compute in He.
  destruct He as [<-|[]]. apply has_edgeb_spec. reflexivity.
Qed.

Lemma subisomorphism_faults_on_larger_graph :
  edges_preserved G_one G_two (fun u => u) /\
  subisomorphism G_one G_two = Err OutOfBounds.
Proof.
  split; [|vm_compute; reflexivity]. intros u v l [e [[] _]].
Qed.

(** ** C6: self-matching *)

(** C6.  [isomorphism G G] returns true for every constructed graph. *)
Theorem self_matching (G : Graph.t) :
  constructed G -> isomorphism G G = Ret true.
Proof.
  intros C. pose proof (constructed_inv G C) as HG. unfold isomorphism.
  rewrite !Z.eqb_refl. cbn [negb].
  apply (solve_finds G G (fun u => u) (fun u => u)); auto.
  - split; intros u Hu; (split; [exact Hu | reflexivity]).
  - intros u Hu. destruct (vertex_data G u HG Hu) as (l & _ & _ & _ & _ & Hl & _).
    exists l. auto.
  - intros u v l He. exact He.
  - intros u v _ _ Ha. exact Ha.
Qed.

Lemma self_matching_witness : isomorphism G_path_chord G_path_chord = Ret true.
Proof. apply (self_matching G_path_chord G_path_chord_constructed). Defined.

(** The same holds in subgraph mode. *)
Lemma self_matching_sub (G : Graph.t) :
  constructed G -> subisomorphism G G = Ret true.
Proof.
  intros C. pose proof (constructed_inv G C) as HG. unfold subisomorphism.
  destruct (Z.gtb_spec (Graph.vertex_count G) (Graph.vertex_count G)); [lia|].
  destruct (Z.gtb_spec (Graph.edge_count G) (Graph.edge_count G)); [lia|].
  apply (solve_finds G G (fun u => u) (fun u => u)); auto.
  - split; intros u Hu; (split; [exact Hu | reflexivity]).
  - intros u Hu. destruct (vertex_data G u HG Hu) as (l & _ & _ & _ & _ & Hl & _).
    exists l. auto.
  - intros u v l He. exact He.
  - intros u v _ _ Ha. exact Ha.
Qed.

(** * The driver over a store *)

Lemma load_app_new (st : store) (s : State.t) :
  load (st ++ [s]) (length st) = Ret s.
Proof.
  unfold load. rewrite nth_error_app2, Nat.sub_diag by lia. reflexivity.
Qed.

Lemma upd_app_new {A} (l : list A) (x y : A) :
  upd (l ++ [x]) (length l) y = l ++ [y].
Proof.
  induction l as [|z l IH]; simpl; [reflexivity|]. rewrite IH. reflexivity.
Qed.

Lemma write_app_new (st : store) (s s' : State.t) :
  write (st ++ [s]) (length st) s' = Ret (st ++ [s']).
Proof.
  unfold write. rewrite length_app. simpl.
  destruct (Nat.ltb_spec (length st) (length st + 1)); [|lia].
  rewrite upd_app_new. reflexivity.
Qed.

Lemma try_pair_at_spec rec rec_at (G1 G2 : Graph.t) (a : nat) (st : store)
      (s : State.t) (p : Z * Z) :
  nth_error st a = Some s ->
  (forall s', rec_at (length st) (st ++ [s']) =
              (r <- rec s' ;; Ret (r, st ++ [s']))) ->
  try_pair_at rec_at G1 G2 a st p =
  (r <- try_pair rec G1 G2 s p ;; Ret (r, st)).
Proof.
  intros Ha Hrec. unfold try_pair_at, try_pair, load. rewrite Ha. simpl.
  destruct (State.andb_then _ _) as [[|]|]; simpl; try reflexivity.
  destruct (vget (Graph.pred G1) (fst p)); simpl; [|reflexivity].
  destruct (vget (Graph.pred G2) (snd p)); simpl; [|reflexivity].
  destruct (vget (Graph.succ G1) (fst p)); simpl; [|reflexivity].
  destruct (vget (Graph.succ G2) (snd p)); simpl; [|reflexivity].
  unfold addNewPair_at. rewrite load_app_new. simpl.
  destruct (State.addNewPair s _ _ _ _ _ _) as [s'|]; simpl; [|reflexivity].
  rewrite write_app_new. simpl. rewrite Hrec.
  destruct (rec s') as [r|]; simpl; [|reflexivity].
  rewrite removelast_last. reflexivity.
Qed.

Lemma try_pairs_at_spec rec rec_at (G1 G2 : Graph.t) (a : nat) (st : store)
      (s : State.t) (P : list (Z * Z)) :
  nth_error st a = Some s ->
  (forall s', rec_at (length st) (st ++ [s']) =
              (r <- rec s' ;; Ret (r, st ++ [s']))) ->
  try_pairs_at rec_at G1 G2 a st P =
  (r <- try_pairs rec G1 G2 s P ;; Ret (r, st)).
Proof.
  intros Ha Hrec. induction P as [|p P IH]; simpl; [reflexivity|].
  rewrite (try_pair_at_spec rec rec_at G1 G2 a st s p Ha Hrec).
  destruct (try_pair rec G1 G2 s p) as [[|]|]; simpl; auto.
Qed.

(** The driver over the store computes what [solve] computes on the
    object behind the reference, and hands the store back as it was. *)
Lemma solve_at_spec (G1 G2 : Graph.t) (fuel : nat) :
  forall (a : nat) (st : store) (s : State.t),
  nth_error st a = Some s ->
  solve_at fuel G1 G2 a st = (r <- solve fuel G1 G2 s ;; Ret (r, st)).
Proof.
  induction fuel as [|fuel IH]; intros a st s Ha; simpl; [reflexivity|].
  unfold load. rewrite Ha. simpl.
  destruct (_ =? _); [reflexivity|].
  destruct (State.genCandiPairSet s) as [P|]; simpl; [|reflexivity].
  apply try_pairs_at_spec; [exact Ha|].
  intros s'. apply IH.
  rewrite nth_error_app2, Nat.sub_diag by lia. reflexivity.
Qed.

(** ** C9: the frame of a call *)

(** C9.  When a call of [solve] on the state at address [a] returns, the
    store is what it was before the call: the state behind the reference
    and every other live state are unchanged, and the clones made for
    accepted candidates are gone.  The answer is that of [solve] on the
    value of the state. *)
Theorem solve_frame (G1 G2 : Graph.t) (fuel : nat) (a : nat) (st st' : store)
        (b : bool) :
  solve_at fuel G1 G2 a st = Ret (b, st') ->
  st' = st /\
  exists s, nth_error st a = Some s /\ nth_error st' a = Some s /\
            solve fuel G1 G2 s = Ret b.
Proof.
  intros H. destruct (nth_error st a) as [s|] eqn:Ha.
  - rewrite (solve_at_spec G1 G2 fuel a st s Ha) in H.
    apply bind_Ret in H. destruct H as [r [Hr H]]. injection H as <- <-.
    split; [reflexivity|]. exists s. auto.
  - destruct fuel as [|fuel]; simpl in H; [discriminate|].
    unfold load in H. rewrite Ha in H. discriminate.
Qed.

Lemma solve_frame_witness :
  [State.new 2 false] = [State.new 2 false] /\
  exists s, nth_error [State.new 2 false] 0 = Some s /\
            nth_error [State.new 2 false] 0 = Some s /\
            solve 3 G_edge G_edge s = Ret true.
Proof.
  apply (solve_frame G_edge G_edge 3 0 [State.new 2 false] [State.new 2 false] true).
  vm_compute. reflexivity.
Defined.

(** * Further properties of the code *)

(** ** Graph construction *)

Lemma has_edge_addEdge (G G' : Graph.t) (u v l : Z) :
  Graph.addEdge G u v l = Ret G' ->
  exists h r,
    Graph.edge G' = Graph.edge G ++ [Edge.mk u v l h r] /\
    vget (Graph.head_edge G) u = Ret h /\
    vget (Graph.rev_head_edge G) v = Ret r /\
    Graph.vertex G' = Graph.vertex G /\
    Graph.vertex_count G' = Graph.vertex_count G /\
    Graph.edge_count G' = Graph.edge_count G + 1.
Proof.
  unfold Graph.addEdge. intros H. inv_bind H. injection H as <-.
  exists a, a0. simpl. auto 10.
Qed.

Lemma has_edge_app (G G' : Graph.t) (x : Edge.t) (a b c : Z) :
  Graph.edge G' = Graph.edge G ++ [x] ->
  (has_edge G' a b c <->
   has_edge G a b c \/ (Edge.u x = a /\ Edge.v x = b /\ Edge.label x = c)).
Proof.
  intros E. unfold has_edge. rewrite E. split.
  - intros [e [He H]]. apply in_app_or in He. destruct He as [He|[<-|[]]].
    + left. exists e. auto.
    + right. exact H.
  - intros [[e [He H]] | H].
    + exists e. split; [apply in_or_app; auto | exact H].
    + exists x. split; [apply in_or_app; right; left; reflexivity | exact H].
Qed.

(** X1.  On a constructed graph [addEdge] runs without fault exactly
    when both endpoints are vertices of the graph; otherwise it reads
    [head_edge] or [rev_head_edge] out of range.  When it runs, the result
    is a constructed graph again. *)
Theorem addEdge_returns_iff (G : Graph.t) (u v l : Z) :
  constructed G ->
  (is_vertex G u /\ is_vertex G v ->
   exists G', Graph.addEdge G u v l = Ret G' /\ constructed G') /\
  (~ (is_vertex G u /\ is_vertex G v) ->
   Graph.addEdge G u v l = Err OutOfBounds).
Proof.
  intros C. pose proof (constructed_inv G C) as HG. split.
  - intros [Hu Hv].
    destruct (vertex_data G u HG Hu) as (_ & hu & _ & _ & su & _ & Hhu & _ & _ & Hsu).
    destruct (vertex_data G v HG Hv) as (_ & _ & rv & pv & _ & _ & _ & Hrv & Hpv & _).
    destruct (vset_total (Graph.head_edge G) u (Graph.edge_count G)
                (vget_range _ _ _ Hhu)) as [head' Hh'].
    destruct (vset_total (Graph.rev_head_edge G) v (Graph.edge_count G)
                (vget_range _ _ _ Hrv)) as [rev' Hr'].
    destruct (vset_total (Graph.pred G) v (set_insert u pv)
                (vget_range _ _ _ Hpv)) as [pred' Hp'].
    destruct (vset_total (Graph.succ G) u (set_insert v su)
                (vget_range _ _ _ Hsu)) as [succ' Hs'].
    assert (E : exists G', Graph.addEdge G u v l = Ret G').
    { unfold Graph.addEdge. rewrite Hhu, Hrv. simpl. rewrite Hh', Hr'. simpl.
      rewrite Hpv. simpl. rewrite Hp'. simpl. rewrite Hsu. simpl.
      rewrite Hs'. simpl. eauto. }
    destruct E as [G' HG']. exists G'. split; [exact HG'|].
    econstructor; eauto.
  - intros N. unfold Graph.addEdge.
    destruct (vget (Graph.head_edge G) u) as [hu|e] eqn:Hhu; simpl.
    + destruct (vget (Graph.rev_head_edge G) v) as [rv|e] eqn:Hrv; simpl.
      * exfalso. apply N. split.
        -- eapply vget_is_vertex; [exact HG | apply (gi_head G HG) | exact Hhu].
        -- eapply vget_is_vertex; [exact HG | apply (gi_rev G HG) | exact Hrv].
      * apply vget_Err in Hrv. destruct Hrv as [-> _]. reflexivity.
    + apply vget_Err in Hhu. destruct Hhu as [-> _]. reflexivity.
Qed.

Lemma addEdge_returns_iff_witness :
  (is_vertex G_apart 0 /\ is_vertex G_apart 1 ->
   exists G', Graph.addEdge G_apart 0 1 7 = Ret G' /\ constructed G') /\
  (~ (is_vertex G_apart 0 /\ is_vertex G_apart 1) ->
   Graph.addEdge G_apart 0 1 7 = Err OutOfBounds).
Proof. apply (addEdge_returns_iff G_apart 0 1 7 G_apart_constructed). Defined.

Lemma build_from_content (cs : list cmd) :
  forall G G',
  build_from G cs = Ret G' ->
  Graph.vertex G' = Graph.vertex G ++ labels_of cs /\
  Graph.vertex_count G' = Graph.vertex_count G + Z.of_nat (length (labels_of cs)) /\
  forall u v l, has_edge G' u v l <-> has_edge G u v l \/ In (E u v l) cs.
Proof.
  induction cs as [|[x|a b c] cs IH]; simpl; intros G G' H.
  - injection H as <-. rewrite app_nil_r. split; [reflexivity|].
    split; [lia|]. intros; tauto.
  - apply IH in H. destruct H as (Hv & Hc & He). simpl in Hv, Hc.
    rewrite <- app_assoc in Hv. split; [exact Hv|]. split; [lia|].
    intros u v l. rewrite He. unfold has_edge. simpl.
    split; [intros [?|?]; auto | intros [?|[?|?]]; auto; discriminate].
  - apply bind_Ret in H. destruct H as [G1 [HG1 H]].
    apply IH in H. destruct H as (Hv & Hc & He).
    destruct (has_edge_addEdge _ _ _ _ _ HG1) as (h & r & HE & _ & _ & Hv1 & Hc1 & _).
    rewrite Hv1 in Hv. rewrite Hc1 in Hc. split; [exact Hv|]. split; [exact Hc|].
    intros u v l. rewrite He, (has_edge_app G G1 _ u v l HE). simpl. split.
    + intros [[?|[<- [<- <-]]]|?]; auto.
    + intros [?|[[= -> -> ->]|?]]; auto.
Qed.

(** Every [addEdge] call appends one entry to [edge] and no other call
    touches it: the entries are the calls, one for one. *)
Lemma build_from_edges (cs : list cmd) :
  forall G G',
  build_from G cs = Ret G' ->
  map edge_data (Graph.edge G') = map edge_data (Graph.edge G) ++ edges_of cs.
Proof.
  induction cs as [|[x|a b c] cs IH]; simpl; intros G G' H.
  - injection H as <-. rewrite app_nil_r. reflexivity.
  - apply IH in H. exact H.
  - apply bind_Ret in H. destruct H as [G1 [HG1 H]].
    apply IH in H.
    destruct (has_edge_addEdge _ _ _ _ _ HG1) as (h & r & HE & _).
    rewrite H, HE, map_app, <- app_assoc. reflexivity.
Qed.

(** X2.  A graph built from [initial] by a sequence of [addVertex] and
    [addEdge] calls has exactly the vertex labels given to [addVertex], in
    the order of the calls, and its [edge] vector holds exactly the
    endpoints and labels given to [addEdge], one entry for each call and
    in the order of the calls, so that an edge added twice is there twice;
    [vertex_count] and [edge_count] are the numbers of those calls. *)
Theorem build_content (cs : list cmd) (G : Graph.t) :
  build cs = Ret G ->
  Graph.vertex G = labels_of cs /\
  Graph.vertex_count G = Z.of_nat (length (labels_of cs)) /\
  map edge_data (Graph.edge G) = edges_of cs /\
  Graph.edge_count G = Z.of_nat (length (edges_of cs)) /\
  Graph.edge_count G = Z.of_nat (length (Graph.edge G)) /\
  forall u v l, has_edge G u v l <-> In (E u v l) cs.
Proof.
  intros H. pose proof (constructed_inv G (build_constructed cs G H)) as HG.
  pose proof (build_from_edges cs _ _ H) as HE. simpl in HE.
  apply build_from_content in H. destruct H as (Hv & Hc & He). simpl in Hv, Hc.
  split; [exact Hv|]. split; [exact Hc|]. split; [exact HE|].
  split; [|split; [apply (gi_ecount G HG)|]].
  - rewrite (gi_ecount G HG), <- HE, length_map. reflexivity.
  - intros u v l. rewrite He. split; [intros [[e [[] _]]|?]; auto | auto].
Qed.

Lemma build_content_witness :
  Graph.vertex G_twin = labels_of [V 0; V 0; E 0 1 1; E 0 1 1] /\
  Graph.vertex_count G_twin =
    Z.of_nat (length (labels_of [V 0; V 0; E 0 1 1; E 0 1 1])) /\
  map edge_data (Graph.edge G_twin) = edges_of [V 0; V 0; E 0 1 1; E 0 1 1] /\
  Graph.edge_count G_twin =
    Z.of_nat (length (edges_of [V 0; V 0; E 0 1 1; E 0 1 1])) /\
  Graph.edge_count G_twin = Z.of_nat (length (Graph.edge G_twin)) /\
  forall u v l, has_edge G_twin u v l <->
                In (E u v l) [V 0; V 0; E 0 1 1; E 0 1 1].
Proof.
  apply (build_content [V 0; V 0; E 0 1 1; E 0 1 1] G_twin). reflexivity.
Defined.

(** X3.  In a constructed graph the per-vertex vectors have one entry per
    vertex, both endpoints of every edge are vertices, and for every
    vertex [v] the sets [pred[v]] and [succ[v]] hold exactly the sources
    of the edges into [v] and the targets of the edges out of [v]. *)
Theorem adjacency_sets_exact (G : Graph.t) (v : Z) :
  constructed G -> is_vertex G v ->
  (forall e, In e (Graph.edge G) ->
             is_vertex G (Edge.u e) /\ is_vertex G (Edge.v e)) /\
  exists l ps ss,
    vget (Graph.vertex G) v = Ret l /\
    vget (Graph.pred G) v = Ret ps /\ vget (Graph.succ G) v = Ret ss /\
    ordered ps /\ ordered ss /\
    (forall u, In u ps <-> adjacent G u v) /\
    (forall w, In w ss <-> adjacent G v w).
Proof.
  intros C Hv. pose proof (constructed_inv G C) as HG.
  split; [apply (gi_range G HG)|].
  destruct (vertex_data G v HG Hv) as (l & _ & _ & ps & ss & Hl & _ & _ & Hp & Hs).
  exists l, ps, ss.
  destruct (gi_pred_spec G HG _ _ Hp) as [Op Ip].
  destruct (gi_succ_spec G HG _ _ Hs) as [Os Is]. auto 10.
Qed.

Lemma adjacency_sets_exact_witness :
  (forall e, In e (Graph.edge G_path_chord) ->
             is_vertex G_path_chord (Edge.u e) /\
             is_vertex G_path_chord (Edge.v e)) /\
  exists l ps ss,
    vget (Graph.vertex G_path_chord) 2 = Ret l /\
    vget (Graph.pred G_path_chord) 2 = Ret ps /\
    vget (Graph.succ G_path_chord) 2 = Ret ss /\
    ordered ps /\ ordered ss /\
    (forall u, In u ps <-> adjacent G_path_chord u 2) /\
    (forall w, In w ss <-> adjacent G_path_chord 2 w).
Proof.
  apply (adjacency_sets_exact G_path_chord 2 G_path_chord_constructed).
  vm_compute. split; congruence.
Defined.

Lemma existsb_hit_out (G : Graph.t) (u mv lab : Z) :
  existsb (hit Edge.v mv lab) (out_list (Graph.edge G) u) = has_edgeb G u mv lab.
Proof.
  apply eq_true_iff_eq. rewrite has_edgeb_spec, existsb_exists. split.
  - intros [e [He H]]. apply In_out_list in He. unfold hit in H.
    apply andb_prop in H. rewrite !Z.eqb_eq in H. exists e. tauto.
  - intros [e [He [Hu [Hv Hl]]]]. exists e. rewrite In_out_list.
    split; [auto|]. unfold hit. rewrite Hv, Hl, !Z.eqb_refl. reflexivity.
Qed.

Lemma existsb_hit_in (G : Graph.t) (v mu lab : Z) :
  existsb (hit Edge.u mu lab) (in_list (Graph.edge G) v) = has_edgeb G mu v lab.
Proof.
  apply eq_true_iff_eq. rewrite has_edgeb_spec, existsb_exists. split.
  - intros [e [He H]]. apply In_in_list in He. unfold hit in H.
    apply andb_prop in H. rewrite !Z.eqb_eq in H. exists e. tauto.
  - intros [e [He [Hu [Hv Hl]]]]. exists e. rewrite In_in_list.
    split; [auto|]. unfold hit. rewrite Hu, Hl, !Z.eqb_refl. reflexivity.
Qed.

(** X4.  In a constructed graph the linked list that starts at
    [head_edge[u]] and follows [next] visits exactly the edges out of
    [u], the newest first, and the one that starts at [rev_head_edge[u]]
    and follows [prev] visits exactly the edges into [u]; so the inner
    loops of [checkPredRule] and [checkSuccRule] end and decide whether
    the graph has an edge with the given endpoints and label. *)
Theorem edge_chains_exact (G : Graph.t) (u : Z) :
  constructed G -> is_vertex G u ->
  exists h rh,
    vget (Graph.head_edge G) u = Ret h /\
    vget (Graph.rev_head_edge G) u = Ret rh /\
    chain Edge.next (Graph.edge G) h (out_list (Graph.edge G) u) /\
    chain Edge.prev (Graph.edge G) rh (in_list (Graph.edge G) u) /\
    (forall w lab, State.find_out (length (Graph.edge G)) G h w lab
                   = Ret (has_edgeb G u w lab)) /\
    (forall w lab, State.find_in (length (Graph.edge G)) G rh w lab
                   = Ret (has_edgeb G w u lab)).
Proof.
  intros C Hu. pose proof (constructed_inv G C) as HG.
  destruct (vertex_data G u HG Hu) as (_ & h & rh & _ & _ & _ & Hh & Hrh & _ & _).
  exists h, rh.
  pose proof (gi_out_chain G HG _ _ Hh) as Co.
  pose proof (gi_in_chain G HG _ _ Hrh) as Ci.
  repeat (split; [assumption|]). split.
  - intros w lab. rewrite <- existsb_hit_out.
    apply find_out_chain; [exact Co | apply length_out_list].
  - intros w lab. rewrite <- existsb_hit_in.
    apply find_in_chain; [exact Ci | apply length_in_list].
Qed.

Lemma edge_chains_exact_witness :
  exists h rh,
    vget (Graph.head_edge G_path_chord) 0 = Ret h /\
    vget (Graph.rev_head_edge G_path_chord) 0 = Ret rh /\
    chain Edge.next (Graph.edge G_path_chord) h
          (out_list (Graph.edge G_path_chord) 0) /\
    chain Edge.prev (Graph.edge G_path_chord) rh
          (in_list (Graph.edge G_path_chord) 0) /\
    (forall w lab, State.find_out (length (Graph.edge G_path_chord))
                     G_path_chord h w lab
                   = Ret (has_edgeb G_path_chord 0 w lab)) /\
    (forall w lab, State.find_in (length (Graph.edge G_path_chord))
                     G_path_chord rh w lab
                   = Ret (has_edgeb G_path_chord w 0 lab)).
Proof.
  apply (edge_chains_exact G_path_chord 0 G_path_chord_constructed).
  vm_compute. split; congruence.
Defined.

(** ** Extension of a state *)

Lemma add_unmapped_range (core nbrs : list Z) :
  forall front front',
  State.add_unmapped core nbrs front = Ret front' ->
  forall u, In u nbrs -> 0 <= u < Z.of_nat (length core).
Proof.
  induction nbrs as [|x nbrs IH]; simpl; intros front front' H u Hu;
    [contradiction|].
  apply bind_Ret in H. destruct H as [c [Hc H]]. destruct Hu as [<-|Hu].
  - eapply vget_range, Hc.
  - eapply IH; eauto.
Qed.

(** X5.  When [addNewPair] returns, the new state maps [n] to [m] and
    [m] to [n], every other slot of the two core arrays is as before, [n]
    and [m] are in [M1] and [M2] and in no frontier set, and the vertex
    count and the mode are unchanged. *)
Theorem addNewPair_records_pair
        (s s' : State.t) (n m : Z) (p1 p2 s1 s2 : list Z) :
  State.addNewPair s n m p1 p2 s1 s2 = Ret s' ->
  vget (State.core_1 s') n = Ret m /\ vget (State.core_2 s') m = Ret n /\
  (forall x, x <> n -> vget (State.core_1 s') x = vget (State.core_1 s) x) /\
  (forall y, y <> m -> vget (State.core_2 s') y = vget (State.core_2 s) y) /\
  (forall x, In x (State.M1 s') <-> x = n \/ In x (State.M1 s)) /\
  (forall y, In y (State.M2 s') <-> y = m \/ In y (State.M2 s)) /\
  ~ In n (State.in_1 s') /\ ~ In n (State.out_1 s') /\
  ~ In m (State.in_2 s') /\ ~ In m (State.out_2 s') /\
  State.vertex_count s' = State.vertex_count s /\
  State.subisomorphism s' = State.subisomorphism s.
Proof.
  intros H. apply addNewPair_Ret in H.
  destruct H as (c1 & c2 & i1 & i2 & o1 & o2 & H1 & H2 & _ & _ & _ & _ & ->).
  destruct (vset_Ret _ _ _ _ H1) as (_ & _ & G1 & O1).
  destruct (vset_Ret _ _ _ _ H2) as (_ & _ & G2 & O2).
  simpl. split; [exact G1|]. split; [exact G2|].
  split; [exact O1|]. split; [exact O2|].
  split; [intros x; apply In_set_insert|].
  split; [intros y; apply In_set_insert|].
  repeat split; rewrite In_erase_if_present; tauto.
Qed.

Lemma addNewPair_records_pair_witness :
  vget (State.core_1 s_in) 3 = Ret 3 /\ vget (State.core_2 s_in) 3 = Ret 3 /\
  (forall x, x <> 3 -> vget (State.core_1 s_in) x
                       = vget (State.core_1 (State.new 4 false)) x) /\
  (forall y, y <> 3 -> vget (State.core_2 s_in) y
                       = vget (State.core_2 (State.new 4 false)) y) /\
  (forall x, In x (State.M1 s_in) <-> x = 3 \/ In x (State.M1 (State.new 4 false))) /\
  (forall y, In y (State.M2 s_in) <-> y = 3 \/ In y (State.M2 (State.new 4 false))) /\
  ~ In 3 (State.in_1 s_in) /\ ~ In 3 (State.out_1 s_in) /\
  ~ In 3 (State.in_2 s_in) /\ ~ In 3 (State.out_2 s_in) /\
  State.vertex_count s_in = State.vertex_count (State.new 4 false) /\
  State.subisomorphism s_in = State.subisomorphism (State.new 4 false).
Proof.
  apply (addNewPair_records_pair (State.new 4 false) s_in 3 3 [0] [0] [1] [1]).
  reflexivity.
Defined.

(** X6.  [addNewPair] runs without fault exactly when [n] and every
    vertex of [pred1] and [succ1] index [core_1], and [m] and every
    vertex of [pred2] and [succ2] index [core_2]; its only fault is an
    access out of range. *)
Theorem addNewPair_returns_iff
        (s : State.t) (n m : Z) (p1 p2 s1 s2 : list Z) :
  ((exists s', State.addNewPair s n m p1 p2 s1 s2 = Ret s') <->
   (forall u, u = n \/ In u p1 \/ In u s1 ->
              0 <= u < Z.of_nat (length (State.core_1 s))) /\
   (forall u, u = m \/ In u p2 \/ In u s2 ->
              0 <= u < Z.of_nat (length (State.core_2 s)))) /\
  (forall e, State.addNewPair s n m p1 p2 s1 s2 = Err e -> e = OutOfBounds).
Proof.
  split; [|intros e; apply addNewPair_Err]. split.
  - intros [s' H]. apply addNewPair_Ret in H.
    destruct H as (c1 & c2 & i1 & i2 & o1 & o2 & H1 & H2 & Hi1 & Hi2 & Ho1
                   & Ho2 & _).
    destruct (vset_Ret _ _ _ _ H1) as (R1 & L1 & _).
    destruct (vset_Ret _ _ _ _ H2) as (R2 & L2 & _).
    split; intros u [->|[Hu|Hu]]; auto.
    + rewrite <- L1. apply (add_unmapped_range _ _ _ _ Hi1), Hu.
    + rewrite <- L1. apply (add_unmapped_range _ _ _ _ Ho1), Hu.
    + rewrite <- L2. apply (add_unmapped_range _ _ _ _ Hi2), Hu.
    + rewrite <- L2. apply (add_unmapped_range _ _ _ _ Ho2), Hu.
  - intros [R1 R2].
    destruct (vset_total (State.core_1 s) n m) as [c1 H1]; [auto|].
    destruct (vset_total (State.core_2 s) m n) as [c2 H2]; [auto|].
    destruct (vset_Ret _ _ _ _ H1) as (_ & L1 & _).
    destruct (vset_Ret _ _ _ _ H2) as (_ & L2 & _).
    destruct (add_unmapped_total c1 p1 (State.in_1 s)) as [i1 Hi1];
      [intros u Hu; rewrite L1; auto|].
    destruct (add_unmapped_total c2 p2 (State.in_2 s)) as [i2 Hi2];
      [intros u Hu; rewrite L2; auto|].
    destruct (add_unmapped_total c1 s1 (State.out_1 s)) as [o1 Ho1];
      [intros u Hu; rewrite L1; auto|].
    destruct (add_unmapped_total c2 s2 (State.out_2 s)) as [o2 Ho2];
      [intros u Hu; rewrite L2; auto|].
    unfold State.addNewPair. rewrite H1, H2. simpl.
    rewrite Hi1, Hi2, Ho1, Ho2. simpl. eauto.
Qed.

(** ** Candidate generation *)

Lemma unmapped_pairs_shape (core : list Z) (m : Z) (k : nat) :
  forall vid P,
  State.unmapped_pairs core m vid k = Ret P ->
  P = map (fun n => (n, m)) (map fst P) /\
  ordered (map fst P) /\
  forall x, In x (map fst P) -> vid <= x.
Proof.
  induction k as [|k IH]; simpl State.unmapped_pairs; intros vid P H.
  - injection H as <-. simpl. split; [reflexivity|].
    split; [constructor | intros x []].
  - apply bind_Ret in H. destruct H as [c [Hc H]].
    apply bind_Ret in H. destruct H as [rest [Hrest H]].
    injection H as <-. apply IH in Hrest. destruct Hrest as (Hm & Ho & Hge).
    destruct (c =? NULL_VIndex); simpl.
    + split; [f_equal; exact Hm|]. split.
      * constructor; [exact Ho|]. apply Forall_forall. intros x Hx.
        specialize (Hge x Hx). lia.
      * intros x [<-|Hx]; [lia|]. specialize (Hge x Hx). lia.
    + split; [exact Hm|]. split; [exact Ho|].
      intros x Hx. specialize (Hge x Hx). lia.
Qed.

Lemma map_fst_pairs (m : Z) (l : list Z) :
  map fst (map (fun n => (n, m)) l) = l.
Proof.
  induction l as [|x l IH]; simpl; [reflexivity|]. rewrite IH. reflexivity.
Qed.

(** X7.  Every list of candidates pairs distinct vertices of [G1], in
    increasing order, with one and the same vertex of [G2]. *)
Theorem genCandiPairSet_one_partner (s : State.t) (P : list (Z * Z)) :
  ordered (State.out_1 s) -> ordered (State.in_1 s) ->
  State.genCandiPairSet s = Ret P ->
  exists m, P = map (fun n => (n, m)) (map fst P) /\ ordered (map fst P).
Proof.
  intros Oo Oi H. unfold State.genCandiPairSet in H.
  destruct (_ && _) in H.
  - injection H as <-. exists (State.max_vid (State.out_2 s)).
    rewrite map_fst_pairs. auto.
  - destruct (_ && _) in H.
    + injection H as <-. exists (State.max_vid (State.in_2 s)).
      rewrite map_fst_pairs. auto.
    + apply bind_Ret in H. destruct H as [r [_ H]].
      apply unmapped_pairs_shape in H. exists r. tauto.
Qed.

Lemma genCandiPairSet_one_partner_witness :
  exists m, [(0, 3); (1, 3); (2, 3); (3, 3)]
            = map (fun n => (n, m)) (map fst [(0, 3); (1, 3); (2, 3); (3, 3)]) /\
            ordered (map fst [(0, 3); (1, 3); (2, 3); (3, 3)]).
Proof.
  apply (genCandiPairSet_one_partner (State.new 4 false)).
  - constructor.
  - constructor.
  - reflexivity.
Defined.

(** X8.  With both "out" sets nonempty the candidates are the vertices
    of [out_1], each paired with the largest vertex of [out_2]; otherwise,
    with both "in" sets nonempty, they are the vertices of [in_1], each
    paired with the largest vertex of [in_2].  Vertex ids in the sets are
    not negative. *)
Theorem genCandiPairSet_frontier (s : State.t) :
  (forall x, In x (State.out_2 s) -> 0 <= x) ->
  (forall x, In x (State.in_2 s) -> 0 <= x) ->
  (State.out_1 s <> [] -> State.out_2 s <> [] ->
   exists m, In m (State.out_2 s) /\
             (forall x, In x (State.out_2 s) -> x <= m) /\
             State.genCandiPairSet s
             = Ret (map (fun n => (n, m)) (State.out_1 s))) /\
  (State.out_1 s = [] \/ State.out_2 s = [] ->
   State.in_1 s <> [] -> State.in_2 s <> [] ->
   exists m, In m (State.in_2 s) /\
             (forall x, In x (State.in_2 s) -> x <= m) /\
             State.genCandiPairSet s
             = Ret (map (fun n => (n, m)) (State.in_1 s))).
Proof.
  intros Po Pi. unfold State.genCandiPairSet. split.
  - intros N1 N2. exists (State.max_vid (State.out_2 s)).
    split; [apply max_vid_In; assumption|]. split; [apply max_vid_ge|].
    destruct (State.out_1 s); [congruence|].
    destruct (State.out_2 s); [congruence|]. reflexivity.
  - intros Hout N1 N2. exists (State.max_vid (State.in_2 s)).
    split; [apply max_vid_In; assumption|]. split; [apply max_vid_ge|].
    assert (E : negb (length (State.out_1 s) =? 0)%nat &&
                negb (length (State.out_2 s) =? 0)%nat = false).
    { destruct Hout as [-> | ->]; simpl; [reflexivity | apply andb_false_r]. }
    rewrite E.
    destruct (State.in_1 s); [congruence|].
    destruct (State.in_2 s); [congruence|]. reflexivity.
Qed.

Lemma genCandiPairSet_frontier_witness :
  (State.out_1 s_in <> [] -> State.out_2 s_in <> [] ->
   exists m, In m (State.out_2 s_in) /\
             (forall x, In x (State.out_2 s_in) -> x <= m) /\
             State.genCandiPairSet s_in
             = Ret (map (fun n => (n, m)) (State.out_1 s_in))) /\
  (State.out_1 s_in = [] \/ State.out_2 s_in = [] ->
   State.in_1 s_in <> [] -> State.in_2 s_in <> [] ->
   exists m, In m (State.in_2 s_in) /\
             (forall x, In x (State.in_2 s_in) -> x <= m) /\
             State.genCandiPairSet s_in
             = Ret (map (fun n => (n, m)) (State.in_1 s_in))).
Proof.
  apply (genCandiPairSet_frontier s_in).
  - intros x Hx. vm_compute in Hx. destruct Hx as [<-|[]]. lia.
  - intros x Hx. vm_compute in Hx. destruct Hx as [<-|[]]. lia.
Defined.

(** ** The look-ahead rules *)

Lemma complementary_from_ordered (core inn out : list Z) (k : nat) :
  forall vid r,
  State.complementary_from core inn out vid k = Ret r ->
  ordered r /\ forall x, In x r -> vid <= x.
Proof.
  induction k as [|k IH]; simpl State.complementary_from; intros vid r H.
  - injection H as <-. split; [constructor | intros x []].
  - apply bind_Ret in H. destruct H as [c [Hc H]].
    apply bind_Ret in H. destruct H as [rest [Hrest H]].
    injection H as <-. apply IH in Hrest. destruct Hrest as [Ho Hge].
    destruct (_ && _).
    + split.
      * constructor; [exact Ho|]. apply Forall_forall. intros x Hx.
        specialize (Hge x Hx). lia.
      * intros x [<-|Hx]; [lia|]. specialize (Hge x Hx). lia.
    + split; [exact Ho|]. intros x Hx. specialize (Hge x Hx). lia.
Qed.

Lemma complementary_from_short (core inn out : list Z) (k : nat) :
  forall vid, 0 <= vid <= Z.of_nat (length core) ->
  Z.of_nat (length core) < vid + Z.of_nat k ->
  State.complementary_from core inn out vid k = Err OutOfBounds.
Proof.
  induction k as [|k IH]; simpl; intros vid R H; [lia|].
  destruct (vget core vid) as [c|e] eqn:Hc; simpl.
  - apply vget_range in Hc. rewrite IH; [reflexivity|lia|lia].
  - apply vget_Err in Hc. destruct Hc as [-> _]. reflexivity.
Qed.

(** X9.  [genComplementary] returns, in increasing order, the ids below
    [count] whose core slot is unmapped and that are in neither of the two
    sets; it reads [core[vid]] for every [vid < count] and so needs a core
    array of at least [count] slots. *)
Theorem genComplementary_spec (count : Z) (core inn out : list Z) :
  (count <= Z.of_nat (length core) ->
   exists r, State.genComplementary count core inn out = Ret r /\
             ordered r /\
             forall x, In x r <->
                       0 <= x < count /\ unmapped core x /\
                       ~ In x inn /\ ~ In x out) /\
  (Z.of_nat (length core) < count ->
   State.genComplementary count core inn out = Err OutOfBounds).
Proof.
  unfold State.genComplementary. split.
  - intros Hle.
    destruct (complementary_from_total core inn out (Z.to_nat count) 0)
      as [r Hr]; [lia|lia|].
    exists r. split; [exact Hr|].
    split; [eapply complementary_from_ordered, Hr|].
    apply complementary_from_Ret in Hr; [|lia]. destruct Hr as [_ Hr].
    intros x. rewrite Hr. split; intros [R H]; (split; [lia|exact H]).
  - intros Hlt. apply complementary_from_short; lia.
Qed.

Lemma genComplementary_spec_witness :
  exists r, State.genComplementary 4 (State.core_2 s_in) (State.in_2 s_in)
              (State.out_2 s_in) = Ret r /\
            ordered r /\
            forall x, In x r <->
                      0 <= x < 4 /\ unmapped (State.core_2 s_in) x /\
                      ~ In x (State.in_2 s_in) /\ ~ In x (State.out_2 s_in).
Proof.
  apply (proj1 (genComplementary_spec 4 (State.core_2 s_in) (State.in_2 s_in)
                  (State.out_2 s_in))).
  vm_compute. congruence.
Defined.

(** X10.  [set_intersection_size] is the size of the intersection: it is
    at most the size of either set and does not depend on the order of
    its two arguments. *)
Theorem set_intersection_size_sym (a b : list Z) :
  ordered a -> ordered b ->
  State.set_intersection_size a b = State.set_intersection_size b a /\
  0 <= State.set_intersection_size a b <= Z.of_nat (length a).
Proof.
  intros Oa Ob. unfold State.set_intersection_size. split.
  - f_equal. apply Permutation_length, NoDup_Permutation.
    + apply NoDup_filter, ordered_NoDup, Oa.
    + apply NoDup_filter, ordered_NoDup, Ob.
    + intros x. rewrite !filter_In, !set_mem_In. tauto.
  - pose proof (filter_length_le (fun k => set_mem k b) a). lia.
Qed.

Lemma set_intersection_size_sym_witness :
  State.set_intersection_size [0; 2; 3] [2; 3; 5]
  = State.set_intersection_size [2; 3; 5] [0; 2; 3] /\
  0 <= State.set_intersection_size [0; 2; 3] [2; 3; 5]
    <= Z.of_nat (length [0; 2; 3]).
Proof.
  apply (set_intersection_size_sym [0; 2; 3] [2; 3; 5]).
  - repeat constructor.
  - repeat constructor.
Defined.

Lemma neighbour_sets (G : Graph.t) (u : Z) :
  graph_inv G -> is_vertex G u ->
  exists p s, vget (Graph.pred G) u = Ret p /\ vget (Graph.succ G) u = Ret s.
Proof.
  intros HG Hu.
  destruct (vertex_data G u HG Hu) as (_ & _ & _ & p & s & _ & _ & _ & Hp & Hs).
  eauto.
Qed.

Lemma succ_not_vertex (G : Graph.t) (u : Z) :
  graph_inv G -> ~ is_vertex G u -> vget (Graph.succ G) u = Err OutOfBounds.
Proof.
  intros HG N. destruct (vget (Graph.succ G) u) as [x|e] eqn:E.
  - exfalso. apply N. eapply vget_is_vertex; [exact HG| |exact E].
    apply (gi_succ G HG).
  - apply vget_Err in E. destruct E as [-> _]. reflexivity.
Qed.

(** X11.  What [checkInRule] computes.  On constructed graphs and a pair
    of vertices it returns, in exact mode, whether [a = b], and in
    subgraph mode whether [a <= b] and [c = d], for the four cardinalities
    [a = |in_1 ∩ succ1(n)|], [b = |in_2 ∩ succ2(m)|],
    [c = |in_1 ∩ pred1(n)|], [d = |in_2 ∩ pred2(m)|]; on anything else
    than a pair of vertices it reads a vector of a graph out of range. *)
Theorem checkInRule_computes (s : State.t) (G1 G2 : Graph.t) (n m : Z) :
  constructed G1 -> constructed G2 ->
  (is_vertex G1 n -> is_vertex G2 m ->
   exists s1 s2 p1 p2,
     vget (Graph.succ G1) n = Ret s1 /\ vget (Graph.succ G2) m = Ret s2 /\
     vget (Graph.pred G1) n = Ret p1 /\ vget (Graph.pred G2) m = Ret p2 /\
     State.checkInRule s G1 G2 n m =
     Ret (in_lookahead (State.subisomorphism s)
            (State.set_intersection_size (State.in_1 s) s1)
            (State.set_intersection_size (State.in_2 s) s2)
            (State.set_intersection_size (State.in_1 s) p1)
            (State.set_intersection_size (State.in_2 s) p2))) /\
  (~ (is_vertex G1 n /\ is_vertex G2 m) ->
   State.checkInRule s G1 G2 n m = Err OutOfBounds).
Proof.
  intros C1 C2. pose proof (constructed_inv G1 C1) as H1.
  pose proof (constructed_inv G2 C2) as H2. split.
  - intros Vn Vm.
    destruct (neighbour_sets G1 n H1 Vn) as (p1 & s1 & Hp1 & Hs1).
    destruct (neighbour_sets G2 m H2 Vm) as (p2 & s2 & Hp2 & Hs2).
    exists s1, s2, p1, p2. repeat (split; [assumption|]).
    apply checkInRule_value; assumption.
  - intros N. unfold State.checkInRule.
    destruct (vget (Graph.succ G1) n) as [s1|e] eqn:Hs1; simpl.
    + rewrite (succ_not_vertex G2 m H2); [reflexivity|].
      intros Vm. apply N. split; [|exact Vm].
      eapply vget_is_vertex; [exact H1| |exact Hs1]. apply (gi_succ G1 H1).
    + apply vget_Err in Hs1. destruct Hs1 as [-> _]. reflexivity.
Qed.

Lemma checkInRule_computes_witness :
  (is_vertex G_sub_1 1 -> is_vertex G_sub_2 1 ->
   exists s1 s2 p1 p2,
     vget (Graph.succ G_sub_1) 1 = Ret s1 /\ vget (Graph.succ G_sub_2) 1 = Ret s2 /\
     vget (Graph.pred G_sub_1) 1 = Ret p1 /\ vget (Graph.pred G_sub_2) 1 = Ret p2 /\
     State.checkInRule s_sub G_sub_1 G_sub_2 1 1 =
     Ret (in_lookahead (State.subisomorphism s_sub)
            (State.set_intersection_size (State.in_1 s_sub) s1)
            (State.set_intersection_size (State.in_2 s_sub) s2)
            (State.set_intersection_size (State.in_1 s_sub) p1)
            (State.set_intersection_size (State.in_2 s_sub) p2))) /\
  (~ (is_vertex G_sub_1 1 /\ is_vertex G_sub_2 1) ->
   State.checkInRule s_sub G_sub_1 G_sub_2 1 1 = Err OutOfBounds).
Proof.
  apply (checkInRule_computes s_sub G_sub_1 G_sub_2 1 1
           G_sub_1_constructed G_sub_2_constructed).
Defined.

(** X12.  What [checkOutRule] computes.  On constructed graphs and a
    pair of vertices it returns, in exact mode, whether [a = b] and
    [c = d], and in subgraph mode whether [a <= b] and [c <= d], for
    [a = |out_1 ∩ succ1(n)|], [b = |out_2 ∩ succ2(m)|],
    [c = |out_1 ∩ pred1(n)|], [d = |out_2 ∩ pred2(m)|]; on anything else
    than a pair of vertices it reads a vector of a graph out of range. *)
Theorem checkOutRule_computes (s : State.t) (G1 G2 : Graph.t) (n m : Z) :
  constructed G1 -> constructed G2 ->
  (is_vertex G1 n -> is_vertex G2 m ->
   exists s1 s2 p1 p2,
     vget (Graph.succ G1) n = Ret s1 /\ vget (Graph.succ G2) m = Ret s2 /\
     vget (Graph.pred G1) n = Ret p1 /\ vget (Graph.pred G2) m = Ret p2 /\
     State.checkOutRule s G1 G2 n m =
     Ret (lookahead (State.subisomorphism s)
            (State.set_intersection_size (State.out_1 s) s1)
            (State.set_intersection_size (State.out_2 s) s2)
            (State.set_intersection_size (State.out_1 s) p1)
            (State.set_intersection_size (State.out_2 s) p2))) /\
  (~ (is_vertex G1 n /\ is_vertex G2 m) ->
   State.checkOutRule s G1 G2 n m = Err OutOfBounds).
Proof.
  intros C1 C2. pose proof (constructed_inv G1 C1) as H1.
  pose proof (constructed_inv G2 C2) as H2. split.
  - intros Vn Vm.
    destruct (neighbour_sets G1 n H1 Vn) as (p1 & s1 & Hp1 & Hs1).
    destruct (neighbour_sets G2 m H2 Vm) as (p2 & s2 & Hp2 & Hs2).
    exists s1, s2, p1, p2. repeat (split; [assumption|]).
    apply checkOutRule_value; assumption.
  - intros N. unfold State.checkOutRule.
    destruct (vget (Graph.succ G1) n) as [s1|e] eqn:Hs1; simpl.
    + rewrite (succ_not_vertex G2 m H2); [reflexivity|].
      intros Vm. apply N. split; [|exact Vm].
      eapply vget_is_vertex; [exact H1| |exact Hs1]. apply (gi_succ G1 H1).
    + apply vget_Err in Hs1. destruct Hs1 as [-> _]. reflexivity.
Qed.

Lemma checkOutRule_computes_witness :
  (is_vertex G_in_1 1 -> is_vertex G_in_2 1 ->
   exists s1 s2 p1 p2,
     vget (Graph.succ G_in_1) 1 = Ret s1 /\ vget (Graph.succ G_in_2) 1 = Ret s2 /\
     vget (Graph.pred G_in_1) 1 = Ret p1 /\ vget (Graph.pred G_in_2) 1 = Ret p2 /\
     State.checkOutRule s_in G_in_1 G_in_2 1 1 =
     Ret (lookahead (State.subisomorphism s_in)
            (State.set_intersection_size (State.out_1 s_in) s1)
            (State.set_intersection_size (State.out_2 s_in) s2)
            (State.set_intersection_size (State.out_1 s_in) p1)
            (State.set_intersection_size (State.out_2 s_in) p2))) /\
  (~ (is_vertex G_in_1 1 /\ is_vertex G_in_2 1) ->
   State.checkOutRule s_in G_in_1 G_in_2 1 1 = Err OutOfBounds).
Proof.
  apply (checkOutRule_computes s_in G_in_1 G_in_2 1 1
           G_in_1_constructed G_in_2_constructed).
Defined.

(** X13.  What [checkNewRule] computes.  With core arrays that cover the
    two graphs, on a pair of vertices, it compares the numbers of
    predecessors and of successors of [n] and of [m] among the vertices
    that are unmapped and in no frontier set of their side: equal in
    exact mode, at most as many on the side of [G1] in subgraph mode. *)
Theorem checkNewRule_computes (s : State.t) (G1 G2 : Graph.t) (n m : Z) :
  constructed G1 -> constructed G2 ->
  Graph.vertex_count G1 <= Z.of_nat (length (State.core_1 s)) ->
  Graph.vertex_count G2 <= Z.of_nat (length (State.core_2 s)) ->
  is_vertex G1 n -> is_vertex G2 m ->
  exists N1 N2 s1 s2 p1 p2,
    (forall x, In x N1 <-> is_vertex G1 x /\ unmapped (State.core_1 s) x /\
                           ~ In x (State.in_1 s) /\ ~ In x (State.out_1 s)) /\
    (forall x, In x N2 <-> is_vertex G2 x /\ unmapped (State.core_2 s) x /\
                           ~ In x (State.in_2 s) /\ ~ In x (State.out_2 s)) /\
    vget (Graph.succ G1) n = Ret s1 /\ vget (Graph.succ G2) m = Ret s2 /\
    vget (Graph.pred G1) n = Ret p1 /\ vget (Graph.pred G2) m = Ret p2 /\
    State.checkNewRule s G1 G2 n m =
    Ret (lookahead (State.subisomorphism s)
           (State.set_intersection_size p1 N1)
           (State.set_intersection_size p2 N2)
           (State.set_intersection_size s1 N1)
           (State.set_intersection_size s2 N2)).
Proof.
  intros C1 C2 L1 L2 Vn Vm. pose proof (constructed_inv G1 C1) as H1.
  pose proof (constructed_inv G2 C2) as H2.
  destruct (neighbour_sets G1 n H1 Vn) as (p1 & s1 & Hp1 & Hs1).
  destruct (neighbour_sets G2 m H2 Vm) as (p2 & s2 & Hp2 & Hs2).
  destruct (proj1 (genComplementary_spec (Graph.vertex_count G1)
              (State.core_1 s) (State.in_1 s) (State.out_1 s)) L1)
    as (N1 & HN1 & _ & IN1).
  destruct (proj1 (genComplementary_spec (Graph.vertex_count G2)
              (State.core_2 s) (State.in_2 s) (State.out_2 s)) L2)
    as (N2 & HN2 & _ & IN2).
  exists N1, N2, s1, s2, p1, p2.
  split; [exact IN1|]. split; [exact IN2|].
  repeat (split; [assumption|]).
  apply checkNewRule_value; assumption.
Qed.

Lemma checkNewRule_computes_witness :
  exists N1 N2 s1 s2 p1 p2,
    (forall x, In x N1 <-> is_vertex G_in_1 x /\ unmapped (State.core_1 s_in) x /\
                           ~ In x (State.in_1 s_in) /\ ~ In x (State.out_1 s_in)) /\
    (forall x, In x N2 <-> is_vertex G_in_2 x /\ unmapped (State.core_2 s_in) x /\
                           ~ In x (State.in_2 s_in) /\ ~ In x (State.out_2 s_in)) /\
    vget (Graph.succ G_in_1) 1 = Ret s1 /\ vget (Graph.succ G_in_2) 1 = Ret s2 /\
    vget (Graph.pred G_in_1) 1 = Ret p1 /\ vget (Graph.pred G_in_2) 1 = Ret p2 /\
    State.checkNewRule s_in G_in_1 G_in_2 1 1 =
    Ret (lookahead (State.subisomorphism s_in)
           (State.set_intersection_size p1 N1)
           (State.set_intersection_size p2 N2)
           (State.set_intersection_size s1 N1)
           (State.set_intersection_size s2 N2)).
Proof.
  apply (checkNewRule_computes s_in G_in_1 G_in_2 1 1
           G_in_1_constructed G_in_2_constructed).
  - vm_compute. congruence.
  - vm_compute. congruence.
  - vm_compute. split; congruence.
  - vm_compute. split; congruence.
Defined.

(** ** The edge rules *)

(** X14.  [checkPredRule], on constructed graphs, a state of the data
    model and a pair of vertices, returns without fault, and returns true
    exactly when every edge from [n] to a mapped vertex [v] of [G1] has an
    edge of the same label from [m] to the image of [v] in [G2], and every
    mapped predecessor of [m] in [G2] is the image of a predecessor of [n]
    in [G1]. *)
Theorem checkPredRule_iff (s : State.t) (G1 G2 : Graph.t) (n m : Z) :
  constructed G1 -> constructed G2 -> state_inv G1 G2 s ->
  is_vertex G1 n -> is_vertex G2 m ->
  (exists b, State.checkPredRule s G1 G2 n m = Ret b) /\
  (State.checkPredRule s G1 G2 n m = Ret true <->
   (forall v l mv, has_edge G1 n v l -> mapped (State.core_1 s) v mv ->
                   has_edge G2 m mv l) /\
   (forall v2 v1, adjacent G2 v2 m -> mapped (State.core_2 s) v2 v1 ->
                  adjacent G1 v1 n)).
Proof.
  intros C1 C2 HS Vn Vm. pose proof (constructed_inv G1 C1) as H1.
  pose proof (constructed_inv G2 C2) as H2.
  pose proof (si_base _ _ _ HS) as B.
  split; [apply checkPredRule_total; assumption|]. split.
  - intros H. destruct (checkPredRule_true s G1 G2 n m H1 H2 H) as [Hf Hb].
    split; [exact Hf|]. intros v2 v1 Ha Hm. eapply Hb; eauto.
    apply (bi_M2 s B). eauto.
  - intros [Hf Hb].
    destruct (vertex_data G1 n H1 Vn) as (_ & h1 & _ & p1 & _ & _ & Hh1 & _ & Hp1 & _).
    destruct (vertex_data G2 m H2 Vm) as (_ & h2 & _ & p2 & _ & _ & Hh2 & _ & Hp2 & _).
    rewrite checkPredRule_lists by assumption. rewrite Hh1. simpl.
    rewrite edges_ok_complete.
    + simpl. rewrite Hp2, Hp1. simpl. apply mapped_back_complete.
      intros v2 Hv2. apply In_set_intersection in Hv2. destruct Hv2 as [HM Hp].
      apply (bi_M2 s B) in HM. destruct HM as [v1 Hv1]. exists v1.
      split; [exact Hv1|].
      apply (gi_pred_spec G1 H1 _ _ Hp1). apply (Hb v2 v1); [|exact Hv1].
      apply (gi_pred_spec G2 H2 _ _ Hp2), Hp.
    + intros e He. apply In_out_list in He. destruct He as [He Eu].
      destruct (gi_range G1 H1 e He) as [_ Vv].
      destruct (core_1_total G1 G2 s _ HS Vv) as [x Hx].
      destruct (vget_mapped_or_unmapped _ _ _ Hx) as [|Mx]; [auto|].
      right. exists x. split; [exact Mx|]. apply found_in_true.
      split; [eauto|].
      destruct (Hf (Edge.v e) (Edge.label e) x) as [e2 [He2 [Eu2 [Ev2 El2]]]].
      * exists e. auto.
      * exact Mx.
      * exists e2. rewrite In_out_list. auto.
Qed.

Lemma checkPredRule_iff_witness :
  (exists b, State.checkPredRule s_in G_in_1 G_in_2 1 1 = Ret b) /\
  (State.checkPredRule s_in G_in_1 G_in_2 1 1 = Ret true <->
   (forall v l mv, has_edge G_in_1 1 v l -> mapped (State.core_1 s_in) v mv ->
                   has_edge G_in_2 1 mv l) /\
   (forall v2 v1, adjacent G_in_2 v2 1 -> mapped (State.core_2 s_in) v2 v1 ->
                  adjacent G_in_1 v1 1)).
Proof.
  apply (checkPredRule_iff s_in G_in_1 G_in_2 1 1
           G_in_1_constructed G_in_2_constructed s_in_state_inv).
  - vm_compute. split; congruence.
  - vm_compute. split; congruence.
Defined.

(** X15.  [checkSuccRule], on constructed graphs, a state of the data
    model and a pair of vertices, returns without fault, and returns true
    exactly when every edge from a mapped vertex [u] of [G1] to [n] has an
    edge of the same label from the image of [u] to [m] in [G2], and every
    mapped successor of [m] in [G2] is the image of a successor of [n] in
    [G1]. *)
Theorem checkSuccRule_iff (s : State.t) (G1 G2 : Graph.t) (n m : Z) :
  constructed G1 -> constructed G2 -> state_inv G1 G2 s ->
  is_vertex G1 n -> is_vertex G2 m ->
  (exists b, State.checkSuccRule s G1 G2 n m = Ret b) /\
  (State.checkSuccRule s G1 G2 n m = Ret true <->
   (forall u l mu, has_edge G1 u n l -> mapped (State.core_1 s) u mu ->
                   has_edge G2 mu m l) /\
   (forall v2 v1, adjacent G2 m v2 -> mapped (State.core_2 s) v2 v1 ->
                  adjacent G1 n v1)).
Proof.
  intros C1 C2 HS Vn Vm. pose proof (constructed_inv G1 C1) as H1.
  pose proof (constructed_inv G2 C2) as H2.
  pose proof (si_base _ _ _ HS) as B.
  split; [apply checkSuccRule_total; assumption|]. split.
  - intros H. destruct (checkSuccRule_true s G1 G2 n m H1 H2 H) as [Hf Hb].
    split; [exact Hf|]. intros v2 v1 Ha Hm. eapply Hb; eauto.
    apply (bi_M2 s B). eauto.
  - intros [Hf Hb].
    destruct (vertex_data G1 n H1 Vn) as (_ & _ & h1 & _ & s1 & _ & _ & Hh1 & _ & Hs1).
    destruct (vertex_data G2 m H2 Vm) as (_ & _ & h2 & _ & s2 & _ & _ & Hh2 & _ & Hs2).
    rewrite checkSuccRule_lists by assumption. rewrite Hh1. simpl.
    rewrite edges_ok_complete.
    + simpl. rewrite Hs2, Hs1. simpl. apply mapped_back_complete.
      intros v2 Hv2. apply In_set_intersection in Hv2. destruct Hv2 as [HM Hp].
      apply (bi_M2 s B) in HM. destruct HM as [v1 Hv1]. exists v1.
      split; [exact Hv1|].
      apply (gi_succ_spec G1 H1 _ _ Hs1). apply (Hb v2 v1); [|exact Hv1].
      apply (gi_succ_spec G2 H2 _ _ Hs2), Hp.
    + intros e He. apply In_in_list in He. destruct He as [He Ev].
      destruct (gi_range G1 H1 e He) as [Vu _].
      destruct (core_1_total G1 G2 s _ HS Vu) as [x Hx].
      destruct (vget_mapped_or_unmapped _ _ _ Hx) as [|Mx]; [auto|].
      right. exists x. split; [exact Mx|]. apply found_in_true.
      split; [eauto|].
      destruct (Hf (Edge.u e) (Edge.label e) x) as [e2 [He2 [Eu2 [Ev2 El2]]]].
      * exists e. auto.
      * exact Mx.
      * exists e2. rewrite In_in_list. auto.
Qed.

Lemma checkSuccRule_iff_witness :
  (exists b, State.checkSuccRule s_in G_in_1 G_in_2 1 1 = Ret b) /\
  (State.checkSuccRule s_in G_in_1 G_in_2 1 1 = Ret true <->
   (forall u l mu, has_edge G_in_1 u 1 l -> mapped (State.core_1 s_in) u mu ->
                   has_edge G_in_2 mu 1 l) /\
   (forall v2 v1, adjacent G_in_2 1 v2 -> mapped (State.core_2 s_in) v2 v1 ->
                  adjacent G_in_1 1 v1)).
Proof.
  apply (checkSuccRule_iff s_in G_in_1 G_in_2 1 1
           G_in_1_constructed G_in_2_constructed s_in_state_inv).
  - vm_compute. split; congruence.
  - vm_compute. split; congruence.
Defined.

(** ** The search as a whole *)

(** X16.  On graphs with the same number of vertices every state of the
    search, empty or reached by accepted extensions, satisfies the
    invariants of the data model, and its partial mapping preserves
    vertex labels, carries edges between distinct mapped vertices of [G1]
    to edges of the same label and reflects adjacency between distinct
    mapped vertices of [G2]. *)
Theorem reachable_invariants (G1 G2 : Graph.t) (sub : bool) (s : State.t) :
  constructed G1 -> constructed G2 ->
  Graph.vertex_count G1 = Graph.vertex_count G2 ->
  reachable G1 G2 sub s ->
  state_inv G1 G2 s /\ frontiers_disjoint s /\ consistent G1 G2 s.
Proof.
  intros C1 C2 EN Hr. pose proof (constructed_inv G1 C1) as H1.
  pose proof (constructed_inv G2 C2) as H2.
  assert (H : state_inv G1 G2 s /\ consistent G1 G2 s).
  { induction Hr as [|s s' _ IH Hext].
    - split; [apply new_state_inv; assumption | apply new_consistent].
    - destruct IH as [HS HC]. split.
      + eapply extends_state_inv; eauto.
      + eapply extends_consistent; eauto using si_base, state_inv_sized. }
  destruct H as [HS HC]. split; [exact HS|]. split; [|exact HC].
  apply base_inv_disjoint, (si_base _ _ _ HS).
Qed.

Lemma reachable_invariants_witness :
  state_inv G_in_1 G_in_2 s_in /\ frontiers_disjoint s_in /\
  consistent G_in_1 G_in_2 s_in.
Proof.
  apply (reachable_invariants G_in_1 G_in_2 false s_in
           G_in_1_constructed G_in_2_constructed).
  - reflexivity.
  - apply s_in_reachable.
Defined.

(** X17.  On constructed graphs [isomorphism] returns an answer: no
    vector is read or written out of range and no assertion fails.  The
    same holds for [subisomorphism] on graphs with the same number of
    vertices. *)
Theorem isomorphism_returns (G1 G2 : Graph.t) :
  constructed G1 -> constructed G2 ->
  (exists b, isomorphism G1 G2 = Ret b) /\
  (Graph.vertex_count G1 = Graph.vertex_count G2 ->
   exists b, subisomorphism G1 G2 = Ret b).
Proof.
  intros C1 C2. pose proof (constructed_inv G1 C1) as H1.
  pose proof (constructed_inv G2 C2) as H2.
  assert (T : forall sub, Graph.vertex_count G1 = Graph.vertex_count G2 ->
              exists b, solve (depth G1) G1 G2
                          (State.new (Graph.vertex_count G1) sub) = Ret b).
  { intros sub EN. apply solve_total; auto.
    - apply new_state_inv; assumption.
    - unfold depth. simpl. lia. }
  split.
  - unfold isomorphism.
    destruct (Z.eqb_spec (Graph.vertex_count G1) (Graph.vertex_count G2));
      cbn [negb]; [|eauto].
    destruct (Graph.edge_count G1 =? Graph.edge_count G2); cbn [negb]; eauto.
  - intros EN. unfold subisomorphism.
    destruct (_ >? _); [eauto|]. destruct (_ >? _); eauto.
Qed.

Lemma isomorphism_returns_witness :
  (exists b, isomorphism G_in_1 G_in_2 = Ret b) /\
  (Graph.vertex_count G_in_1 = Graph.vertex_count G_in_2 ->
   exists b, subisomorphism G_in_1 G_in_2 = Ret b).
Proof.
  apply (isomorphism_returns G_in_1 G_in_2
           G_in_1_constructed G_in_2_constructed).
Defined.

(** X18.  [isomorphism] finds every strong match: with equal numbers of
    vertices and of edges, if a label-preserving bijection of the
    vertices carries every labelled edge of [G1] to an edge of [G2] with
    the same label, and [G2] has no edge between the images of vertices
    that are not adjacent in [G1], then [isomorphism G1 G2] returns true.
    Pairing the candidates with one vertex of [G2] only loses no such
    match. *)
Theorem isomorphism_complete (G1 G2 : Graph.t) (phi psi : Z -> Z) :
  constructed G1 -> constructed G2 ->
  Graph.vertex_count G1 = Graph.vertex_count G2 ->
  Graph.edge_count G1 = Graph.edge_count G2 ->
  vertex_bijection G1 G2 phi psi -> label_preserving G1 G2 phi ->
  edges_preserved G1 G2 phi -> induced G1 G2 phi ->
  isomorphism G1 G2 = Ret true.
Proof.
  intros C1 C2 EN EE Hbij Hlab Hp Hind. unfold isomorphism.
  rewrite EN, EE, !Z.eqb_refl. cbn [negb]. rewrite <- EN.
  apply (solve_finds G1 G2 phi psi); auto using constructed_inv.
Qed.

Lemma isomorphism_complete_witness :
  isomorphism G_edge G_edge = Ret true.
Proof.
  apply (isomorphism_complete G_edge G_edge (fun u => u) (fun u => u)
           G_edge_constructed G_edge_constructed).
  - reflexivity.
  - reflexivity.
  - split; intros u Hu; (split; [exact Hu | reflexivity]).
  - intros u [Hlo Hhi]. change (Graph.vertex_count G_edge) with 2 in Hhi.
    assert (Hu : u = 0 \/ u = 1) by lia.
    destruct Hu as [-> | ->]; eexists; split; reflexivity.
  - intros u v l He. exact He.
  - intros u v _ _ Ha. exact Ha.
Defined.

(** X19.  When [subisomorphism] returns true, the match it has found is
    an induced one: there is an injective label-preserving map of the
    vertices of [G1] that carries the edges between distinct vertices of
    [G1] to edges of [G2] with the same label, and [G2] has no edge
    between the images of two distinct vertices that are not adjacent in
    [G1]. *)
Theorem subisomorphism_true_induced (G1 G2 : Graph.t) :
  constructed G1 -> constructed G2 ->
  subisomorphism G1 G2 = Ret true ->
  exists phi,
    vertex_injection G1 G2 phi /\ label_preserving G1 G2 phi /\
    edges_preserved_off_loops G1 G2 phi /\ adjacency_reflected G1 G2 phi.
Proof.
  intros C1 C2 H. pose proof (constructed_inv G1 C1) as H1.
  pose proof (constructed_inv G2 C2) as H2. unfold subisomorphism in H.
  destruct (Z.gtb_spec (Graph.vertex_count G1) (Graph.vertex_count G2))
    as [|Hle]; [discriminate|].
  destruct (_ >? _) in H; [discriminate|].
  destruct (Z.eq_dec (Graph.vertex_count G1) (Graph.vertex_count G2)) as [E|N].
  - destruct (solve_sound G1 G2 true H1 H2 E H) as (phi & psi & Hb & Hl & He & Ha).
    exists phi. eauto using bijection_injection.
  - apply solve_short_core_2 in H.
    + simpl in H. exists (fun u => u).
      assert (Hno : forall u, ~ is_vertex G1 u)
        by (unfold is_vertex; intros u; lia).
      split; [split|split; [|split]].
      * intros u Hu. destruct (Hno u Hu).
      * intros u v Hu. destruct (Hno u Hu).
      * intros u Hu. destruct (Hno u Hu).
      * intros u v l _ [e [He [<- _]]].
        destruct (Hno (Edge.u e)). apply (gi_range G1 H1), He.
      * intros u v Hu. destruct (Hno u Hu).
    + simpl. rewrite repeat_length. pose proof (gi_vcount G1 H1). lia.
Qed.

Lemma subisomorphism_true_induced_witness :
  exists phi,
    vertex_injection G_twin G_mixed phi /\ label_preserving G_twin G_mixed phi /\
    edges_preserved_off_loops G_twin G_mixed phi /\
    adjacency_reflected G_twin G_mixed phi.
Proof.
  apply (subisomorphism_true_induced G_twin G_mixed
           G_twin_constructed G_mixed_constructed).
  vm_compute. reflexivity.
Defined.

Lemma no_vertex_no_edge (G : Graph.t) :
  graph_inv G -> Graph.vertex_count G = 0 -> Graph.edge_count G = 0.
Proof.
  intros HG Hv. rewrite (gi_ecount G HG).
  destruct (Graph.edge G) as [|e es] eqn:E; [reflexivity|].
  destruct (gi_range G HG e) as [[Hlo Hhi] _]; [rewrite E; left; reflexivity|].
  lia.
Qed.

(** X20.  The empty query: when [G1] has no vertex, [subisomorphism G1 G2]
    returns true for every constructed [G2], and [isomorphism G1 G2]
    returns whether [G2] has no vertex either. *)
Theorem empty_query_matches (G1 G2 : Graph.t) :
  constructed G1 -> constructed G2 ->
  Graph.vertex_count G1 = 0 ->
  subisomorphism G1 G2 = Ret true /\
  isomorphism G1 G2 = Ret (Graph.vertex_count G2 =? 0).
Proof.
  intros C1 C2 Hv. pose proof (constructed_inv G1 C1) as H1.
  pose proof (constructed_inv G2 C2) as H2.
  pose proof (no_vertex_no_edge G1 H1 Hv) as He.
  pose proof (gi_vcount G2 H2) as Hv2. pose proof (gi_ecount G2 H2) as He2.
  split.
  - unfold subisomorphism. rewrite Hv, He.
    destruct (Z.gtb_spec 0 (Graph.vertex_count G2)); [lia|].
    destruct (Z.gtb_spec 0 (Graph.edge_count G2)); [lia|]. reflexivity.
  - unfold isomorphism. rewrite Hv, He. rewrite (Z.eqb_sym 0).
    destruct (Z.eqb_spec (Graph.vertex_count G2) 0) as [E|N]; cbn [negb];
      [|reflexivity].
    rewrite (no_vertex_no_edge G2 H2 E). reflexivity.
Qed.

Lemma empty_query_matches_witness :
  subisomorphism Graph.initial G_two = Ret true /\
  isomorphism Graph.initial G_two = Ret (Graph.vertex_count G_two =? 0).
Proof.
  apply (empty_query_matches Graph.initial G_two constructed_initial
           G_two_constructed).
  reflexivity.
Defined.

(** X21.  The answer of [solve] does not depend on the order in which the
    candidates are tried: on graphs with the same number of vertices and a
    state of the data model, [solve] returns true exactly when the state
    maps every vertex of [G1] or [solve] returns true on the state built
    for some accepted candidate. *)
Theorem solve_true_iff (G1 G2 : Graph.t) (s : State.t) (fuel : nat) :
  constructed G1 -> constructed G2 ->
  Graph.vertex_count G1 = Graph.vertex_count G2 ->
  state_inv G1 G2 s ->
  (Z.to_nat (Graph.vertex_count G1) - length (State.M1 s) <= fuel)%nat ->
  (solve (S fuel) G1 G2 s = Ret true <->
   Z.of_nat (length (State.M1 s)) = State.vertex_count s \/
   exists s', extends G1 G2 s s' /\ solve fuel G1 G2 s' = Ret true).
Proof.
  intros C1 C2 EN HS Hf. pose proof (constructed_inv G1 C1) as H1.
  pose proof (constructed_inv G2 C2) as H2.
  pose proof (si_base _ _ _ HS) as B.
  pose proof (state_inv_sized _ _ _ EN HS) as Hsz.
  pose proof (M1_bound s B) as Hb. pose proof (si_count _ _ _ HS) as Hc.
  pose proof (bi_len1 s B) as Hl.
  simpl.
  destruct (Z.eqb_spec (Z.of_nat (length (State.M1 s))) (State.vertex_count s))
    as [Efull|Nfull]; [tauto|].
  split.
  - intros H. right. apply bind_Ret in H. destruct H as [P [HP H]].
    apply try_pairs_true in H. destruct H as [[n m] [Hin H]].
    eapply try_pair_extends; eauto.
  - intros [Efull|[s' [Hext Hs']]]; [contradiction|].
    pose proof Hext as Hext'.
    destruct Hext as (P & n & m & p1 & p2 & s1 & s2 & HP & Hin & Hacc & Hp1
                      & Hp2 & Hs1 & Hs2 & Hadd).
    rewrite HP. simpl.
    apply (try_pairs_finds _ G1 G2 s P (n, m)); [|exact Hin|].
    + intros [a b] Hq. eapply try_pair_total; eauto.
      intros s'' Hext''. apply solve_total; auto.
      * eapply extends_state_inv; eauto.
      * destruct (extends_good G1 G2 s s'' B Hsz Hext'') as (_ & _ & _ & _ & HM).
        rewrite HM. lia.
    + unfold try_pair. simpl. unfold accepts in Hacc. rewrite Hacc. simpl.
      rewrite Hp1, Hp2, Hs1, Hs2. simpl. rewrite Hadd. simpl. exact Hs'.
Qed.

Lemma solve_true_iff_witness :
  solve 3 G_edge G_edge (State.new 2 false) = Ret true <->
  Z.of_nat (length (State.M1 (State.new 2 false)))
  = State.vertex_count (State.new 2 false) \/
  exists s', extends G_edge G_edge (State.new 2 false) s' /\
             solve 2 G_edge G_edge s' = Ret true.
Proof.
  apply (solve_true_iff G_edge G_edge (State.new 2 false) 2
           G_edge_constructed G_edge_constructed).
  - reflexivity.
  - apply (new_state_inv G_edge G_edge false).
    + apply constructed_inv, G_edge_constructed.
    + reflexivity.
  - vm_compute. lia.
Defined.

(** X24.  Self-matching in subgraph mode ([self_matching_sub]), on the
    triangle. *)
Lemma self_matching_sub_witness : subisomorphism G_triangle G_triangle = Ret true.
Proof.
  apply (self_matching_sub G_triangle).
  apply (build_constructed [V 0; V 0; V 0; E 0 1 7; E 1 2 7; E 2 0 7]).
  reflexivity.
Defined.

Lemma loop_free_not_adjacent (G : Graph.t) (u : Z) :
  loop_free G -> ~ adjacent G u u.
Proof. intros HL [e [He [Eu Ev]]]. apply (HL e He). congruence. Qed.

(** X22.  On graphs without loops the answers are exact.  [isomorphism]
    returns true if and only if the graphs have the same numbers of
    vertices and of edges and some label-preserving bijection of the
    vertices carries every labelled edge of [G1] to an edge of [G2] with
    the same label and maps no two non-adjacent vertices to adjacent
    ones.  With the same number of vertices, [subisomorphism] returns
    true if and only if [G1] has at most as many edges as [G2] and there
    is such a bijection. *)
Theorem loop_free_answers (G1 G2 : Graph.t) :
  constructed G1 -> constructed G2 -> loop_free G1 -> loop_free G2 ->
  (isomorphism G1 G2 = Ret true <->
   Graph.vertex_count G1 = Graph.vertex_count G2 /\
   Graph.edge_count G1 = Graph.edge_count G2 /\
   exists phi psi,
     vertex_bijection G1 G2 phi psi /\ label_preserving G1 G2 phi /\
     edges_preserved G1 G2 phi /\ induced G1 G2 phi) /\
  (Graph.vertex_count G1 = Graph.vertex_count G2 ->
   (subisomorphism G1 G2 = Ret true <->
    Graph.edge_count G1 <= Graph.edge_count G2 /\
    exists phi psi,
      vertex_bijection G1 G2 phi psi /\ label_preserving G1 G2 phi /\
      edges_preserved G1 G2 phi /\ induced G1 G2 phi)).
Proof.
  intros C1 C2 L1 L2. pose proof (constructed_inv G1 C1) as H1.
  pose proof (constructed_inv G2 C2) as H2.
  assert (Sound : forall sub,
             Graph.vertex_count G1 = Graph.vertex_count G2 ->
             solve (depth G1) G1 G2 (State.new (Graph.vertex_count G1) sub)
             = Ret true ->
             exists phi psi,
               vertex_bijection G1 G2 phi psi /\ label_preserving G1 G2 phi /\
               edges_preserved G1 G2 phi /\ induced G1 G2 phi).
  { intros sub EN H.
    destruct (solve_sound G1 G2 sub H1 H2 EN H) as (phi & psi & Hb & Hl & He & Ha).
    exists phi, psi. split; [exact Hb|]. split; [exact Hl|]. split.
    - intros u v l Huv. apply He; [|exact Huv].
      destruct Huv as [e [Hin [<- [<- _]]]]. apply L1, Hin.
    - intros u v Hu Hv Hadj. destruct (Z.eq_dec u v) as [->|N].
      + destruct (loop_free_not_adjacent G2 (phi v) L2 Hadj).
      + apply Ha; assumption. }
  split.
  - split.
    + intros H. unfold isomorphism in H.
      destruct (Z.eqb_spec (Graph.vertex_count G1) (Graph.vertex_count G2))
        as [EN|]; cbn [negb] in H; [|discriminate].
      destruct (Z.eqb_spec (Graph.edge_count G1) (Graph.edge_count G2))
        as [EE|]; cbn [negb] in H; [|discriminate].
      split; [exact EN|]. split; [exact EE|]. eapply Sound; eauto.
    + intros (EN & EE & phi & psi & Hb & Hl & He & Hi).
      unfold isomorphism. rewrite EN, EE, !Z.eqb_refl. cbn [negb].
      rewrite <- EN. apply (solve_finds G1 G2 phi psi); auto.
  - intros EN. split.
    + intros H. unfold subisomorphism in H.
      destruct (_ >? _) in H; [discriminate|].
      destruct (Z.gtb_spec (Graph.edge_count G1) (Graph.edge_count G2))
        as [|EE]; [discriminate|].
      split; [exact EE|]. eapply Sound; eauto.
    + intros (EE & phi & psi & Hb & Hl & He & Hi). unfold subisomorphism.
      destruct (Z.gtb_spec (Graph.vertex_count G1) (Graph.vertex_count G2));
        [lia|].
      destruct (Z.gtb_spec (Graph.edge_count G1) (Graph.edge_count G2)); [lia|].
      apply (solve_finds G1 G2 phi psi); auto.
Qed.

Lemma loop_free_answers_witness :
  (isomorphism G_twin G_mixed = Ret true <->
   Graph.vertex_count G_twin = Graph.vertex_count G_mixed /\
   Graph.edge_count G_twin = Graph.edge_count G_mixed /\
   exists phi psi,
     vertex_bijection G_twin G_mixed phi psi /\
     label_preserving G_twin G_mixed phi /\
     edges_preserved G_twin G_mixed phi /\ induced G_twin G_mixed phi) /\
  (Graph.vertex_count G_twin = Graph.vertex_count G_mixed ->
   (subisomorphism G_twin G_mixed = Ret true <->
    Graph.edge_count G_twin <= Graph.edge_count G_mixed /\
    exists phi psi,
      vertex_bijection G_twin G_mixed phi psi /\
      label_preserving G_twin G_mixed phi /\
      edges_preserved G_twin G_mixed phi /\ induced G_twin G_mixed phi)).
Proof.
  apply (loop_free_answers G_twin G_mixed G_twin_constructed G_mixed_constructed).
  - intros e He. vm_compute in He.
    destruct He as [<-|[<-|[]]]; simpl; lia.
  - intros e He. vm_compute in He.
    destruct He as [<-|[<-|[]]]; simpl; lia.
Defined.

(** X23.  The third case of candidate generation
    ([genCandiPairSet_disconnected]), on the empty state of a search with
    two query vertices. *)
Lemma genCandiPairSet_disconnected_witness :
  exists mstar,
    (forall n m, In (n, m) [(0, 1); (1, 1)] <->
                 m = mstar /\ 0 <= n < State.vertex_count (State.new 2 false) /\
                 unmapped (State.core_1 (State.new 2 false)) n) /\
    (forall i, mstar < i < State.vertex_count (State.new 2 false) ->
               exists x, mapped (State.core_2 (State.new 2 false)) i x) /\
    (mstar = -1 \/
     (0 <= mstar < State.vertex_count (State.new 2 false) /\
      unmapped (State.core_2 (State.new 2 false)) mstar)).
Proof.
  apply (genCandiPairSet_disconnected (State.new 2 false) [(0, 1); (1, 1)]).
  - left. reflexivity.
  - left. reflexivity.
  - reflexivity.
  - reflexivity.
Defined.
